(** * A whole-word text searcher over 4KB chunks with fencepost buffers

    Shallow embedding of [go/text/search.go] (package [text]) and proofs about
    it.  The Go program reads a file into 4096-byte chunks, interleaves them
    with "fencepost" buffers that [Search] fills on every call, scans every
    buffer for the search word and renders each whole-word hit with some
    context words.

    Modelling conventions.

    - A Go [string] and the contents of a [[]byte] are [list byte].
    - A Go [int] is a [Z].  The only product of two caller-controlled ints,
      [context * ts.maxWordSizeInBytes], is wrapped to 64 bits ([wrap64]);
      every other int is an offset into a buffer and stays small.
    - A slice is the bytes it shows ([elems], positions [0 .. len-1]) together
      with the bytes of its backing array between [len] and [cap] ([spare]):
      Go checks an index against [len] but the upper bound of a slice
      expression against [cap], so the spare bytes can be read.
    - A run-time panic, a returned [error] and an exhausted recursion budget
      are the three ways of not producing a value ([outcome]).
    - [bytes.ToLower], [strings.ToLower] and [bytes.Fields] work byte by
      byte on input that is all ASCII and rune by rune on any other input,
      through the UTF-8 decoder and the tables of package [unicode].
    - The goroutines started by [Search] touch disjoint result slots and only
      read the buffers, so they are run one after the other in buffer order.
    - [float64] arithmetic in [NewSearcher] is exact for sizes below 2^53 and
      is written with integers. *)

From Stdlib Require Import ZArith Lia Bool List.
From Stdlib Require Import Strings.Byte Strings.String.
From stdpp Require Import base list.

Local Open Scope Z_scope.

(** ** Outcomes of a Go computation *)

(** The one [error] value the package itself creates, and the one the reader
    returns at end of file. *)
Inductive error : Type :=
| ErrOutOfBounds   (* fmt.Errorf("out of bounds of OS_WORD_SIZE buffer") *)
| ErrEOF.          (* io.EOF *)

Inductive outcome (A : Type) : Type :=
| Ok (a : A)
| Fail (e : error)
| Panic
| OutOfFuel.

Arguments Ok {A} a.
Arguments Fail {A} e.
Arguments Panic {A}.
Arguments OutOfFuel {A}.

Definition obind {A B : Type} (m : outcome A) (k : A -> outcome B) : outcome B :=
  match m with
  | Ok a => k a
  | Fail e => Fail e
  | Panic => Panic
  | OutOfFuel => OutOfFuel
  end.

Notation "'let*' x ':=' m 'in' k" := (obind m (fun x => k))
  (at level 10, x name, m at level 100, k at level 200).

(** Splits a hypothesis [H : (let* x := m in k) = Ok b] into [Hx : m = Ok x]
    and [H : k = Ok b]. *)
Ltac inv_bind H x Hx :=
  match type of H with
  | obind ?m _ = Ok _ =>
      destruct m as [x| | |] eqn:Hx; cbn [obind] in H; [|discriminate H ..]
  end.

(** ** Bytes and strings *)

Abbreviation byte := Byte.byte.

Definition str (s : string) : list byte := list_byte_of_string s.

Definition byte_val (b : byte) : Z := Z.of_N (Byte.to_N b).

(** [c < utf8.RuneSelf] *)
Definition isASCII (b : byte) : bool := byte_val b <? 128.

(** The loop body of the ASCII path of [bytes.ToLower]:
    [if 'A' <= c && c <= 'Z' { c += 'a' - 'A' }]. *)
Definition lowerByte (c : byte) : byte :=
  if (65 <=? byte_val c) && (byte_val c <=? 90)
  then match Byte.of_N (Byte.to_N c + 32) with
       | Some c' => c'
       | None => c
       end
  else c.

(** *** UTF-8

    The part of package [unicode/utf8] that [bytes.Map] and
    [bytes.FieldsFunc] go through. *)
Module utf8.

Definition RuneError : Z := 65533.   (* U+FFFD *)
Definition MaxRune : Z := 1114111.   (* U+10FFFF *)

(** [lo <= b && b <= hi] *)
Definition inRange (lo hi : Z) (b : byte) : bool :=
  (lo <=? byte_val b) && (byte_val b <=? hi).

(** [utf8.DecodeRune(p)]: the first rune of [p] and its width in bytes.  The
    first byte picks the width and the range the second byte has to lie in
    (the tables [first] and [acceptRanges]); the other bytes lie between 0x80
    and 0xBF.  A byte that starts no encoding is the rune [RuneError] of
    width 1. *)
Definition DecodeRune (p : list byte) : Z * nat :=
  match p with
  | [] => (RuneError, 0%nat)
  | p0 :: rest1 =>
      let x := byte_val p0 in
      if x <? 128 then (x, 1%nat)
      else if (x <? 194) || (244 <? x) then (RuneError, 1%nat)
      else
        let lo := if x =? 224 then 160 else if x =? 240 then 144 else 128 in
        let hi := if x =? 237 then 159 else if x =? 244 then 143 else 191 in
        match rest1 with
        | [] => (RuneError, 1%nat)
        | b1 :: rest2 =>
            if negb (inRange lo hi b1) then (RuneError, 1%nat)
            else if x <? 224 then
              (Z.lor (Z.shiftl (Z.land x 31) 6) (Z.land (byte_val b1) 63), 2%nat)
            else
              match rest2 with
              | [] => (RuneError, 1%nat)
              | b2 :: rest3 =>
                  if negb (inRange 128 191 b2) then (RuneError, 1%nat)
                  else if x <? 240 then
                    (Z.lor (Z.shiftl (Z.land x 15) 12)
                       (Z.lor (Z.shiftl (Z.land (byte_val b1) 63) 6)
                              (Z.land (byte_val b2) 63)), 3%nat)
                  else
                    match rest3 with
                    | [] => (RuneError, 1%nat)
                    | b3 :: _ =>
                        if negb (inRange 128 191 b3) then (RuneError, 1%nat)
                        else
                          (Z.lor (Z.shiftl (Z.land x 7) 18)
                             (Z.lor (Z.shiftl (Z.land (byte_val b1) 63) 12)
                                (Z.lor (Z.shiftl (Z.land (byte_val b2) 63) 6)
                                       (Z.land (byte_val b3) 63))), 4%nat)
                    end
              end
        end
  end.

(** [byte(z)]: the low eight bits. *)
Definition toByte (z : Z) : byte :=
  match Byte.of_N (Z.to_N (z mod 256)) with
  | Some b => b
  | None => Byte.x00
  end.

(** The three-byte encoding:
    [t3|byte(r>>12), tx|byte(r>>6)&maskx, tx|byte(r)&maskx]. *)
Definition encode3 (r : Z) : list byte :=
  [toByte (Z.lor 224 (Z.shiftr r 12));
   toByte (Z.lor 128 (Z.land (Z.shiftr r 6) 63));
   toByte (Z.lor 128 (Z.land r 63))].

(** [utf8.AppendRune(nil, r)] for [r >= 0]: the UTF-8 encoding of [r], that
    of [RuneError] for a surrogate half and for a value above [MaxRune]. *)
Definition AppendRune (r : Z) : list byte :=
  if r <=? 127 then [toByte r]
  else if r <=? 2047 then
    [toByte (Z.lor 192 (Z.shiftr r 6)); toByte (Z.lor 128 (Z.land r 63))]
  else if (MaxRune <? r) || ((55296 <=? r) && (r <=? 57343)) then encode3 RuneError
  else if r <=? 65535 then encode3 r
  else
    [toByte (Z.lor 240 (Z.shiftr r 18));
     toByte (Z.lor 128 (Z.land (Z.shiftr r 12) 63));
     toByte (Z.lor 128 (Z.land (Z.shiftr r 6) 63));
     toByte (Z.lor 128 (Z.land r 63))].

End utf8.

(** *** Unicode

    The part of package [unicode] that [bytes.ToLower] and [bytes.Fields] go
    through. *)
Module unicode.

(** The lower-case entry of a [CaseRange]: a number to add, or the mark of a
    range in which upper-case and lower-case letters alternate. *)
Inductive caseDelta : Type :=
| Delta (d : Z)
| UpperLower.

(** The ranges of [unicode.CaseRanges] above U+007F that move a rune on its
    way to lower case, each as [(Lo, Hi, Delta[LowerCase])].  They hold the
    simple lower-case mapping of the Unicode Character Database, version
    14.0. *)
Definition CaseRanges : list (Z * Z * caseDelta) :=
  [(192, 214, Delta 32); (216, 222, Delta 32); (256, 303, UpperLower);
   (304, 304, Delta (-199)); (306, 311, UpperLower); (313, 328, UpperLower);
   (330, 375, UpperLower); (376, 376, Delta (-121)); (377, 382, UpperLower);
   (385, 385, Delta 210); (386, 389, UpperLower); (390, 390, Delta 206);
   (391, 392, UpperLower); (393, 394, Delta 205); (395, 396, UpperLower);
   (398, 398, Delta 79); (399, 399, Delta 202); (400, 400, Delta 203);
   (401, 402, UpperLower); (403, 403, Delta 205); (404, 404, Delta 207);
   (406, 406, Delta 211); (407, 407, Delta 209); (408, 409, UpperLower);
   (412, 412, Delta 211); (413, 413, Delta 213); (415, 415, Delta 214);
   (416, 421, UpperLower); (422, 422, Delta 218); (423, 424, UpperLower);
   (425, 425, Delta 218); (428, 429, UpperLower); (430, 430, Delta 218);
   (431, 432, UpperLower); (433, 434, Delta 217); (435, 438, UpperLower);
   (439, 439, Delta 219); (440, 441, UpperLower); (444, 445, UpperLower);
   (452, 452, Delta 2); (453, 454, UpperLower); (455, 455, Delta 2);
   (456, 457, UpperLower); (458, 458, Delta 2); (459, 476, UpperLower);
   (478, 495, UpperLower); (497, 497, Delta 2); (498, 501, UpperLower);
   (502, 502, Delta (-97)); (503, 503, Delta (-56)); (504, 543, UpperLower);
   (544, 544, Delta (-130)); (546, 563, UpperLower); (570, 570, Delta 10795);
   (571, 572, UpperLower); (573, 573, Delta (-163)); (574, 574, Delta 10792);
   (577, 578, UpperLower); (579, 579, Delta (-195)); (580, 580, Delta 69);
   (581, 581, Delta 71); (582, 591, UpperLower); (880, 883, UpperLower);
   (886, 887, UpperLower); (895, 895, Delta 116); (902, 902, Delta 38);
   (904, 906, Delta 37); (908, 908, Delta 64); (910, 911, Delta 63);
   (913, 929, Delta 32); (931, 939, Delta 32); (975, 975, Delta 8);
   (984, 1007, UpperLower); (1012, 1012, Delta (-60));
   (1015, 1016, UpperLower); (1017, 1017, Delta (-7));
   (1018, 1019, UpperLower); (1021, 1023, Delta (-130));
   (1024, 1039, Delta 80); (1040, 1071, Delta 32); (1120, 1153, UpperLower);
   (1162, 1215, UpperLower); (1216, 1216, Delta 15);
   (1217, 1230, UpperLower); (1232, 1327, UpperLower);
   (1329, 1366, Delta 48); (4256, 4293, Delta 7264);
   (4295, 4295, Delta 7264); (4301, 4301, Delta 7264);
   (5024, 5103, Delta 38864); (5104, 5109, Delta 8);
   (7312, 7354, Delta (-3008)); (7357, 7359, Delta (-3008));
   (7680, 7829, UpperLower); (7838, 7838, Delta (-7615));
   (7840, 7935, UpperLower); (7944, 7951, Delta (-8));
   (7960, 7965, Delta (-8)); (7976, 7983, Delta (-8));
   (7992, 7999, Delta (-8)); (8008, 8013, Delta (-8));
   (8025, 8025, Delta (-8)); (8027, 8027, Delta (-8));
   (8029, 8029, Delta (-8)); (8031, 8031, Delta (-8));
   (8040, 8047, Delta (-8)); (8072, 8079, Delta (-8));
   (8088, 8095, Delta (-8)); (8104, 8111, Delta (-8));
   (8120, 8121, Delta (-8)); (8122, 8123, Delta (-74));
   (8124, 8124, Delta (-9)); (8136, 8139, Delta (-86));
   (8140, 8140, Delta (-9)); (8152, 8153, Delta (-8));
   (8154, 8155, Delta (-100)); (8168, 8169, Delta (-8));
   (8170, 8171, Delta (-112)); (8172, 8172, Delta (-7));
   (8184, 8185, Delta (-128)); (8186, 8187, Delta (-126));
   (8188, 8188, Delta (-9)); (8486, 8486, Delta (-7517));
   (8490, 8490, Delta (-8383)); (8491, 8491, Delta (-8262));
   (8498, 8498, Delta 28); (8544, 8559, Delta 16); (8579, 8580, UpperLower);
   (9398, 9423, Delta 26); (11264, 11311, Delta 48);
   (11360, 11361, UpperLower); (11362, 11362, Delta (-10743));
   (11363, 11363, Delta (-3814)); (11364, 11364, Delta (-10727));
   (11367, 11372, UpperLower); (11373, 11373, Delta (-10780));
   (11374, 11374, Delta (-10749)); (11375, 11375, Delta (-10783));
   (11376, 11376, Delta (-10782)); (11378, 11379, UpperLower);
   (11381, 11382, UpperLower); (11390, 11391, Delta (-10815));
   (11392, 11491, UpperLower); (11499, 11502, UpperLower);
   (11506, 11507, UpperLower); (42560, 42605, UpperLower);
   (42624, 42651, UpperLower); (42786, 42799, UpperLower);
   (42802, 42863, UpperLower); (42873, 42876, UpperLower);
   (42877, 42877, Delta (-35332)); (42878, 42887, UpperLower);
   (42891, 42892, UpperLower); (42893, 42893, Delta (-42280));
   (42896, 42899, UpperLower); (42902, 42921, UpperLower);
   (42922, 42922, Delta (-42308)); (42923, 42923, Delta (-42319));
   (42924, 42924, Delta (-42315)); (42925, 42925, Delta (-42305));
   (42926, 42926, Delta (-42308)); (42928, 42928, Delta (-42258));
   (42929, 42929, Delta (-42282)); (42930, 42930, Delta (-42261));
   (42931, 42931, Delta 928); (42932, 42947, UpperLower);
   (42948, 42948, Delta (-48)); (42949, 42949, Delta (-42307));
   (42950, 42950, Delta (-35384)); (42951, 42954, UpperLower);
   (42960, 42961, UpperLower); (42966, 42969, UpperLower);
   (42997, 42998, UpperLower); (65313, 65338, Delta 32);
   (66560, 66599, Delta 40); (66736, 66771, Delta 40);
   (66928, 66938, Delta 39); (66940, 66954, Delta 39);
   (66956, 66962, Delta 39); (66964, 66965, Delta 39);
   (68736, 68786, Delta 64); (71840, 71871, Delta 32);
   (93760, 93791, Delta 32); (125184, 125217, Delta 34)].

(** [unicode.to(LowerCase, r, caseRange)]: the range that holds [r] decides.
    In an [UpperLower] range the runes at even offsets are upper case and
    the ones at odd offsets lower case, and the mapping sets the low bit of
    the offset: [Lo + ((r-Lo)&^1 | 1)]. *)
Fixpoint to (caseRange : list (Z * Z * caseDelta)) (r : Z) : Z :=
  match caseRange with
  | [] => r
  | (lo, hi, delta) :: rest =>
      if (lo <=? r) && (r <=? hi) then
        match delta with
        | UpperLower => lo + Z.lor (Z.ldiff (r - lo) 1) 1
        | Delta d => r + d
        end
      else to rest r
  end.

(** [unicode.ToLower(r)] *)
Definition ToLower (r : Z) : Z :=
  if r <=? 127 then
    if (65 <=? r) && (r <=? 90) then r + 32 else r
  else to CaseRanges r.

(** [unicode.IsSpace(r)]: in Latin-1 the six ASCII white-space characters,
    U+0085 and U+00A0; above it the table [White_Space]. *)
Definition IsSpace (r : Z) : bool :=
  if r <=? 255 then
    ((9 <=? r) && (r <=? 13)) || (r =? 32) || (r =? 133) || (r =? 160)
  else
    (r =? 5760) || ((8192 <=? r) && (r <=? 8202)) || (r =? 8232) || (r =? 8233)
    || (r =? 8239) || (r =? 8287) || (r =? 12288).

End unicode.

(** [bytes.Map(mapping, s)]: the loop
    [for i := 0; i < len(s); { r, wid := decode s[i:]; ...; i += wid }],
    byte by byte; [wid] counts the bytes of the rune read last that are still
    to be stepped over.  A negative result of [mapping] drops the rune. *)
Fixpoint mapFrom (mapping : Z -> Z) (wid : nat) (s : list byte) : list byte :=
  match s with
  | [] => []
  | _ :: s' =>
      match wid with
      | S wid' => mapFrom mapping wid' s'
      | O =>
          let d := utf8.DecodeRune s in
          let r := mapping (fst d) in
          (if 0 <=? r then utf8.AppendRune r else [])
          ++ mapFrom mapping (snd d - 1) s'
      end
  end.

Definition Map (mapping : Z -> Z) (s : list byte) : list byte := mapFrom mapping 0 s.

(** [bytes.ToLower(s)], and [strings.ToLower] with it: input that is all
    ASCII is lowered byte by byte; any other input is decoded rune by rune,
    each rune lowered and encoded again, so that a byte which is no UTF-8
    becomes the three bytes of U+FFFD and the result can be longer or shorter
    than [s]. *)
Definition ToLower (s : list byte) : list byte :=
  if forallb isASCII s then map lowerByte s else Map unicode.ToLower s.

(** [bytes.HasPrefix] *)
Fixpoint HasPrefix (s prefix : list byte) {struct prefix} : bool :=
  match prefix, s with
  | [], _ => true
  | _ :: _, [] => false
  | p :: prefix', c :: s' => Byte.eqb c p && HasPrefix s' prefix'
  end.

(** [bytes.Index]: offset of the first occurrence of [sep] in [s]; Go's [-1]
    is [None]. *)
Fixpoint Index (s sep : list byte) : option nat :=
  if HasPrefix s sep then Some 0%nat
  else match s with
       | [] => None
       | _ :: s' => option_map S (Index s' sep)
       end.

(** [bytes.ContainsRune(list, rune(b))] for an ASCII [list]: a byte of value
    0x80 or more becomes a two-byte rune that an ASCII list cannot contain,
    and below that the search is [IndexByte]. *)
Definition ContainsRune (l : list byte) (b : byte) : bool :=
  existsb (Byte.eqb b) l.

Definition wordCharactersList : list byte :=
  str "abcdefghijklmnopqrstuvwxyzABCDEFGHIJKLMNOPQRSTUVWXYZ0123456789'-".

(** The double quote followed by [.,!?(){}[]]. *)
Definition punctuationList : list byte :=
  Byte.x22 :: str ".,!?(){}[]".

Definition chunkSize : Z := 4 * 1024.

(** ** Slices *)

Record slice : Type := mkSlice {
  elems : list byte;   (* s[0], ..., s[len(s)-1] *)
  spare : list byte    (* the backing array from len(s) up to cap(s) *)
}.

Definition nilSlice : slice := mkSlice [] [].

Definition len (s : slice) : Z := Z.of_nat (length (elems s)).
Definition cap (s : slice) : Z := len s + Z.of_nat (length (spare s)).

(** [s[i]]: panics unless [0 <= i < len(s)]. *)
Definition byte_at (s : slice) (i : Z) : outcome byte :=
  if (0 <=? i) && (i <? len s)
  then match elems s !! Z.to_nat i with
       | Some b => Ok b
       | None => Panic
       end
  else Panic.

(** [s[lo:hi]]: panics unless [0 <= lo <= hi <= cap(s)]. *)
Definition slice3 (s : slice) (lo hi : Z) : outcome slice :=
  if (0 <=? lo) && (lo <=? hi) && (hi <=? cap s)
  then let arr := elems s ++ spare s in
       Ok (mkSlice (take (Z.to_nat (hi - lo)) (drop (Z.to_nat lo) arr))
                   (drop (Z.to_nat hi) arr))
  else Panic.

(** [s[lo:]] *)
Definition sliceFrom (s : slice) (lo : Z) : outcome slice := slice3 s lo (len s).
(** [s[:hi]] *)
Definition sliceTo (s : slice) (hi : Z) : outcome slice := slice3 s 0 hi.

(** [append(s, t...)].  With nothing to add the slice is returned as it is.
    Otherwise the bytes go into the spare room of the backing array when
    there is enough of it, and into a new array when not; the flag tells
    which, since in the first case every slice that shares the array sees the
    bytes.  The room a new array has beyond its length is picked by the
    run-time and never read by this program; the model gives it none. *)
Definition append (s : slice) (t : list byte) : slice * bool :=
  match t with
  | [] => (s, false)
  | _ :: _ =>
      if (length t <=? length (spare s))%nat
      then (mkSlice (elems s ++ t) (drop (length t) (spare s)), true)
      else (mkSlice (elems s ++ t) [], false)
  end.

(** ** The searcher *)

Record TextSearcher : Type := mkTextSearcher {
  maxWordSizeInBytes : Z;
  fileBuffers : list slice   (* 4KB chunks of file, fenceposts between them *)
}.

(** [bufs[i]] on the outer slice: panics when out of range. *)
Definition buffer_at (bufs : list slice) (i : Z) : outcome slice :=
  if 0 <=? i
  then match bufs !! Z.to_nat i with
       | Some s => Ok s
       | None => Panic
       end
  else Panic.

(** *** NewSearcher *)

(** One [r.Read(buf)] on a fresh [buf] of [chunkSize] zero bytes followed by
    [buf = buf[:n]].  The reader hands over what is left of the file, at most
    [len(buf)] bytes, and reports [io.EOF] when nothing is left: a regular
    file is not read short before its end.  The bytes of [buf] past [n] keep
    their zeros. *)
Definition readChunk (rest : list byte) : outcome (slice * list byte) :=
  match rest with
  | [] => Fail ErrEOF
  | _ :: _ =>
      let n := Z.to_nat chunkSize in
      let data := take n rest in
      Ok (mkSlice data (replicate (n - length data) Byte.x00), drop n rest)
  end.

(** The loop [for i := 0; i < numberOfFileChunks; i++]. *)
Fixpoint readChunks (numberOfFileChunks : nat) (rest : list byte)
  : outcome (list slice) :=
  match numberOfFileChunks with
  | O => Ok []
  | S n =>
      let* r := readChunk rest in
      let* bufs := readChunks n (snd r) in
      Ok (fst r :: bufs)
  end.

(** [int(math.Ceil(fileSize / float64(chunkSize)))] *)
Definition ceilDiv (a b : Z) : Z := (a + b - 1) / b.

(** [make([][]byte, n)] followed by the loop that copies chunk [i/2] into
    every even slot [i]; the odd slots stay [nil].  With [n] one less than
    twice the number of chunks, [i/2] is the index of a chunk. *)
Definition withFencePosts (n : nat) (chunks : list slice) : list slice :=
  map (fun i : nat =>
         if Nat.even i then default nilSlice (chunks !! (i / 2)%nat)
         else nilSlice)
      (seq 0 n).

Definition NewSearcher (file : list byte) : outcome TextSearcher :=
  let fileSize := Z.of_nat (length file) in
  let numberOfFileChunks := ceilDiv fileSize chunkSize in
  let* chunks := readChunks (Z.to_nat numberOfFileChunks) file in
  (* make([][]byte, (numberOfFileChunks*2)-1) panics on a negative length *)
  let n := numberOfFileChunks * 2 - 1 in
  if n <? 0 then Panic
  else Ok (mkTextSearcher 20 (withFencePosts (Z.to_nat n) chunks)).

(** *** Search: filling the fenceposts *)

(** A Go [int] product on a 64-bit platform. *)
Definition wrap64 (z : Z) : Z := (z + 2 ^ 63) mod 2 ^ 64 - 2 ^ 63.

(** The body of the first loop of [Search] at index [i]:
<<
    if i % 2 != 0 {
      firstHalfPost := ts.fileBuffers[i-1]
      secondHalfPost := ts.fileBuffers[i+1]
      ts.fileBuffers[i] = append(
        firstHalfPost[len(firstHalfPost)-sizeEitherSideFencepost:],
        secondHalfPost[0:sizeEitherSideFencepost]...)
    }
>>
    When [append] writes in place, the bytes land in the backing array of
    [firstHalfPost], right after its last element: slot [i-1] shares that
    array and sees them as its spare bytes.  No other slot shares it but
    slot [i], which is overwritten here. *)
Definition fenceStep (sizeEitherSideFencepost : Z) (bufs : list slice) (i : nat)
  : outcome (list slice) :=
  if Nat.odd i then
    let* firstHalfPost := buffer_at bufs (Z.of_nat i - 1) in
    let* secondHalfPost := buffer_at bufs (Z.of_nat i + 1) in
    let* tail := sliceFrom firstHalfPost (len firstHalfPost - sizeEitherSideFencepost) in
    let* head := sliceTo secondHalfPost sizeEitherSideFencepost in
    let (fence, inPlace) := append tail (elems head) in
    let bufs' :=
      if inPlace
      then <[ (i - 1)%nat :=
                mkSlice (elems firstHalfPost)
                        (elems head ++ drop (length (elems head)) (spare firstHalfPost)) ]> bufs
      else bufs in
    Ok (<[ i := fence ]> bufs')
  else Ok bufs.

(** [for i := range ts.fileBuffers { ... }] over the indices [idx]. *)
Fixpoint fenceLoop (size : Z) (idx : list nat) (bufs : list slice)
  : outcome (list slice) :=
  match idx with
  | [] => Ok bufs
  | i :: idx' =>
      let* bufs' := fenceStep size bufs i in
      fenceLoop size idx' bufs'
  end.

(** Lines 82-94 of [Search]: the searcher after the fenceposts are filled. *)
Definition fillFenceposts (ts : TextSearcher) (context : Z) : outcome TextSearcher :=
  let sizeEitherSideFencepost := wrap64 (context * maxWordSizeInBytes ts) in
  let* bufs := fenceLoop sizeEitherSideFencepost
                         (seq 0 (length (fileBuffers ts))) (fileBuffers ts) in
  Ok (mkTextSearcher (maxWordSizeInBytes ts) bufs).

(** *** isExactWord *)

Definition isWordCharacter (b : byte) : bool := ContainsRune wordCharactersList b.

Definition isExactWord (ts : TextSearcher) (bufferNum : Z) (word : list byte) (index : Z)
  : outcome bool :=
  let lenWord := Z.of_nat (length word) in
  if (bufferNum =? 0) && (index =? 0) then
    (* the match starts at the beginning of the file *)
    let* buf := buffer_at (fileBuffers ts) bufferNum in
    let* b := byte_at buf lenWord in
    if isWordCharacter b then Ok false else Ok true
  else if (bufferNum =? Z.of_nat (length (fileBuffers ts)))
          && (index + lenWord =? chunkSize) then
    (* meant for the match that contains the last char of the file *)
    let* buf := buffer_at (fileBuffers ts) bufferNum in
    let* b := byte_at buf lenWord in
    if isWordCharacter b then Ok false else Ok true
  else if (index - 1 <? 0) || (index + 1 >? chunkSize) then
    Fail ErrOutOfBounds
  else
    let* buf := buffer_at (fileBuffers ts) bufferNum in
    let* byteBeforeWord := byte_at buf (index - 1) in
    let* byteAfterWord := byte_at buf (index + lenWord) in
    if isWordCharacter byteBeforeWord || isWordCharacter byteAfterWord
    then Ok false
    else Ok true.

(** *** Context words *)

Definition CR : byte := Byte.x0d.
Definition LF : byte := Byte.x0a.
Definition SP : byte := Byte.x20.

(** [bytes.ReplaceAll(buf, CR LF, SP)] *)
Fixpoint replaceCRLF (buf : list byte) : list byte :=
  match buf with
  | [] => []
  | c :: rest =>
      match rest with
      | d :: rest' =>
          if Byte.eqb c CR && Byte.eqb d LF then SP :: replaceCRLF rest'
          else c :: replaceCRLF rest
      | [] => [c]
      end
  end.

(** [bytes.ReplaceAll(buf, LF, SP)] *)
Definition replaceLF (buf : list byte) : list byte :=
  map (fun c => if Byte.eqb c LF then SP else c) buf.

Definition removeReturnCharacters (buf : list byte) : list byte :=
  replaceLF (replaceCRLF buf).

(** The white space of [bytes.Fields] on ASCII input (the table
    [asciiSpace]): tab, line feed, vertical tab, form feed, carriage return
    and space. *)
Definition isSpace (b : byte) : bool :=
  let v := byte_val b in ((9 <=? v) && (v <=? 13)) || (v =? 32).

(** The ASCII path of [bytes.Fields]; [cur] is the field being read, last
    byte first. *)
Fixpoint fieldsFrom (cur : list byte) (s : list byte) : list (list byte) :=
  match s with
  | [] => match cur with [] => [] | _ :: _ => [rev cur] end
  | c :: s' =>
      if isSpace c
      then match cur with
           | [] => fieldsFrom [] s'
           | _ :: _ => rev cur :: fieldsFrom [] s'
           end
      else fieldsFrom (c :: cur) s'
  end.

(** [bytes.FieldsFunc(s, f)]: the fields between the runes that [f] holds
    of.  [cur] is the field being read, last byte first, and [wid] counts the
    bytes of the rune read last that are still to be stepped over. *)
Fixpoint fieldsFuncFrom (f : Z -> bool) (cur : list byte) (wid : nat) (s : list byte)
  : list (list byte) :=
  match s with
  | [] => match cur with [] => [] | _ :: _ => [rev cur] end
  | _ :: s' =>
      match wid with
      | S wid' => fieldsFuncFrom f cur wid' s'
      | O =>
          let d := utf8.DecodeRune s in
          if f (fst d)
          then match cur with
               | [] => fieldsFuncFrom f [] (snd d - 1) s'
               | _ :: _ => rev cur :: fieldsFuncFrom f [] (snd d - 1) s'
               end
          else fieldsFuncFrom f (rev (take (snd d) s) ++ cur) (snd d - 1) s'
      end
  end.

Definition FieldsFunc (s : list byte) (f : Z -> bool) : list (list byte) :=
  fieldsFuncFrom f [] 0 s.

(** [bytes.Fields(s)]: input that is all ASCII is split at the bytes of
    [asciiSpace], any other input at the runes of [unicode.IsSpace]. *)
Definition Fields (s : list byte) : list (list byte) :=
  if forallb isASCII s then fieldsFrom [] s else FieldsFunc s unicode.IsSpace.

(** [strings.Join(words, sep)] *)
Fixpoint Join (words : list (list byte)) (sep : list byte) : list byte :=
  match words with
  | [] => []
  | [w] => w
  | w :: ws => w ++ sep ++ Join ws sep
  end.

Definition minInt (x y : Z) : Z := if x <? y then x else y.

(** [bytes.Equal(w, []byte{b})] *)
Definition isSingle (w : list byte) (b : byte) : bool :=
  match w with
  | [c] => Byte.eqb c b
  | _ => false
  end.

(** [findContext]; the recursion of the source moves [bufferIndex] by one
    towards an end of the buffer on every call, [fuel] bounds its depth. *)
Fixpoint findContext (fuel : nat) (ts : TextSearcher) (bufferAsideWord : list byte)
    (prev : bool) (bufferNum bufferIndex numWords : Z) : outcome (list byte) :=
  match fuel with
  | O => OutOfFuel
  | S fuel' =>
      let bufferAsSplitBytes := Fields bufferAsideWord in
      let n := Z.of_nat (length bufferAsSplitBytes) in
      let numWords := minInt n numWords in
      (* both slice expressions panic on a negative numWords *)
      if numWords <? 0 then Panic else
      let wordsInBytes :=
        if prev then drop (Z.to_nat (n - numWords)) bufferAsSplitBytes
        else take (Z.to_nat numWords) bufferAsSplitBytes in
      match wordsInBytes with
      | [] => Ok []
      | w0 :: _ =>
          match find (isSingle w0) punctuationList with
          | Some b =>
              let* buf := buffer_at (fileBuffers ts) bufferNum in
              if prev then
                let* aside := sliceTo buf (bufferIndex - 1) in
                let* r := findContext fuel' ts (removeReturnCharacters (elems aside))
                                      prev bufferNum (bufferIndex - 1) numWords in
                Ok (r ++ [b])
              else
                let* aside := sliceFrom buf (bufferIndex + 1) in
                let* r := findContext fuel' ts (removeReturnCharacters (elems aside))
                                      prev bufferNum (bufferIndex + 1) numWords in
                Ok (b :: r)
          | None =>
              if prev then Ok (Join wordsInBytes [SP] ++ [SP])
              else Ok (SP :: Join wordsInBytes [SP])
          end
      end
  end.

(** Recursion budget that [findContext] cannot use up on buffer [buf]: the
    index stays between 0 and [cap(buf)]. *)
Definition contextFuel (buf : slice) : nat :=
  S (S (length (elems buf) + length (spare buf))).

Definition findNextWords (ts : TextSearcher) (bufferNum bufferIndex numWords : Z)
  : outcome (list byte) :=
  let* buf := buffer_at (fileBuffers ts) bufferNum in
  let* aside := sliceFrom buf bufferIndex in
  findContext (contextFuel buf) ts (removeReturnCharacters (elems aside))
              false bufferNum bufferIndex numWords.

Definition findPrevWords (ts : TextSearcher) (bufferNum bufferIndex numWords : Z)
  : outcome (list byte) :=
  let* buf := buffer_at (fileBuffers ts) bufferNum in
  let* aside := sliceTo buf bufferIndex in
  findContext (contextFuel buf) ts (removeReturnCharacters (elems aside))
              true bufferNum bufferIndex numWords.

(** *** Search: scanning one buffer *)

(** A match as the scan records it: the rendered string, and beside it, as
    ghost data that [Search] drops, the local offset [wordIndex+skip] it was
    found at. *)
Definition hit : Type := Z * list byte.

(** The local variables of the goroutine of buffer [i]. *)
Record scanState : Type := mkScan {
  buffer : slice;      (* what is left to scan *)
  skip : Z;            (* offset of [buffer] in the full buffer *)
  found : list hit     (* matches[i] *)
}.

Inductive scanNext : Type :=
| Continue (st : scanState)
| Break (matches : list hit).

(** One turn of the loop [for { ... }] of the goroutine. *)
Definition scanStep (ts : TextSearcher) (i : Z) (word : list byte) (context : Z)
    (st : scanState) : outcome scanNext :=
  match Index (ToLower (elems (buffer st))) (ToLower word) with
  | None => Ok (Break (found st))
  | Some wi =>
      let wordIndex := Z.of_nat wi in
      let lenWord := Z.of_nat (length word) in
      match isExactWord ts i word (wordIndex + skip st) with
      | Fail _ => Ok (Break (found st))
      | Panic => Panic
      | OutOfFuel => OutOfFuel
      | Ok false =>
          (* move the cursor forward even if it was not an exact match *)
          let* buffer' := sliceFrom (buffer st) (wordIndex + lenWord) in
          Ok (Continue (mkScan buffer' (skip st + (wordIndex + lenWord)) (found st)))
      | Ok true =>
          let* prevWords :=
            (if context >? 0 then findPrevWords ts i (wordIndex + skip st) context
             else Ok []) in
          let* nextWords :=
            (if context >? 0
             then findNextWords ts i (wordIndex + skip st + lenWord) context
             else Ok []) in
          let* full := buffer_at (fileBuffers ts) i in
          let* term := slice3 full (wordIndex + skip st) (wordIndex + skip st + lenWord) in
          let match_ := prevWords ++ elems term ++ nextWords in
          let* buffer' := sliceFrom (buffer st) (wordIndex + lenWord) in
          Ok (Continue (mkScan buffer' (skip st + (wordIndex + lenWord))
                               (found st ++ [(wordIndex + skip st, match_)])))
      end
  end.

Fixpoint scanLoop (fuel : nat) (ts : TextSearcher) (i : Z) (word : list byte)
    (context : Z) (st : scanState) : outcome (list hit) :=
  match fuel with
  | O => OutOfFuel
  | S fuel' =>
      let* next := scanStep ts i word context st in
      match next with
      | Continue st' => scanLoop fuel' ts i word context st'
      | Break matches => Ok matches
      end
  end.

(** The goroutine of buffer [i].  A non-empty word takes at most one turn per
    byte of the buffer and one more to leave the loop. *)
Definition scanBuffer (ts : TextSearcher) (word : list byte) (context : Z) (i : nat)
  : outcome (list hit) :=
  let* buffer := buffer_at (fileBuffers ts) (Z.of_nat i) in
  scanLoop (S (length (elems buffer))) ts (Z.of_nat i) word context
           (mkScan buffer 0 []).

(** All goroutines, in buffer order. *)
Fixpoint scanAll (ts : TextSearcher) (word : list byte) (context : Z) (idx : list nat)
  : outcome (list (list hit)) :=
  match idx with
  | [] => Ok []
  | i :: idx' =>
      let* m := scanBuffer ts word context i in
      let* ms := scanAll ts word context idx' in
      Ok (m :: ms)
  end.

(** [Search] up to [wg.Wait()]: the searcher as the call leaves it and
    [matches], one list per buffer. *)
Definition SearchTrace (ts : TextSearcher) (word : list byte) (context : Z)
  : outcome (TextSearcher * list (list hit)) :=
  let* ts' := fillFenceposts ts context in
  let* matches := scanAll ts' word context (seq 0 (length (fileBuffers ts'))) in
  Ok (ts', matches).

(** [Search]: [flatMatches] is the concatenation of [matches] in buffer
    order. *)
Definition Search (ts : TextSearcher) (word : list byte) (context : Z)
  : outcome (TextSearcher * list (list byte)) :=
  let* r := SearchTrace ts word context in
  Ok (fst r, map snd (concat (snd r))).

(** [NewSearcher] followed by one [Search]. *)
Definition searchFile (file word : list byte) (context : Z)
  : outcome (list (list byte)) :=
  let* ts := NewSearcher file in
  let* r := Search ts word context in
  Ok (snd r).

(** ** Vocabulary of the statements *)

(** The chunk size as a list length. *)
Definition chunkLen : nat := Z.to_nat chunkSize.

(** Bytes [j*chunkLen .. j*chunkLen+chunkLen-1] of the file, fewer at its
    end. *)
Definition chunkOf (file : list byte) (j : nat) : list byte :=
  take chunkLen (drop (j * chunkLen) file).

(** What [readChunk] leaves in a buffer that holds [data]. *)
Definition chunkSlice (data : list byte) : slice :=
  mkSlice data (replicate (chunkLen - length data) Byte.x00).

(** [ceil(file_size / 4096)] as a count. *)
Definition numChunks (file : list byte) : nat :=
  Z.to_nat (ceilDiv (Z.of_nat (length file)) chunkSize).

(** The entries at positions 0, 2, 4, ... *)
Fixpoint evens {A : Type} (l : list A) : list A :=
  match l with
  | [] => []
  | [x] => [x]
  | x :: _ :: l' => x :: evens l'
  end.

(** The chunk sequence of a searcher: the bytes of its even slots. *)
Definition chunksOf (ts : TextSearcher) : list (list byte) :=
  map elems (evens (fileBuffers ts)).

(** The bytes a fencepost of half-width [size] takes from its neighbours
    [l] and [r]: the [size] last elements of [l], then the [size] first bytes
    of the array of [r], elements first and spare bytes after them. *)
Definition fenceOf (size : Z) (l r : slice) : list byte :=
  drop (Z.to_nat (len l - size)) (elems l)
  ++ take (Z.to_nat size) (elems r ++ spare r).

(** The word-character set [{a-z, A-Z, 0-9, ', -}] by byte value. *)
Definition inWordCharacterSet (b : byte) : bool :=
  let v := byte_val b in
  ((97 <=? v) && (v <=? 122)) || ((65 <=? v) && (v <=? 90))
  || ((48 <=? v) && (v <=? 57)) || (v =? 39) || (v =? 45).

(** [term full off n]: the [n] bytes of [full] from offset [off] on. *)
Definition term (full : list byte) (off : Z) (n : nat) : list byte :=
  take n (drop (Z.to_nat off) full).

(** A recorded match [h] of [word] in the buffer [full]: its offset lies in
    the buffer with the whole word, the bytes there are the word up to case,
    and without context the rendered string is those bytes. *)
Definition hitAt (full word : list byte) (context : Z) (h : hit) : Prop :=
  0 <= fst h /\
  fst h + Z.of_nat (length word) <= Z.of_nat (length full) /\
  ToLower (term full (fst h) (length word)) = ToLower word /\
  (context <= 0 -> snd h = term full (fst h) (length word)).

(** What holds of the local variables of the goroutine of buffer [full]
    whenever the loop is at its head. *)
Definition scanInv (full : slice) (word : list byte) (context : Z)
    (st : scanState) : Prop :=
  0 <= skip st <= len full /\
  elems (buffer st) = drop (Z.to_nat (skip st)) (elems full) /\
  Forall (hitAt (elems full) word context) (found st).

(** Text that is all ASCII, only bytes below 0x80: [ToLower] and [Fields]
    take their byte-by-byte paths on it and keep every offset. *)
Definition asciiOnly (s : list byte) : Prop := forallb isASCII s = true.

(** The absolute file offset of local offset [off] of chunk [j]. *)
Definition absoluteOffset (j : nat) (off : Z) : Z := chunkSize * Z.of_nat j + off.


(** The computation comes to an end, with a value, an error or a panic,
    within the recursion budget it was given. *)
Definition finishes {A : Type} (o : outcome A) : Prop :=
  match o with
  | OutOfFuel => False
  | _ => True
  end.

(** The computation never comes to an end, whatever budget it is given. *)
Definition runsForever {A : Type} (f : nat -> outcome A) : Prop :=
  forall fuel, f fuel = OutOfFuel.


(** The value of a computation that went well, [d] otherwise. *)
Definition valueOr {A : Type} (d : A) (o : outcome A) : A :=
  match o with
  | Ok a => a
  | _ => d
  end.

(** The searcher of a file as a [Search] with the given context width has
    it in hand when the goroutines start. *)
Definition searcherOf (file : list byte) (context : Z) : outcome TextSearcher :=
  let* ts := NewSearcher file in fillFenceposts ts context.

(** The same searcher as a value, for the examples. *)
Definition exampleSearcher (file : list byte) (context : Z) : TextSearcher :=
  valueOr (mkTextSearcher 20 []) (searcherOf file context).

(** The local variables of the goroutine of buffer [i] when it starts. *)
Definition scanStart (ts : TextSearcher) (i : nat) : scanState :=
  mkScan (default nilSlice (fileBuffers ts !! i)) 0 [].

(** *** Files of the examples *)

Definition spaces (n : nat) : list byte := replicate n SP.

(** One [foo], seven bytes before the end of the first chunk. *)
Definition boundaryFile : list byte :=
  spaces 4089 ++ str "foo two three four five six seven eight".

(** The second chunk starts with the word. *)
Definition edgeFile : list byte := spaces 4096 ++ str "foo foo bar".


(** The word straddles the two chunks and stands once more in the second. *)
Definition straddleFile : list byte := spaces 4094 ++ str "foo bar Foo baz".

(** A file that ends with the word. *)
Definition endFile : list byte := str "a foo".

(** A small file with the word in several casings. *)
Definition casingFile : list byte := str "a Foo b, (foo) food FOO. c".

(** Two bytes that are no UTF-8, then text that holds the word. *)
Definition brokenFile : list byte := [Byte.xff; Byte.xff] ++ str " foo .,; x".

(** The Kelvin sign U+212A in UTF-8; its lower case is the letter [k]. *)
Definition kelvinSign : list byte := [Byte.xe2; Byte.x84; Byte.xaa].

(** The same text after four letters U+023A, which take two bytes each in
    UTF-8 and whose lower case U+2C65 takes three. *)
Definition strokeFile : list byte :=
  concat (replicate 4 [Byte.xc8; Byte.xba]) ++ str " foo .,; x".

(** ** Vocabulary of the further properties *)

(** A byte that is no white space, unless it is the space itself: no tab,
    line feed, vertical tab, form feed or carriage return. *)
Definition plainByte (b : byte) : Prop := isSpace b = true -> b = SP.

(** The offsets [offs] are in ascending order, the first at [lo] or later,
    each at least [n] after the one before it. *)
Fixpoint ascendingFrom (n lo : Z) (offs : list Z) : Prop :=
  match offs with
  | [] => True
  | o :: rest => lo <= o /\ ascendingFrom n (o + n) rest
  end.

(** Where the last of the occurrences of length [n] at [offs] ends, [lo]
    when there is none. *)
Fixpoint lastEnd (n lo : Z) (offs : list Z) : Z :=
  match offs with
  | [] => lo
  | o :: rest => lastEnd n (o + n) rest
  end.

(** The [n] bytes at offset [off] of buffer number [i], whose bytes are
    [full], stand as a word of their own: the byte after them is in the
    buffer and is no word character, and so is the byte before them, unless
    they are the first bytes of the first buffer. *)
Definition wholeWordIn (full : list byte) (i : nat) (off : Z) (n : nat) : Prop :=
  (exists after, full !! Z.to_nat (off + Z.of_nat n) = Some after /\
                 isWordCharacter after = false) /\
  ((i = 0%nat /\ off = 0) \/
   (1 <= off /\ exists before, full !! Z.to_nat (off - 1) = Some before /\
                               isWordCharacter before = false)).

(** What the goroutine of buffer [i] has made sure of for a match [h] it
    records: the check accepted the offset, the [len(word)] bytes at it lie in
    the buffer, they are the word up to case when buffer and word are ASCII,
    and the rendered string is those bytes between two context strings whose
    only white space is the space. *)
Definition reported (ts : TextSearcher) (i : nat) (full word : list byte)
    (h : hit) : Prop :=
  isExactWord ts (Z.of_nat i) word (fst h) = Ok true /\
  0 <= fst h /\
  fst h + Z.of_nat (length word) <= Z.of_nat (length full) /\
  (asciiOnly full -> asciiOnly word ->
   ToLower (term full (fst h) (length word)) = ToLower word) /\
  exists prevWords nextWords,
    snd h = prevWords ++ term full (fst h) (length word) ++ nextWords /\
    Forall plainByte prevWords /\ Forall plainByte nextWords.

(** The loop invariant of the goroutine of buffer [i], with what it records. *)
Definition scanRecord (ts : TextSearcher) (i : nat) (full : slice)
    (word : list byte) (st : scanState) : Prop :=
  0 <= skip st <= len full /\
  elems (buffer st) = drop (Z.to_nat (skip st)) (elems full) /\
  Forall (reported ts i (elems full) word) (found st) /\
  ascendingFrom (Z.of_nat (length word)) 0 (map fst (found st)) /\
  lastEnd (Z.of_nat (length word)) 0 (map fst (found st)) <= skip st.

(** The cursor of the goroutine of buffer [full] has not passed offset [p]
    of the buffer. *)
Definition scanBefore (full : slice) (p : Z) (st : scanState) : Prop :=
  0 <= skip st <= p /\
  elems (buffer st) = drop (Z.to_nat (skip st)) (elems full).

(** Every byte the searcher holds, in a buffer or in the spare room of its
    array, is ASCII. *)
Definition asciiSearcher (ts : TextSearcher) : Prop :=
  Forall (fun b => asciiOnly (elems b ++ spare b)) (fileBuffers ts).

(** No slot that is the left neighbour of a fencepost has spare room in its
    array, so that no [append] of the first loop of [Search] writes in
    place. *)
Definition leftChunksFull (bufs : list slice) : Prop :=
  forall e c, Nat.odd e = false -> (e + 1 < length bufs)%nat ->
              bufs !! e = Some c -> spare c = [].

(** A text over three lines, the second with the word. *)
Definition linesFile : list byte :=
  str "one two" ++ [CR; LF] ++ str "three foo four" ++ [LF] ++ str "five six".

(** * Proofs *)

(** ** Outcomes *)

Lemma obind_Ok {A B : Type} (m : outcome A) (k : A -> outcome B) (b : B) :
  obind m k = Ok b <-> exists a, m = Ok a /\ k a = Ok b.
Proof.
  destruct m as [a| | |]; simpl; split;
    try discriminate; try (intros [a' [Ha _]]; discriminate).
  - intros H. exists a. auto.
  - intros [a' [Ha Hk]]. injection Ha as <-. exact Hk.
Qed.

(** ** Bytes *)

Lemma byte_eqb_eq (a b : byte) : Byte.eqb a b = true <-> a = b.
Proof.
  split; [apply Byte.byte_dec_bl | apply Byte.byte_dec_lb].
Qed.

(** *** Text that is all ASCII *)

Lemma asciiOnly_app (s t : list byte) :
  asciiOnly (s ++ t) <-> asciiOnly s /\ asciiOnly t.
Proof. unfold asciiOnly. rewrite forallb_app. apply andb_true_iff. Qed.

Lemma asciiOnly_take (n : nat) (s : list byte) : asciiOnly s -> asciiOnly (take n s).
Proof.
  intros H. rewrite <- (take_drop n s) in H. now apply asciiOnly_app in H.
Qed.

Lemma asciiOnly_drop (n : nat) (s : list byte) : asciiOnly s -> asciiOnly (drop n s).
Proof.
  intros H. rewrite <- (take_drop n s) in H. now apply asciiOnly_app in H.
Qed.

(** On such text [ToLower] is the loop of the ASCII path. *)
Lemma ToLower_ascii (s : list byte) : asciiOnly s -> ToLower s = map lowerByte s.
Proof. intros H. unfold ToLower. now rewrite H. Qed.

Lemma ToLower_length (s : list byte) :
  asciiOnly s -> length (ToLower s) = length s.
Proof. intros H. rewrite (ToLower_ascii s H). apply length_map. Qed.

Lemma ToLower_take (n : nat) (s : list byte) :
  asciiOnly s -> ToLower (take n s) = take n (ToLower s).
Proof.
  intros H. rewrite (ToLower_ascii s H), (ToLower_ascii _ (asciiOnly_take n s H)).
  now rewrite fmap_take.
Qed.

Lemma ToLower_drop (n : nat) (s : list byte) :
  asciiOnly s -> ToLower (drop n s) = drop n (ToLower s).
Proof.
  intros H. rewrite (ToLower_ascii s H), (ToLower_ascii _ (asciiOnly_drop n s H)).
  now rewrite fmap_drop.
Qed.

Lemma HasPrefix_spec (s prefix : list byte) :
  HasPrefix s prefix = true <-> take (length prefix) s = prefix.
Proof.
  revert s. induction prefix as [|p prefix IH]; intros s; simpl.
  - rewrite take_0. split; reflexivity.
  - destruct s as [|c s]; simpl.
    + split; discriminate.
    + rewrite andb_true_iff, byte_eqb_eq, IH. split.
      * intros [-> ->]. reflexivity.
      * intros H. injection H as -> ->. auto.
Qed.

(** Where [Index] finds the separator, the separator is. *)
Lemma Index_Some (s sep : list byte) (n : nat) :
  Index s sep = Some n ->
  (n + length sep <= length s)%nat /\ take (length sep) (drop n s) = sep.
Proof.
  revert n. induction s as [|c s IH]; intros n; simpl.
  - destruct (HasPrefix [] sep) eqn:E; [|discriminate].
    intros [= <-]. apply HasPrefix_spec in E. split; [|exact E].
    rewrite <- E at 1. rewrite length_take. simpl. lia.
  - destruct (HasPrefix (c :: s) sep) eqn:E.
    + intros [= <-]. apply HasPrefix_spec in E. split; [|exact E].
      rewrite <- E at 1. rewrite length_take. simpl. lia.
    + destruct (Index s sep) as [m|]; [|discriminate].
      simpl. intros [= <-]. destruct (IH m eq_refl) as [Hlen Hpre].
      split; [lia | exact Hpre].
Qed.

(** In ASCII text the bytes of [s] that a case-insensitive hit at [n] covers
    are the word up to case. *)
Lemma Index_ToLower (s word : list byte) (n : nat) :
  asciiOnly s -> asciiOnly word ->
  Index (ToLower s) (ToLower word) = Some n ->
  (n + length word <= length s)%nat /\
  ToLower (take (length word) (drop n s)) = ToLower word.
Proof.
  intros Hs Hw H. apply Index_Some in H.
  rewrite (ToLower_length s Hs), (ToLower_length word Hw) in H.
  destruct H as [Hlen Hpre]. split; [exact Hlen|].
  rewrite (ToLower_take _ _ (asciiOnly_drop n s Hs)), (ToLower_drop _ _ Hs).
  exact Hpre.
Qed.

(** ** Slices *)

Lemma len_nonneg (s : slice) : 0 <= len s.
Proof. unfold len. lia. Qed.

Lemma byte_at_Ok (s : slice) (i : Z) (b : byte) :
  byte_at s i = Ok b <-> 0 <= i < len s /\ elems s !! Z.to_nat i = Some b.
Proof.
  unfold byte_at.
  destruct (Z.leb_spec 0 i), (Z.ltb_spec i (len s)); simpl;
    try (split; [discriminate | intros [? _]; lia]).
  destruct (elems s !! Z.to_nat i) as [c|] eqn:E.
  - split; [intros [= ->]; auto with lia | intros [_ [= ->]]; reflexivity].
  - split; [discriminate | intros [_ ?]; discriminate].
Qed.

Lemma byte_at_in_range (s : slice) (i : Z) :
  0 <= i < len s -> exists b, byte_at s i = Ok b.
Proof.
  intros H. destruct (lookup_lt_is_Some_2 (elems s) (Z.to_nat i)) as [b Hb].
  { unfold len in H. lia. }
  exists b. apply byte_at_Ok. auto.
Qed.

Lemma byte_at_Panic (s : slice) (i : Z) : len s <= i -> byte_at s i = Panic.
Proof.
  intros H. unfold byte_at.
  destruct (Z.ltb_spec i (len s)); [lia|]. now rewrite andb_false_r.
Qed.

Lemma slice3_Ok (s r : slice) (lo hi : Z) :
  slice3 s lo hi = Ok r <->
  0 <= lo <= hi /\ hi <= cap s /\
  r = mkSlice (take (Z.to_nat (hi - lo)) (drop (Z.to_nat lo) (elems s ++ spare s)))
              (drop (Z.to_nat hi) (elems s ++ spare s)).
Proof.
  unfold slice3.
  destruct (Z.leb_spec 0 lo), (Z.leb_spec lo hi), (Z.leb_spec hi (cap s)); simpl;
    try (split; [discriminate | intros [? [? _]]; lia]).
  split; [intros [= <-]; auto with lia | intros [_ [_ ->]]; reflexivity].
Qed.

(** [s[lo:]] keeps the backing array's spare bytes. *)
Lemma sliceFrom_Ok (s r : slice) (lo : Z) :
  sliceFrom s lo = Ok r <->
  0 <= lo <= len s /\ r = mkSlice (drop (Z.to_nat lo) (elems s)) (spare s).
Proof.
  unfold sliceFrom. rewrite slice3_Ok. unfold cap, len.
  split.
  - intros [Hlo [_ ->]]. split; [exact Hlo|]. f_equal.
    + rewrite drop_app_le by lia.
      rewrite take_app_le by (rewrite length_drop; lia).
      apply take_ge. rewrite length_drop. lia.
    + replace (Z.to_nat (Z.of_nat (length (elems s)))) with (length (elems s)) by lia.
      apply drop_app_length.
  - intros [Hlo ->]. split; [exact Hlo|]. split; [lia|]. f_equal.
    + rewrite drop_app_le by lia.
      rewrite take_app_le by (rewrite length_drop; lia).
      symmetry. apply take_ge. rewrite length_drop. lia.
    + replace (Z.to_nat (Z.of_nat (length (elems s)))) with (length (elems s)) by lia.
      symmetry. apply drop_app_length.
Qed.

(** [s[:hi]] within the length shows a prefix of the elements. *)
Lemma sliceTo_elems (s r : slice) (hi : Z) :
  sliceTo s hi = Ok r -> hi <= len s -> elems r = take (Z.to_nat hi) (elems s).
Proof.
  unfold sliceTo. rewrite slice3_Ok. intros [Hlo [_ ->]] Hhi. simpl.
  rewrite drop_0, Z.sub_0_r. apply take_app_le. unfold len in Hhi. lia.
Qed.

Lemma sliceTo_Some (s : slice) (hi : Z) :
  0 <= hi <= cap s -> exists r, sliceTo s hi = Ok r.
Proof.
  intros H. eexists. unfold sliceTo. apply slice3_Ok. repeat split; lia.
Qed.

Lemma buffer_at_Ok (bufs : list slice) (i : Z) (s : slice) :
  buffer_at bufs i = Ok s <-> 0 <= i /\ bufs !! Z.to_nat i = Some s.
Proof.
  unfold buffer_at. destruct (Z.leb_spec 0 i).
  - destruct (bufs !! Z.to_nat i) as [c|] eqn:E.
    + split; [intros [= ->]; auto | intros [_ [= ->]]; reflexivity].
    + split; [discriminate | intros [_ ?]; discriminate].
  - split; [discriminate | intros [? _]; lia].
Qed.

Lemma buffer_at_nat (bufs : list slice) (i : nat) (s : slice) :
  bufs !! i = Some s -> buffer_at bufs (Z.of_nat i) = Ok s.
Proof.
  intros H. apply buffer_at_Ok. split; [lia|]. now rewrite Nat2Z.id.
Qed.

(** ** NewSearcher *)

Section Chunking.

Local Abbreviation N := chunkLen.

Lemma chunkSize_nat : Z.of_nat N = chunkSize.
Proof. reflexivity. Qed.

Lemma ceilDiv_chunk (a : Z) :
  0 <= a ->
  (a = 0 /\ ceilDiv a chunkSize = 0) \/
  (0 < a <= chunkSize /\ ceilDiv a chunkSize = 1) \/
  (chunkSize < a /\ ceilDiv a chunkSize = ceilDiv (a - chunkSize) chunkSize + 1).
Proof.
  intros Ha. unfold ceilDiv, chunkSize. Z.div_mod_to_equations. lia.
Qed.

Lemma readChunks_spec (n : nat) (rest : list byte) :
  Z.of_nat n = ceilDiv (Z.of_nat (length rest)) chunkSize ->
  exists cs, readChunks n rest = Ok cs /\ length cs = n /\
    forall j, (j < n)%nat -> cs !! j = Some (chunkSlice (chunkOf rest j)).
Proof.
  revert rest. induction n as [|n IH]; intros rest Hn.
  - exists []. split; [reflexivity|]. split; [reflexivity|]. intros j Hj; lia.
  - destruct (ceilDiv_chunk (Z.of_nat (length rest))) as [[H0 Hc]|[[H1 Hc]|[H2 Hc]]];
      [lia | lia | | ].
    + (* the last chunk *)
      destruct rest as [|c rest]; [simpl in H1; lia|].
      assert (Hn0 : n = 0%nat) by lia. subst n.
      exists [chunkSlice (chunkOf (c :: rest) 0)].
      split; [|split; [reflexivity|]].
      * cbn [readChunks readChunk obind fst snd].
        unfold chunkSlice, chunkOf. rewrite Nat.mul_0_l, drop_0. reflexivity.
      * intros j Hj. replace j with 0%nat by lia. reflexivity.
    + (* a full chunk, more to come *)
      destruct rest as [|c rest]; [simpl in H2; unfold chunkSize in H2; lia|].
      destruct (IH (drop N (c :: rest))) as [cs [Hcs [Hlen Hlook]]].
      { rewrite length_drop. rewrite <- chunkSize_nat in Hc, H2.
        replace (Z.of_nat (length (c :: rest) - N))
          with (Z.of_nat (length (c :: rest)) - Z.of_nat N) by lia.
        rewrite chunkSize_nat in *. lia. }
      exists (chunkSlice (chunkOf (c :: rest) 0) :: cs).
      split; [|split; [simpl; lia|]].
      * cbn [readChunks readChunk obind fst snd]. fold N. rewrite Hcs.
        unfold chunkSlice, chunkOf. rewrite Nat.mul_0_l, drop_0. reflexivity.
      * intros [|j] Hj; [reflexivity|].
        cbn [lookup list_lookup]. rewrite Hlook by lia.
        unfold chunkOf. rewrite drop_drop. do 3 f_equal; lia.
Qed.

Lemma chunkOf_length (file : list byte) (j : nat) :
  length (chunkOf file j) = Nat.min N (length file - j * N).
Proof. unfold chunkOf. now rewrite length_take, length_drop. Qed.

(** Chunks that start one after the other make up the rest of the file. *)
Lemma chunkOf_concat (file : list byte) (n j : nat) :
  (length file <= (j + n) * N)%nat ->
  concat (map (chunkOf file) (seq j n)) = drop (j * N) file.
Proof.
  revert j. induction n as [|n IH]; intros j Hn.
  - simpl. symmetry. apply drop_ge. lia.
  - cbn [seq map concat]. rewrite IH by lia.
    unfold chunkOf. etransitivity; [|apply (take_drop N)].
    f_equal. rewrite drop_drop. f_equal. lia.
Qed.

End Chunking.

Lemma readChunks_numChunks (file : list byte) :
  readChunks (numChunks file) file
  = Ok (map (fun j => chunkSlice (chunkOf file j)) (seq 0 (numChunks file))).
Proof.
  destruct (readChunks_spec (numChunks file) file) as [cs [Hcs [Hlen Hlook]]].
  { unfold numChunks. unfold ceilDiv, chunkSize. Z.div_mod_to_equations. lia. }
  rewrite Hcs. f_equal. apply list_eq. intros j.
  rewrite list_lookup_fmap.
  destruct (Nat.lt_ge_cases j (numChunks file)) as [Hj|Hj].
  - rewrite Hlook by exact Hj. now rewrite lookup_seq_lt.
  - rewrite lookup_ge_None_2 by lia. now rewrite lookup_seq_ge.
Qed.

Lemma withFencePosts_length (n : nat) (chunks : list slice) :
  length (withFencePosts n chunks) = n.
Proof. unfold withFencePosts. now rewrite length_map, length_seq. Qed.

Lemma withFencePosts_even (n j : nat) (chunks : list slice) (c : slice) :
  (2 * j < n)%nat -> chunks !! j = Some c ->
  withFencePosts n chunks !! (2 * j)%nat = Some c.
Proof.
  intros Hj Hc. unfold withFencePosts.
  rewrite list_lookup_fmap, lookup_seq_lt by exact Hj. cbn [fmap option_fmap option_map].
  rewrite Nat.add_0_l, Nat.even_mul. cbn [Nat.even orb].
  replace (2 * j / 2)%nat with j by (rewrite Nat.mul_comm, Nat.div_mul; lia).
  now rewrite Hc.
Qed.

Lemma withFencePosts_odd (n j : nat) (chunks : list slice) :
  (2 * j + 1 < n)%nat ->
  withFencePosts n chunks !! (2 * j + 1)%nat = Some nilSlice.
Proof.
  intros Hj. unfold withFencePosts.
  rewrite list_lookup_fmap, lookup_seq_lt by exact Hj. cbn [fmap option_fmap option_map].
  rewrite Nat.add_0_l.
  replace (Nat.even (2 * j + 1)) with false; [reflexivity|].
  symmetry. rewrite <- Nat.negb_odd, Nat.add_comm, Nat.odd_add_mul_2. reflexivity.
Qed.

Lemma numChunks_pos (file : list byte) : file <> [] -> (1 <= numChunks file)%nat.
Proof.
  intros H. destruct file as [|c file]; [congruence|].
  unfold numChunks, ceilDiv, chunkSize. cbn [length]. Z.div_mod_to_equations. lia.
Qed.

(** The searcher that [NewSearcher] builds from a file that is not empty. *)
Lemma NewSearcher_nonempty (file : list byte) :
  file <> [] ->
  NewSearcher file
  = Ok (mkTextSearcher 20
          (withFencePosts (2 * numChunks file - 1)
             (map (fun j => chunkSlice (chunkOf file j)) (seq 0 (numChunks file))))).
Proof.
  intros Hne. pose proof (numChunks_pos file Hne) as Hpos.
  unfold NewSearcher. fold (numChunks file). rewrite readChunks_numChunks.
  cbn [obind].
  assert (Hc : 1 <= ceilDiv (Z.of_nat (length file)) chunkSize).
  { unfold numChunks in Hpos. lia. }
  destruct (Z.ltb_spec (ceilDiv (Z.of_nat (length file)) chunkSize * 2 - 1) 0); [lia|].
  do 3 f_equal. unfold numChunks. lia.
Qed.

Lemma evens_lookup {A : Type} (l : list A) (j : nat) :
  evens l !! j = l !! (2 * j)%nat.
Proof.
  revert l. induction j as [|j IH]; intros [|x [|y l]]; try reflexivity.
  cbn [evens]. replace (2 * S j)%nat with (S (S (2 * j))) by lia.
  cbn [lookup list_lookup]. apply IH.
Qed.

(** The chunk sequence of the searcher built from a non-empty file: chunk [j]
    is bytes [4096*j ..] of the file. *)
Lemma NewSearcher_chunksOf (file : list byte) (ts : TextSearcher) :
  NewSearcher file = Ok ts ->
  chunksOf ts = map (chunkOf file) (seq 0 (numChunks file)).
Proof.
  intros H. destruct file as [|c file]; [discriminate|].
  rewrite NewSearcher_nonempty in H by discriminate. injection H as <-.
  pose proof (numChunks_pos (c :: file)) as Hpos.
  set (n := numChunks (c :: file)) in *.
  unfold chunksOf. cbn [fileBuffers]. apply list_eq. intros j.
  rewrite list_lookup_fmap, evens_lookup, list_lookup_fmap.
  destruct (Nat.lt_ge_cases j n) as [Hj|Hj].
  - rewrite (withFencePosts_even _ j _ (chunkSlice (chunkOf (c :: file) j))).
    + now rewrite lookup_seq_lt.
    + lia.
    + now rewrite list_lookup_fmap, lookup_seq_lt.
  - rewrite lookup_seq_ge by lia.
    rewrite lookup_ge_None_2; [reflexivity|].
    rewrite withFencePosts_length. lia.
Qed.

(** ** Filling the fenceposts *)

Section Fences.

Variable size : Z.

(** What the loop body puts into [bufs] at an odd index, from the two
    neighbours [l] and [r] and the two slice expressions on them. *)
Lemma fenceStep_odd (bufs bufs' : list slice) (i : nat) :
  Nat.odd i = true ->
  fenceStep size bufs i = Ok bufs' <->
  exists l r tail head,
    bufs !! (i - 1)%nat = Some l /\ bufs !! (i + 1)%nat = Some r /\
    sliceFrom l (len l - size) = Ok tail /\ sliceTo r size = Ok head /\
    bufs' = <[ i := fst (append tail (elems head)) ]>
              (if snd (append tail (elems head))
               then <[ (i - 1)%nat :=
                         mkSlice (elems l)
                                 (elems head ++ drop (length (elems head)) (spare l)) ]> bufs
               else bufs).
Proof.
  intros Hodd. unfold fenceStep. rewrite Hodd.
  assert (Hi : (1 <= i)%nat) by (destruct i; [discriminate | lia]).
  replace (i - 1)%nat with (Z.to_nat (Z.of_nat i - 1)) by lia.
  replace (i + 1)%nat with (Z.to_nat (Z.of_nat i + 1)) by lia.
  split.
  - intros H.
    apply obind_Ok in H. destruct H as [l [Hl H]].
    apply obind_Ok in H. destruct H as [r [Hr H]].
    apply obind_Ok in H. destruct H as [tail [Ht H]].
    apply obind_Ok in H. destruct H as [head [Hh H]].
    apply buffer_at_Ok in Hl, Hr.
    exists l, r, tail, head.
    destruct (append tail (elems head)) as [fence inPlace].
    injection H as <-. tauto.
  - intros [l [r [tail [head [Hl [Hr [Ht [Hh ->]]]]]]]].
    rewrite (proj2 (buffer_at_Ok _ _ l)) by (split; [lia | exact Hl]).
    rewrite (proj2 (buffer_at_Ok _ _ r)) by (split; [lia | exact Hr]).
    cbn [obind]. rewrite Ht, Hh. cbn [obind].
    now destruct (append tail (elems head)) as [fence inPlace].
Qed.

Lemma fenceStep_even (bufs : list slice) (i : nat) :
  Nat.odd i = false -> fenceStep size bufs i = Ok bufs.
Proof. intros H. unfold fenceStep. now rewrite H. Qed.

Lemma append_elems (s : slice) (t : list byte) :
  elems (fst (append s t)) = elems s ++ t.
Proof.
  unfold append. destruct t as [|c t]; [now rewrite app_nil_r|].
  now destruct (length (c :: t) <=? length (spare s))%nat.
Qed.

(** The loop body leaves every slot but [i] and [i-1] as it is. *)
Lemma fenceStep_other (bufs bufs' : list slice) (i k : nat) :
  fenceStep size bufs i = Ok bufs' -> k <> i -> k <> (i - 1)%nat ->
  bufs' !! k = bufs !! k.
Proof.
  intros H Hki Hk1. destruct (Nat.odd i) eqn:Hodd.
  - apply fenceStep_odd in H; [|exact Hodd].
    destruct H as [l [r [tail [head [Hl [Hr [Ht [Hh ->]]]]]]]].
    rewrite list_lookup_insert_ne by congruence.
    destruct (snd (append tail (elems head))); [|reflexivity].
    now rewrite list_lookup_insert_ne by congruence.
  - rewrite fenceStep_even in H by exact Hodd. now injection H as <-.
Qed.

(** It keeps the number of slots and the bytes of slot [i-1]. *)
Lemma fenceStep_length (bufs bufs' : list slice) (i : nat) :
  fenceStep size bufs i = Ok bufs' -> length bufs' = length bufs.
Proof.
  intros H. destruct (Nat.odd i) eqn:Hodd.
  - apply fenceStep_odd in H; [|exact Hodd].
    destruct H as [l [r [tail [head [Hl [Hr [Ht [Hh ->]]]]]]]].
    rewrite length_insert.
    destruct (snd (append tail (elems head))); [|reflexivity].
    now rewrite length_insert.
  - rewrite fenceStep_even in H by exact Hodd. now injection H as <-.
Qed.

Lemma fenceStep_elems_even (bufs bufs' : list slice) (i e : nat) :
  fenceStep size bufs i = Ok bufs' -> Nat.odd e = false ->
  elems <$> bufs' !! e = elems <$> bufs !! e.
Proof.
  intros H He. destruct (Nat.odd i) eqn:Hodd.
  - assert (Hne : e <> i) by (intros ->; congruence).
    destruct (decide (e = (i - 1)%nat)) as [->|Hne1].
    + apply fenceStep_odd in H; [|exact Hodd].
      destruct H as [l [r [tail [head [Hl [Hr [Ht [Hh ->]]]]]]]].
      rewrite list_lookup_insert_ne by congruence.
      destruct (snd (append tail (elems head))); [|reflexivity].
      rewrite list_lookup_insert_eq by (apply lookup_lt_Some in Hl; exact Hl).
      now rewrite Hl.
    + now rewrite (fenceStep_other _ _ _ _ H Hne Hne1).
  - rewrite fenceStep_even in H by exact Hodd. now injection H as <-.
Qed.

Lemma fenceStep_odd_inv (bufs bufs' : list slice) (i : nat) :
  Nat.odd i = true -> fenceStep size bufs i = Ok bufs' ->
  exists l r,
    bufs !! (i - 1)%nat = Some l /\ bufs !! (i + 1)%nat = Some r /\
    0 <= size <= len l /\ size <= cap r /\
    elems <$> bufs' !! i = Some (fenceOf size l r).
Proof.
  intros Hodd H. pose proof (fenceStep_length _ _ _ H) as Hlen.
  apply fenceStep_odd in H; [|exact Hodd].
  destruct H as [l [r [tail [head [Hl [Hr [Ht [Hh ->]]]]]]]].
  exists l, r. apply sliceFrom_Ok in Ht. destruct Ht as [Ht ->].
  apply slice3_Ok in Hh. destruct Hh as [Hh [Hcap ->]].
  repeat (split; [first [assumption | lia]|]).
  rewrite list_lookup_insert_eq.
  - cbn [fmap option_fmap option_map]. rewrite append_elems. cbn [elems].
    unfold fenceOf. now rewrite drop_0, Z.sub_0_r.
  - apply lookup_lt_Some in Hr.
    destruct (snd (append _ _)); rewrite ?length_insert; lia.
Qed.

Lemma fenceStep_odd_fits (bufs : list slice) (i : nat) (l r : slice) :
  Nat.odd i = true ->
  bufs !! (i - 1)%nat = Some l -> bufs !! (i + 1)%nat = Some r ->
  0 <= size <= len l -> size <= cap r ->
  exists bufs', fenceStep size bufs i = Ok bufs'.
Proof.
  intros Hodd Hl Hr Hsl Hsr. eexists. apply fenceStep_odd; [exact Hodd|].
  exists l, r. do 2 eexists.
  split; [exact Hl|]. split; [exact Hr|].
  split; [apply sliceFrom_Ok; split; [lia | reflexivity]|].
  split; [apply slice3_Ok; repeat split; first [lia | reflexivity]|].
  reflexivity.
Qed.

(** The neighbours of a later odd slot are out of the loop body's reach. *)
Lemma fenceStep_later (bufs bufs' : list slice) (a o : nat) :
  fenceStep size bufs a = Ok bufs' -> Nat.odd o = true -> (a < o)%nat ->
  bufs' !! (o - 1)%nat = bufs !! (o - 1)%nat /\
  bufs' !! (o + 1)%nat = bufs !! (o + 1)%nat.
Proof.
  intros H Ho Hlt. destruct (Nat.odd a) eqn:Ha.
  - assert (o <> S a).
    { intros ->. rewrite Nat.odd_succ, <- Nat.negb_odd, Ha in Ho. discriminate. }
    split; apply (fenceStep_other _ _ _ _ H); lia.
  - rewrite fenceStep_even in H by exact Ha. now injection H as <-.
Qed.

(** *** The whole loop *)

Lemma fenceLoop_length (idx : list nat) (bufs bufs' : list slice) :
  fenceLoop size idx bufs = Ok bufs' -> length bufs' = length bufs.
Proof.
  revert bufs. induction idx as [|i idx IH]; intros bufs H; simpl in H.
  - now injection H as <-.
  - inv_bind H bufs1 Hstep. rewrite (IH _ H). eapply fenceStep_length; eauto.
Qed.

(** The loop never changes the bytes of an even slot. *)
Lemma fenceLoop_elems_even (idx : list nat) (bufs bufs' : list slice) (e : nat) :
  fenceLoop size idx bufs = Ok bufs' -> Nat.odd e = false ->
  elems <$> bufs' !! e = elems <$> bufs !! e.
Proof.
  revert bufs. induction idx as [|i idx IH]; intros bufs H He; simpl in H.
  - now injection H as <-.
  - inv_bind H bufs1 Hstep. rewrite (IH _ H He). eapply fenceStep_elems_even; eauto.
Qed.

(** An odd slot changes only when the loop stops at it. *)
Lemma fenceLoop_untouched (idx : list nat) (bufs bufs' : list slice) (o : nat) :
  fenceLoop size idx bufs = Ok bufs' -> Nat.odd o = true -> ~ In o idx ->
  bufs' !! o = bufs !! o.
Proof.
  revert bufs. induction idx as [|i idx IH]; intros bufs H Ho Hin; simpl in H.
  - now injection H as <-.
  - inv_bind H bufs1 Ha. rewrite (IH _ H Ho) by (intros ?; apply Hin; now right).
    assert (o <> i) by (intros ->; apply Hin; now left).
    destruct (Nat.odd i) eqn:Hi.
    + eapply fenceStep_other; eauto.
      intros ->. destruct i as [|i]; [discriminate|].
      replace (S i - 1)%nat with i in Ho by lia.
      rewrite Nat.odd_succ, <- Nat.negb_odd, Ho in Hi. discriminate.
    + rewrite fenceStep_even in Ha by exact Hi. now injection Ha as <-.
Qed.

(** After the loop over [a, a+1, ..., a+m-1], every odd slot it went
    through holds the fence of the two neighbours the slot had when the
    loop began. *)
Lemma fenceLoop_seq (m a : nat) (bufs bufs' : list slice) (o : nat) :
  fenceLoop size (seq a m) bufs = Ok bufs' ->
  Nat.odd o = true -> (a <= o < a + m)%nat ->
  exists l r,
    bufs !! (o - 1)%nat = Some l /\ bufs !! (o + 1)%nat = Some r /\
    0 <= size <= len l /\ size <= cap r /\
    elems <$> bufs' !! o = Some (fenceOf size l r).
Proof.
  revert a bufs. induction m as [|m IH]; intros a bufs H Ho Hrange; [lia|].
  cbn [seq fenceLoop] in H. inv_bind H a0 Ha.
  destruct (decide (o = a)) as [->|Hne].
  - destruct (fenceStep_odd_inv _ _ _ Ho Ha) as [l [r [Hl [Hr [Hsl [Hsr Hf]]]]]].
    exists l, r. repeat (split; [assumption|]).
    rewrite (fenceLoop_untouched _ _ _ _ H Ho); [exact Hf|].
    rewrite in_seq. lia.
  - destruct (IH (S a) a0 H Ho) as [l [r [Hl [Hr [Hsl [Hsr Hf]]]]]]; [lia|].
    exists l, r.
    destruct (fenceStep_later _ _ _ _ Ha Ho) as [E1 E2]; [lia|].
    rewrite E1 in Hl. rewrite E2 in Hr.
    repeat (split; [assumption|]). exact Hf.
Qed.

(** The loop goes through when every fence it has to build fits. *)
Lemma fenceLoop_fits (m a : nat) (bufs : list slice) :
  (forall o, Nat.odd o = true -> (a <= o < a + m)%nat ->
     exists l r, bufs !! (o - 1)%nat = Some l /\ bufs !! (o + 1)%nat = Some r /\
                 0 <= size <= len l /\ size <= cap r) ->
  exists bufs', fenceLoop size (seq a m) bufs = Ok bufs'.
Proof.
  revert a bufs. induction m as [|m IH]; intros a bufs Hfit.
  - exists bufs. reflexivity.
  - cbn [seq fenceLoop].
    assert (Hstep : exists bufs1, fenceStep size bufs a = Ok bufs1).
    { destruct (Nat.odd a) eqn:Hodd.
      - destruct (Hfit a Hodd) as [l [r [Hl [Hr [Hsl Hsr]]]]]; [lia|].
        eapply fenceStep_odd_fits; eauto.
      - exists bufs. now apply fenceStep_even. }
    destruct Hstep as [bufs1 Hstep]. rewrite Hstep. cbn [obind].
    apply IH. intros o Ho Hrange.
    destruct (Hfit o Ho) as [l [r [Hl [Hr Hs]]]]; [lia|].
    exists l, r.
    destruct (fenceStep_later _ _ _ _ Hstep Ho) as [E1 E2]; [lia|].
    rewrite E1, E2. auto.
Qed.

End Fences.

(** ** isExactWord *)

Lemma isWordCharacter_set (b : byte) : isWordCharacter b = inWordCharacterSet b.
Proof. destruct b; reflexivity. Qed.

Section ExactWord.

Variable ts : TextSearcher.
Variable i : nat.
Variable buf : slice.
Hypothesis Hbuf : fileBuffers ts !! i = Some buf.

Variable word : list byte.

Lemma bufferNum_in_range : (i < length (fileBuffers ts))%nat.
Proof. eapply lookup_lt_Some; eauto. Qed.

(** Away from the edges of its buffer a candidate is judged by the two
    bytes around it. *)
Lemma isExactWord_inside (index : Z) (before after : byte) :
  1 <= index <= chunkSize - 1 ->
  elems buf !! Z.to_nat (index - 1) = Some before ->
  elems buf !! Z.to_nat (index + Z.of_nat (length word)) = Some after ->
  isExactWord ts (Z.of_nat i) word index
  = Ok (negb (isWordCharacter before || isWordCharacter after)).
Proof.
  intros Hidx Hb Ha. pose proof bufferNum_in_range as Hi.
  unfold isExactWord.
  destruct (Z.eqb_spec index 0); [lia|]. rewrite andb_false_r.
  destruct (Z.eqb_spec (Z.of_nat i) (Z.of_nat (length (fileBuffers ts)))); [lia|].
  cbn [andb].
  destruct (Z.ltb_spec (index - 1) 0); [lia|].
  destruct (Z.gtb_spec (index + 1) chunkSize); [lia|].
  cbn [orb]. rewrite (buffer_at_nat _ _ _ Hbuf). cbn [obind].
  pose proof (lookup_lt_Some _ _ _ Hb) as Hb'.
  pose proof (lookup_lt_Some _ _ _ Ha) as Ha'.
  rewrite (proj2 (byte_at_Ok buf (index - 1) before))
    by (unfold len; split; [lia | exact Hb]).
  rewrite (proj2 (byte_at_Ok buf (index + Z.of_nat (length word)) after))
    by (unfold len; split; [lia | exact Ha]).
  cbn [obind].
  now destruct (isWordCharacter before || isWordCharacter after).
Qed.

(** A candidate that ends with its buffer makes the check read one byte
    past the end. *)
Lemma isExactWord_at_end (index : Z) :
  1 <= index <= chunkSize - 1 ->
  index + Z.of_nat (length word) = len buf ->
  isExactWord ts (Z.of_nat i) word index = Panic.
Proof.
  intros Hidx Hend. pose proof bufferNum_in_range as Hi.
  unfold isExactWord.
  destruct (Z.eqb_spec index 0); [lia|]. rewrite andb_false_r.
  destruct (Z.eqb_spec (Z.of_nat i) (Z.of_nat (length (fileBuffers ts)))); [lia|].
  cbn [andb].
  destruct (Z.ltb_spec (index - 1) 0); [lia|].
  destruct (Z.gtb_spec (index + 1) chunkSize); [lia|].
  cbn [orb]. rewrite (buffer_at_nat _ _ _ Hbuf). cbn [obind].
  rewrite (byte_at_Panic buf (index + Z.of_nat (length word))) by lia.
  destruct (byte_at_in_range buf (index - 1)) as [b ->]; [lia | reflexivity].
Qed.

(** Past the first buffer, a candidate at local offset 0, or beyond offset
    4095, is answered with the error. *)
Lemma isExactWord_edge (index : Z) :
  (i <> 0%nat \/ index <> 0) -> (index <= 0 \/ chunkSize <= index) ->
  isExactWord ts (Z.of_nat i) word index = Fail ErrOutOfBounds.
Proof.
  intros Hnot Hedge. pose proof bufferNum_in_range as Hi.
  unfold isExactWord.
  assert (E : (Z.of_nat i =? 0) && (index =? 0) = false).
  { destruct (Z.eqb_spec (Z.of_nat i) 0), (Z.eqb_spec index 0); try reflexivity. lia. }
  rewrite E.
  destruct (Z.eqb_spec (Z.of_nat i) (Z.of_nat (length (fileBuffers ts)))); [lia|].
  cbn [andb].
  destruct (Z.ltb_spec (index - 1) 0); [reflexivity|].
  destruct (Z.gtb_spec (index + 1) chunkSize); [reflexivity | lia].
Qed.

End ExactWord.

(** At the very start of the file only the byte after the word is read. *)
Lemma isExactWord_start (ts : TextSearcher) (buf : slice) (word : list byte)
    (after : byte) :
  fileBuffers ts !! 0%nat = Some buf ->
  elems buf !! length word = Some after ->
  isExactWord ts 0 word 0 = Ok (negb (isWordCharacter after)).
Proof.
  intros Hbuf Ha. unfold isExactWord. cbn [Z.eqb andb].
  change 0 with (Z.of_nat 0) at 1. rewrite (buffer_at_nat _ 0 _ Hbuf). cbn [obind].
  pose proof (lookup_lt_Some _ _ _ Ha) as Ha'.
  rewrite (proj2 (byte_at_Ok buf (Z.of_nat (length word)) after))
    by (unfold len; split; [lia | now rewrite Nat2Z.id]).
  cbn [obind]. now destruct (isWordCharacter after).
Qed.

(** Indexing panics or succeeds; an error can only come from what follows. *)
Lemma buffer_at_bind_Fail {B : Type} (bufs : list slice) (n : Z)
    (f : slice -> outcome B) (e : error) :
  obind (buffer_at bufs n) f = Fail e -> exists b, f b = Fail e.
Proof.
  unfold buffer_at. destruct (0 <=? n); [|discriminate].
  destruct (_ !! _) as [b|]; [|discriminate]. intros H. now exists b.
Qed.

Lemma byte_at_bind_Fail {B : Type} (s : slice) (n : Z)
    (f : byte -> outcome B) (e : error) :
  obind (byte_at s n) f = Fail e -> exists b, f b = Fail e.
Proof.
  unfold byte_at. destruct (_ && _); [|discriminate].
  destruct (_ !! _) as [b|]; [|discriminate]. intros H. now exists b.
Qed.

(** The only error of the check is the one of its bounds test. *)
Lemma isExactWord_Fail (ts : TextSearcher) (bufferNum : Z) (word : list byte)
    (index : Z) (e : error) :
  isExactWord ts bufferNum word index = Fail e ->
  e = ErrOutOfBounds /\ (index <= 0 \/ chunkSize <= index) /\
  (bufferNum <> 0 \/ index <> 0).
Proof.
  unfold isExactWord. intros H.
  assert (Hone : forall (s : slice) (k : Z),
             obind (byte_at s k)
                   (fun b => if isWordCharacter b then Ok false else Ok true)
             <> Fail e).
  { intros s k Hk. apply byte_at_bind_Fail in Hk. destruct Hk as [c Hc].
    destruct (isWordCharacter c); discriminate. }
  destruct ((bufferNum =? 0) && (index =? 0)) eqn:Hstart.
  { apply buffer_at_bind_Fail in H. destruct H as [b H]. now apply Hone in H. }
  destruct ((bufferNum =? _) && (_ =? chunkSize)).
  { apply buffer_at_bind_Fail in H. destruct H as [b H]. now apply Hone in H. }
  destruct ((index - 1 <? 0) || (index + 1 >? chunkSize)) eqn:Hedge.
  - injection H as <-. split; [reflexivity|]. split.
    + destruct (Z.ltb_spec (index - 1) 0); [lia|].
      destruct (Z.gtb_spec (index + 1) chunkSize); [lia | discriminate].
    + destruct (Z.eqb_spec bufferNum 0), (Z.eqb_spec index 0);
        try discriminate; auto.
  - apply buffer_at_bind_Fail in H. destruct H as [b H].
    apply byte_at_bind_Fail in H. destruct H as [c H].
    apply byte_at_bind_Fail in H. destruct H as [d H].
    destruct (isWordCharacter c || isWordCharacter d); discriminate.
Qed.

Lemma isExactWord_fuel (ts : TextSearcher) (bufferNum : Z) (word : list byte)
    (index : Z) :
  isExactWord ts bufferNum word index <> OutOfFuel.
Proof.
  unfold isExactWord.
  assert (Hb : forall (b : slice) (k : Z) (f : byte -> outcome bool),
             (forall c, f c <> OutOfFuel) -> obind (byte_at b k) f <> OutOfFuel).
  { intros b k f Hf. unfold byte_at.
    destruct (_ && _); [|discriminate].
    destruct (_ !! _); [apply Hf | discriminate]. }
  assert (Hs : forall (f : slice -> outcome bool),
             (forall b, f b <> OutOfFuel) ->
             obind (buffer_at (fileBuffers ts) bufferNum) f <> OutOfFuel).
  { intros f Hf. unfold buffer_at.
    destruct (0 <=? bufferNum); [|discriminate].
    destruct (_ !! _); [apply Hf | discriminate]. }
  destruct (_ && _).
  { apply Hs. intros b. apply Hb. intros c. destruct (isWordCharacter c); discriminate. }
  destruct (_ && _).
  { apply Hs. intros b. apply Hb. intros c. destruct (isWordCharacter c); discriminate. }
  destruct (_ || _); [discriminate|].
  apply Hs. intros b. apply Hb. intros c. apply Hb. intros d.
  destruct (_ || _); discriminate.
Qed.

(** ** The scan of one buffer *)

Lemma take_drop_app_le {A : Type} (n k : nat) (a b : list A) :
  (k + n <= length a)%nat -> take n (drop k (a ++ b)) = take n (drop k a).
Proof.
  intros H. rewrite drop_app_le by lia.
  apply take_app_le. rewrite length_drop. lia.
Qed.

(** One turn that goes on has found the word at some [wordIndex] and moved
    the cursor past it, by [wordIndex + len(word)] bytes. *)
Lemma scanStep_Continue (ts : TextSearcher) (i : Z) (word : list byte)
    (context : Z) (st st' : scanState) :
  scanStep ts i word context st = Ok (Continue st') ->
  exists wi : nat,
    Index (ToLower (elems (buffer st))) (ToLower word) = Some wi /\
    elems (buffer st') = drop (wi + length word) (elems (buffer st)) /\
    skip st' = skip st + (Z.of_nat wi + Z.of_nat (length word)).
Proof.
  unfold scanStep. destruct (Index _ _) as [wi|] eqn:HI; [|discriminate].
  intros H. exists wi. split; [reflexivity|].
  assert (Hcur : forall buffer' hits,
    sliceFrom (buffer st) (Z.of_nat wi + Z.of_nat (length word)) = Ok buffer' ->
    st' = mkScan buffer' (skip st + (Z.of_nat wi + Z.of_nat (length word))) hits ->
    elems (buffer st') = drop (wi + length word) (elems (buffer st)) /\
    skip st' = skip st + (Z.of_nat wi + Z.of_nat (length word))).
  { intros buffer' hits Hs ->. apply sliceFrom_Ok in Hs. destruct Hs as [_ ->].
    cbn [buffer skip elems]. split; [|reflexivity]. f_equal. lia. }
  destruct (isExactWord _ _ _ _) as [[|]| | |]; try discriminate.
  - inv_bind H prevWords Hprev. inv_bind H nextWords Hnxt.
    inv_bind H full Hfull. inv_bind H term' Hterm. inv_bind H buffer' Hbuffer'.
    injection H as <-. eapply Hcur; eauto.
  - inv_bind H buffer' Hbuffer'. injection H as <-. eapply Hcur; eauto.
Qed.

(** The cursor of a turn that goes on stays inside the buffer:
    [buffer[wordIndex+len(word):]] panics beyond its length. *)
Lemma scanStep_Continue_fits (ts : TextSearcher) (i : Z) (word : list byte)
    (context : Z) (st st' : scanState) :
  scanStep ts i word context st = Ok (Continue st') ->
  exists wi : nat,
    Index (ToLower (elems (buffer st))) (ToLower word) = Some wi /\
    (wi + length word <= length (elems (buffer st)))%nat /\
    elems (buffer st') = drop (wi + length word) (elems (buffer st)).
Proof.
  unfold scanStep. destruct (Index _ _) as [wi|] eqn:HI; [|discriminate].
  intros H. exists wi. split; [reflexivity|].
  assert (Hcur : forall buffer' hits,
    sliceFrom (buffer st) (Z.of_nat wi + Z.of_nat (length word)) = Ok buffer' ->
    st' = mkScan buffer' (skip st + (Z.of_nat wi + Z.of_nat (length word))) hits ->
    (wi + length word <= length (elems (buffer st)))%nat /\
    elems (buffer st') = drop (wi + length word) (elems (buffer st))).
  { intros buffer' hits Hs ->. apply sliceFrom_Ok in Hs. destruct Hs as [Hlo ->].
    cbn [buffer elems]. unfold len in Hlo. split; [lia|]. f_equal. lia. }
  destruct (isExactWord _ _ _ _) as [[|]| | |]; try discriminate.
  - inv_bind H prevWords Hprev. inv_bind H nextWords Hnxt.
    inv_bind H full Hfull. inv_bind H term' Hterm. inv_bind H buffer' Hbuffer'.
    injection H as <-. eapply Hcur; eauto.
  - inv_bind H buffer' Hbuffer'. injection H as <-. eapply Hcur; eauto.
Qed.

Section Scan.

Variable ts : TextSearcher.
Variable i : nat.
Variable full : slice.
Hypothesis Hfull : fileBuffers ts !! i = Some full.

Variable word : list byte.
Variable context : Z.

(** The offsets of the lower-case copy are offsets of the buffer when
    lowering keeps every byte in place, as it does on ASCII text. *)
Hypothesis Hascii : asciiOnly (elems full).
Hypothesis Hword : asciiOnly word.

Lemma scanStep_inv (st : scanState) (next : scanNext) :
  scanInv full word context st ->
  scanStep ts (Z.of_nat i) word context st = Ok next ->
  match next with
  | Continue st' => scanInv full word context st'
  | Break matches => Forall (hitAt (elems full) word context) matches
  end.
Proof.
  intros [Hskip [Hbuf Hfound]] H. unfold scanStep in H.
  destruct (Index _ _) as [wi|] eqn:HI; [|injection H as <-; exact Hfound].
  apply Index_ToLower in HI;
    [|rewrite Hbuf; apply asciiOnly_drop; exact Hascii | exact Hword].
  destruct HI as [Hlen Hlow].
  rewrite Hbuf, length_drop in Hlen. rewrite Hbuf, drop_drop in Hlow.
  unfold len in Hskip.
  assert (Hnext : forall buffer' hits,
    sliceFrom (buffer st) (Z.of_nat wi + Z.of_nat (length word)) = Ok buffer' ->
    Forall (hitAt (elems full) word context) hits ->
    scanInv full word context
      (mkScan buffer' (skip st + (Z.of_nat wi + Z.of_nat (length word))) hits)).
  { intros buffer' hits Hs Hhits. apply sliceFrom_Ok in Hs. destruct Hs as [_ ->].
    unfold scanInv, len. cbn [buffer skip found elems].
    split; [lia|]. split; [|exact Hhits].
    rewrite Hbuf, drop_drop. f_equal. lia. }
  destruct (isExactWord _ _ _ _) as [[|]| | |]; try discriminate.
  - (* an exact match *)
    apply obind_Ok in H. destruct H as [prevWords [Hprev H]].
    apply obind_Ok in H. destruct H as [nextWords [Hnxt H]].
    apply obind_Ok in H. destruct H as [full' [Hfull' H]].
    apply obind_Ok in H. destruct H as [term' [Hterm H]].
    apply obind_Ok in H. destruct H as [buffer' [Hbuffer' H]].
    injection H as <-.
    rewrite (buffer_at_nat _ _ _ Hfull) in Hfull'. injection Hfull' as <-.
    apply slice3_Ok in Hterm. destruct Hterm as [_ [_ ->]]. cbn [elems].
    apply Hnext; [exact Hbuffer'|].
    apply Forall_app. split; [exact Hfound|]. constructor; [|constructor].
    unfold hitAt, term. cbn [fst snd].
    split; [lia|]. split; [lia|]. split.
    + rewrite <- Hlow. do 3 f_equal. lia.
    + intros Hctx. destruct (Z.gtb_spec context 0); [lia|].
      injection Hprev as <-. injection Hnxt as <-.
      rewrite app_nil_r. cbn [app].
      replace (Z.to_nat (Z.of_nat wi + skip st + Z.of_nat (length word)
                         - (Z.of_nat wi + skip st))) with (length word) by lia.
      apply take_drop_app_le. lia.
  - (* a substring of a longer word *)
    apply obind_Ok in H. destruct H as [buffer' [Hbuffer' H]].
    injection H as <-. apply Hnext; assumption.
  - (* the bounds error *)
    injection H as <-. exact Hfound.
Qed.

Lemma scanLoop_inv (fuel : nat) (st : scanState) (matches : list hit) :
  scanInv full word context st ->
  scanLoop fuel ts (Z.of_nat i) word context st = Ok matches ->
  Forall (hitAt (elems full) word context) matches.
Proof.
  revert st. induction fuel as [|fuel IH]; intros st Hinv H; [discriminate|].
  cbn [scanLoop] in H. apply obind_Ok in H. destruct H as [next [Hstep H]].
  pose proof (scanStep_inv _ _ Hinv Hstep) as Hnext.
  destruct next as [st'|ms].
  - eapply IH; eauto.
  - now injection H as <-.
Qed.

(** Every match that the goroutine of buffer [i] records is the word, up
    to case, at an offset where the buffer holds it whole. *)
Lemma scanBuffer_hits (matches : list hit) :
  scanBuffer ts word context i = Ok matches ->
  Forall (hitAt (elems full) word context) matches.
Proof.
  unfold scanBuffer. rewrite (buffer_at_nat _ _ _ Hfull). cbn [obind].
  apply scanLoop_inv. unfold scanInv. cbn [skip buffer found].
  split; [pose proof (len_nonneg full); lia|]. split; [now rewrite drop_0|].
  constructor.
Qed.

(** An empty buffer past the first one yields nothing: the word is not
    there, or, when the word is empty, the check answers with the error. *)
Lemma scanBuffer_empty :
  elems full = [] -> i <> 0%nat -> scanBuffer ts word context i = Ok [].
Proof.
  intros Hempty Hi. unfold scanBuffer.
  rewrite (buffer_at_nat _ _ _ Hfull). cbn [obind]. rewrite Hempty.
  cbn [length scanLoop]. unfold scanStep. cbn [buffer found skip].
  rewrite Hempty. change (ToLower []) with (@nil byte).
  destruct (Index [] (ToLower word)) as [wi|] eqn:HI; [|reflexivity].
  apply Index_Some in HI. cbn [length] in HI.
  assert (wi = 0%nat) by lia. subst wi.
  rewrite (isExactWord_edge ts i full Hfull word) by (auto; lia).
  reflexivity.
Qed.

End Scan.

(** ** Parity of buffer indices *)

Lemma odd_neighbours (o : nat) :
  Nat.odd o = true ->
  Nat.odd (o - 1) = false /\ Nat.odd (o + 1) = false /\ (1 <= o)%nat.
Proof.
  intros H. apply Nat.odd_spec in H. destruct H as [m ->].
  replace (2 * m + 1 - 1)%nat with (2 * m)%nat by lia.
  replace (2 * m + 1 + 1)%nat with (2 * (m + 1))%nat by lia.
  rewrite <- !Nat.negb_even, !Nat.even_mul. cbn [Nat.even orb negb].
  repeat split. lia.
Qed.

Lemma odd_below_odd (o n : nat) :
  Nat.odd o = true -> Nat.odd n = true -> (o < n)%nat -> (o + 1 < n)%nat.
Proof.
  intros Ho Hn Hlt. apply Nat.odd_spec in Ho, Hn.
  destruct Ho as [a ->], Hn as [b ->]. lia.
Qed.

Lemma even_double (e : nat) : Nat.odd e = false -> exists j, e = (2 * j)%nat.
Proof.
  intros H. rewrite <- Nat.negb_even in H. apply negb_false_iff in H.
  apply Nat.even_spec in H. exact H.
Qed.

Lemma odd_double (o : nat) : Nat.odd o = true -> exists j, o = (2 * j + 1)%nat.
Proof. intros H. apply Nat.odd_spec in H. exact H. Qed.

Lemma odd_double_1 (j : nat) : Nat.odd (2 * j + 1) = true.
Proof. rewrite Nat.add_comm, Nat.odd_add_mul_2. reflexivity. Qed.

Lemma odd_double_0 (j : nat) : Nat.odd (2 * j) = false.
Proof. rewrite <- Nat.negb_even, Nat.even_mul. reflexivity. Qed.

(** ** What filling the fenceposts does to a searcher *)

(** When the first loop of [Search] goes through, it has kept the number of
    slots and the bytes of every even slot, and has put into every odd slot
    the fence of its two neighbours. *)
Lemma fillFenceposts_Ok (ts ts' : TextSearcher) (context : Z) :
  fillFenceposts ts context = Ok ts' ->
  maxWordSizeInBytes ts' = maxWordSizeInBytes ts /\
  length (fileBuffers ts') = length (fileBuffers ts) /\
  (forall e, Nat.odd e = false ->
     elems <$> fileBuffers ts' !! e = elems <$> fileBuffers ts !! e) /\
  (forall o, Nat.odd o = true -> (o < length (fileBuffers ts))%nat ->
     exists l r,
       fileBuffers ts !! (o - 1)%nat = Some l /\
       fileBuffers ts !! (o + 1)%nat = Some r /\
       elems <$> fileBuffers ts' !! o
       = Some (fenceOf (wrap64 (context * maxWordSizeInBytes ts)) l r)).
Proof.
  unfold fillFenceposts. intros H. inv_bind H bufs Hloop. injection H as <-.
  cbn [maxWordSizeInBytes fileBuffers].
  split; [reflexivity|].
  split; [eapply fenceLoop_length; eauto|].
  split; [intros e He; eapply fenceLoop_elems_even; eauto|].
  intros o Ho Hlt.
  destruct (fenceLoop_seq _ _ _ _ _ o Hloop Ho) as [l [r [Hl [Hr [_ [_ Hf]]]]]];
    [lia|].
  exists l, r. auto.
Qed.

(** The loop goes through on an odd number of slots when the width of a
    fence half, as computed, lies between 0 and the length of every even
    slot. *)
Lemma fillFenceposts_fits (ts : TextSearcher) (context : Z) :
  Nat.odd (length (fileBuffers ts)) = true ->
  (forall e c, Nat.odd e = false -> fileBuffers ts !! e = Some c ->
     0 <= wrap64 (context * maxWordSizeInBytes ts) <= len c) ->
  exists ts', fillFenceposts ts context = Ok ts'.
Proof.
  intros Hodd Hfit. unfold fillFenceposts.
  destruct (fenceLoop_fits (wrap64 (context * maxWordSizeInBytes ts))
              (length (fileBuffers ts)) 0 (fileBuffers ts)) as [bufs Hbufs].
  - intros o Ho Hrange.
    destruct (odd_neighbours o Ho) as [Hp [Hs Hpos]].
    pose proof (odd_below_odd o _ Ho Hodd ltac:(lia)) as Hlt.
    destruct (lookup_lt_is_Some_2 (fileBuffers ts) (o - 1)) as [l Hl]; [lia|].
    destruct (lookup_lt_is_Some_2 (fileBuffers ts) (o + 1)) as [r Hr]; [lia|].
    exists l, r. split; [exact Hl|]. split; [exact Hr|].
    pose proof (Hfit _ _ Hp Hl). pose proof (Hfit _ _ Hs Hr).
    unfold cap. lia.
  - rewrite Hbufs. eexists. reflexivity.
Qed.

(** ** The buffers of a fresh searcher *)

Lemma numChunks_bounds (file : list byte) :
  (Z.of_nat (numChunks file) - 1) * chunkSize < Z.of_nat (length file)
    \/ file = [].
Proof.
  destruct file as [|c file]; [now right|left].
  unfold numChunks, ceilDiv, chunkSize. cbn [length].
  Z.div_mod_to_equations. lia.
Qed.

Lemma numChunks_upper (file : list byte) :
  Z.of_nat (length file) <= Z.of_nat (numChunks file) * chunkSize.
Proof.
  unfold numChunks, ceilDiv, chunkSize. Z.div_mod_to_equations. lia.
Qed.

(** Every chunk holds between 1 and 4096 bytes, and 4096 unless it is the
    last one. *)
Lemma chunkOf_bounds (file : list byte) (j : nat) :
  (j < numChunks file)%nat ->
  1 <= Z.of_nat (length (chunkOf file j)) <= chunkSize /\
  ((j + 1 < numChunks file)%nat -> Z.of_nat (length (chunkOf file j)) = chunkSize).
Proof.
  intros Hj. rewrite chunkOf_length.
  destruct (numChunks_bounds file) as [Hlow| ->];
    [|change (numChunks []) with 0%nat in Hj; lia].
  pose proof (numChunks_upper file) as Hup.
  change chunkLen with 4096%nat. unfold chunkSize in *. lia.
Qed.

Lemma NewSearcher_buffers (file : list byte) (ts : TextSearcher) :
  NewSearcher file = Ok ts ->
  maxWordSizeInBytes ts = 20 /\
  length (fileBuffers ts) = (2 * numChunks file - 1)%nat /\
  (1 <= numChunks file)%nat /\
  (forall j, (j < numChunks file)%nat ->
     fileBuffers ts !! (2 * j)%nat = Some (chunkSlice (chunkOf file j))) /\
  (forall j, (j + 1 < numChunks file)%nat ->
     fileBuffers ts !! (2 * j + 1)%nat = Some nilSlice).
Proof.
  intros H. destruct file as [|c file]; [discriminate|].
  rewrite NewSearcher_nonempty in H by discriminate. injection H as <-.
  pose proof (numChunks_pos (c :: file) ltac:(discriminate)) as Hpos.
  cbn [maxWordSizeInBytes fileBuffers].
  split; [reflexivity|]. split; [apply withFencePosts_length|].
  split; [exact Hpos|]. split.
  - intros j Hj. apply withFencePosts_even; [lia|].
    now rewrite list_lookup_fmap, lookup_seq_lt.
  - intros j Hj. apply withFencePosts_odd. lia.
Qed.

(** ** All goroutines *)

Lemma scanAll_Ok (ts : TextSearcher) (word : list byte) (context : Z)
    (idx : list nat) (mss : list (list hit)) :
  scanAll ts word context idx = Ok mss ->
  Forall2 (fun i ms => scanBuffer ts word context i = Ok ms) idx mss.
Proof.
  revert mss. induction idx as [|i idx IH]; intros mss H; cbn [scanAll] in H.
  - injection H as <-. constructor.
  - inv_bind H m Hm. inv_bind H ms Hms. injection H as <-.
    constructor; [exact Hm | now apply IH].
Qed.

(** [matches[i]] is what the goroutine of buffer [i] found in the buffers as
    the first loop left them. *)
Lemma SearchTrace_Ok (ts ts' : TextSearcher) (word : list byte) (context : Z)
    (mss : list (list hit)) :
  SearchTrace ts word context = Ok (ts', mss) ->
  fillFenceposts ts context = Ok ts' /\
  length mss = length (fileBuffers ts') /\
  forall i ms, mss !! i = Some ms -> scanBuffer ts' word context i = Ok ms.
Proof.
  unfold SearchTrace. intros H. inv_bind H ts1 Hfill. inv_bind H ms1 Hscan.
  injection H as <- <-. apply scanAll_Ok in Hscan.
  split; [reflexivity|]. split.
  - rewrite <- (Forall2_length _ _ _ Hscan). apply length_seq.
  - intros i ms Hi.
    destruct (Forall2_lookup_r _ _ _ _ _ Hscan Hi) as [k [Hk Hms]].
    apply lookup_seq in Hk. destruct Hk as [-> _]. exact Hms.
Qed.

Lemma Search_SearchTrace (ts ts' : TextSearcher) (word : list byte) (context : Z)
    (res : list (list byte)) :
  Search ts word context = Ok (ts', res) ->
  exists mss, SearchTrace ts word context = Ok (ts', mss) /\
              res = map snd (concat mss).
Proof.
  unfold Search. intros H. inv_bind H r Hr. destruct r as [ts1 mss].
  injection H as <- <-. now exists mss.
Qed.

(** ** Search without context on a fresh searcher *)

Lemma term_chunkOf (file : list byte) (j : nat) (off : Z) (n : nat) :
  0 <= off -> off + Z.of_nat n <= Z.of_nat (length (chunkOf file j)) ->
  term (chunkOf file j) off n = term file (absoluteOffset j off) n.
Proof.
  intros Hoff Hlen. unfold term, absoluteOffset, chunkOf in *.
  rewrite length_take, length_drop in Hlen.
  rewrite <- chunkSize_nat.
  replace (Z.to_nat (Z.of_nat chunkLen * Z.of_nat j + off))
    with (j * chunkLen + Z.to_nat off)%nat by lia.
  rewrite <- drop_drop. rewrite skipn_firstn_comm. rewrite take_take.
  f_equal. lia.
Qed.

Lemma fenceOf_0 (l r : slice) : fenceOf 0 l r = [].
Proof.
  unfold fenceOf, len. rewrite Z.sub_0_r, Nat2Z.id, drop_all. reflexivity.
Qed.

Section NoContext.

Variable file : list byte.
Variable word : list byte.
Variable ts ts' : TextSearcher.
Variable mss : list (list hit).
Hypothesis Hnew : NewSearcher file = Ok ts.
Hypothesis Htrace : SearchTrace ts word 0 = Ok (ts', mss).

(** With [context = 0] every fencepost is filled with an empty buffer. *)
Lemma noContext_fences (j : nat) :
  (j + 1 < numChunks file)%nat ->
  elems <$> fileBuffers ts' !! (2 * j + 1)%nat = Some [].
Proof.
  intros Hj.
  destruct (NewSearcher_buffers _ _ Hnew) as [Hmax [Hlen _]].
  destruct (SearchTrace_Ok _ _ _ _ _ Htrace) as [Hfill _].
  destruct (fillFenceposts_Ok _ _ _ Hfill) as [_ [_ [_ Hodd]]].
  destruct (Hodd (2 * j + 1)%nat (odd_double_1 j)) as [l [r [_ [_ Hf]]]]; [lia|].
  rewrite Hf, Hmax. change (wrap64 (0 * 20)) with 0. now rewrite fenceOf_0.
Qed.

(** The chunks are as [NewSearcher] read them. *)
Lemma noContext_chunks (j : nat) :
  (j < numChunks file)%nat ->
  elems <$> fileBuffers ts' !! (2 * j)%nat = Some (chunkOf file j).
Proof.
  intros Hj.
  destruct (NewSearcher_buffers _ _ Hnew) as [_ [_ [_ [Heven _]]]].
  destruct (SearchTrace_Ok _ _ _ _ _ Htrace) as [Hfill _].
  destruct (fillFenceposts_Ok _ _ _ Hfill) as [_ [_ [Hkeep _]]].
  rewrite (Hkeep _ (odd_double_0 j)), (Heven j Hj). reflexivity.
Qed.

Hypothesis Hascii : asciiOnly file.
Hypothesis Hword : asciiOnly word.

(** Every recorded match comes from a chunk, where the word stands whole. *)
Lemma noContext_hits (i : nat) (ms : list hit) (h : hit) :
  mss !! i = Some ms -> In h ms ->
  exists j, i = (2 * j)%nat /\ (j < numChunks file)%nat /\
            hitAt (chunkOf file j) word 0 h.
Proof.
  intros Hi Hh.
  destruct (NewSearcher_buffers _ _ Hnew) as [_ [Hlen [Hpos _]]].
  destruct (SearchTrace_Ok _ _ _ _ _ Htrace) as [Hfill [Hmss Hscan]].
  destruct (fillFenceposts_Ok _ _ _ Hfill) as [_ [Hlen' _]].
  pose proof (lookup_lt_Some _ _ _ Hi) as Hlt. rewrite Hmss, Hlen', Hlen in Hlt.
  specialize (Hscan _ _ Hi).
  destruct (Nat.odd i) eqn:Hpar.
  - (* a fencepost: nothing is found in it *)
    destruct (odd_double _ Hpar) as [j ->].
    pose proof (noContext_fences j ltac:(lia)) as Hf.
    destruct (fileBuffers ts' !! (2 * j + 1)%nat) as [full|] eqn:Hfull;
      [|discriminate].
    injection Hf as Hf.
    rewrite (scanBuffer_empty ts' _ full Hfull word 0 Hf) in Hscan by lia.
    injection Hscan as <-. destruct Hh.
  - (* a chunk *)
    destruct (even_double _ Hpar) as [j ->]. exists j.
    split; [reflexivity|]. split; [lia|].
    pose proof (noContext_chunks j ltac:(lia)) as Hc.
    destruct (fileBuffers ts' !! (2 * j)%nat) as [full|] eqn:Hfull;
      [|discriminate].
    injection Hc as Hc.
    assert (Hfa : asciiOnly (elems full)).
    { rewrite Hc. unfold chunkOf. now apply asciiOnly_take, asciiOnly_drop. }
    pose proof (scanBuffer_hits ts' _ full Hfull word 0 Hfa Hword ms Hscan) as Hall.
    rewrite Hc in Hall. rewrite Forall_forall in Hall. apply Hall.
    now apply list_elem_of_In.
Qed.

End NoContext.

(** ** Termination *)

Lemma finishes_bind {A B : Type} (m : outcome A) (k : A -> outcome B) :
  finishes m -> (forall a, m = Ok a -> finishes (k a)) -> finishes (obind m k).
Proof.
  destruct m as [a| | |]; cbn [obind finishes]; intros Hm Hk; auto.
Qed.

Lemma buffer_at_finishes (bufs : list slice) (i : Z) : finishes (buffer_at bufs i).
Proof.
  unfold buffer_at. destruct (0 <=? i); [|exact I].
  destruct (_ !! _); exact I.
Qed.

Lemma slice3_finishes (s : slice) (lo hi : Z) : finishes (slice3 s lo hi).
Proof. unfold slice3. destruct (_ && _); exact I. Qed.

Lemma isExactWord_finishes (ts : TextSearcher) (bufferNum : Z) (word : list byte)
    (index : Z) :
  finishes (isExactWord ts bufferNum word index).
Proof.
  pose proof (isExactWord_fuel ts bufferNum word index) as H.
  destruct (isExactWord ts bufferNum word index); try exact I. congruence.
Qed.

(** Looking backwards, [findContext] calls itself with a smaller index and
    panics below 0: a budget above the index is never used up. *)
Lemma findContext_prev_finishes (fuel : nat) (ts : TextSearcher)
    (aside : list byte) (bufferNum bufferIndex numWords : Z) :
  bufferIndex < Z.of_nat fuel -> (0 < fuel)%nat ->
  finishes (findContext fuel ts aside true bufferNum bufferIndex numWords).
Proof.
  revert aside bufferIndex numWords.
  induction fuel as [|fuel IH]; intros aside bufferIndex numWords Hidx Hpos; [lia|].
  cbn [findContext].
  destruct (minInt _ _ <? 0); [exact I|].
  destruct (drop _ _) as [|w0 ws]; [exact I|].
  destruct (find _ _) as [b|]; [|exact I].
  apply finishes_bind; [apply buffer_at_finishes|]. intros buf _.
  apply finishes_bind; [apply slice3_finishes|]. intros aside' Haside.
  apply slice3_Ok in Haside. destruct Haside as [Hlo _].
  apply finishes_bind; [|intros; exact I].
  apply IH; lia.
Qed.

(** Looking forwards, it calls itself with a larger index and panics past the
    length of the buffer. *)
Lemma findContext_next_finishes (fuel : nat) (ts : TextSearcher)
    (aside : list byte) (bufferNum bufferIndex numWords : Z) :
  (forall buf, buffer_at (fileBuffers ts) bufferNum = Ok buf ->
               len buf - bufferIndex < Z.of_nat fuel) ->
  (0 < fuel)%nat ->
  finishes (findContext fuel ts aside false bufferNum bufferIndex numWords).
Proof.
  revert aside bufferIndex numWords.
  induction fuel as [|fuel IH]; intros aside bufferIndex numWords Hidx Hpos; [lia|].
  cbn [findContext].
  destruct (minInt _ _ <? 0); [exact I|].
  destruct (take _ _) as [|w0 ws]; [exact I|].
  destruct (find _ _) as [b|]; [|exact I].
  apply finishes_bind; [apply buffer_at_finishes|]. intros buf Hbuf.
  apply finishes_bind; [apply slice3_finishes|]. intros aside' Haside.
  apply sliceFrom_Ok in Haside. destruct Haside as [Hlo _].
  apply finishes_bind; [|intros; exact I].
  specialize (Hidx buf Hbuf).
  apply IH; [|lia]. intros buf' Hbuf'. rewrite Hbuf in Hbuf'.
  injection Hbuf' as <-. lia.
Qed.

Lemma findPrevWords_finishes (ts : TextSearcher) (bufferNum bufferIndex numWords : Z) :
  finishes (findPrevWords ts bufferNum bufferIndex numWords).
Proof.
  unfold findPrevWords.
  apply finishes_bind; [apply buffer_at_finishes|]. intros buf _.
  apply finishes_bind; [apply slice3_finishes|]. intros aside Haside.
  apply slice3_Ok in Haside. destruct Haside as [_ [Hhi _]].
  apply findContext_prev_finishes; unfold contextFuel; [|lia].
  unfold cap, len in Hhi. lia.
Qed.

Lemma findNextWords_finishes (ts : TextSearcher) (bufferNum bufferIndex numWords : Z) :
  finishes (findNextWords ts bufferNum bufferIndex numWords).
Proof.
  unfold findNextWords.
  apply finishes_bind; [apply buffer_at_finishes|]. intros buf Hbuf.
  apply finishes_bind; [apply slice3_finishes|]. intros aside Haside.
  apply sliceFrom_Ok in Haside. destruct Haside as [Hlo _].
  apply findContext_next_finishes; unfold contextFuel; [|lia].
  intros buf' Hbuf'. rewrite Hbuf in Hbuf'. injection Hbuf' as <-.
  unfold len. lia.
Qed.

(** One turn of the scan loop always comes to an end. *)
Lemma scanStep_finishes (ts : TextSearcher) (i : Z) (word : list byte)
    (context : Z) (st : scanState) :
  finishes (scanStep ts i word context st).
Proof.
  unfold scanStep. destruct (Index _ _) as [wi|]; [|exact I].
  pose proof (isExactWord_finishes ts i word (Z.of_nat wi + skip st)) as Hex.
  destruct (isExactWord _ _ _ _) as [[|]| | |]; try exact I; try contradiction.
  - apply finishes_bind.
    { destruct (context >? 0); [apply findPrevWords_finishes | exact I]. }
    intros prevWords _. apply finishes_bind.
    { destruct (context >? 0); [apply findNextWords_finishes | exact I]. }
    intros nextWords _.
    apply finishes_bind; [apply buffer_at_finishes|]. intros full _.
    apply finishes_bind; [apply slice3_finishes|]. intros term' _.
    apply finishes_bind; [apply slice3_finishes|]. intros buffer' _. exact I.
  - apply finishes_bind; [apply slice3_finishes|]. intros buffer' _. exact I.
Qed.

(** With a word that is not empty, every turn that goes on leaves fewer
    bytes to scan, so one turn per byte and one more are enough. *)
Lemma scanLoop_finishes (fuel : nat) (ts : TextSearcher) (i : Z)
    (word : list byte) (context : Z) (st : scanState) :
  word <> [] -> (length (elems (buffer st)) < fuel)%nat ->
  finishes (scanLoop fuel ts i word context st).
Proof.
  intros Hword. revert st. induction fuel as [|fuel IH]; intros st Hfuel; [lia|].
  cbn [scanLoop]. apply finishes_bind; [apply scanStep_finishes|].
  intros [st'|ms] Hstep; [|exact I].
  apply IH. apply scanStep_Continue_fits in Hstep.
  destruct Hstep as [wi [_ [Hlen Hbuf]]].
  rewrite Hbuf, length_drop.
  destruct word as [|c word]; [congruence|]. cbn [length] in *. lia.
Qed.

Lemma scanBuffer_finishes (ts : TextSearcher) (word : list byte)
    (context : Z) (i : nat) :
  word <> [] -> finishes (scanBuffer ts word context i).
Proof.
  intros Hword. unfold scanBuffer.
  apply finishes_bind; [apply buffer_at_finishes|].
  intros buf _. apply scanLoop_finishes; [exact Hword|]. cbn [buffer]. lia.
Qed.

(** * The claims *)

(** ** Chunking (C4) *)

(** The chunk sequence of a file that is not empty covers the file: there
    are [ceil(size / 4096)] chunks, they are the file cut at every 4096th
    byte, every chunk but the last holds 4096 bytes, and the lengths add up
    to the size of the file. *)
Lemma NewSearcher_chunks_cover (file : list byte) :
  file <> [] ->
  exists ts, NewSearcher file = Ok ts /\
    length (chunksOf ts) = numChunks file /\
    Z.of_nat (numChunks file) = ceilDiv (Z.of_nat (length file)) chunkSize /\
    concat (chunksOf ts) = file /\
    (forall j c, chunksOf ts !! j = Some c -> (j + 1 < numChunks file)%nat ->
                 Z.of_nat (length c) = chunkSize) /\
    list_sum (map length (chunksOf ts)) = length file.
Proof.
  intros Hne. eexists. split; [apply NewSearcher_nonempty; exact Hne|].
  rewrite (NewSearcher_chunksOf file _ (NewSearcher_nonempty file Hne)).
  assert (Hcat : concat (map (chunkOf file) (seq 0 (numChunks file))) = file).
  { rewrite chunkOf_concat; [apply drop_0|].
    pose proof (numChunks_upper file) as Hup. rewrite <- chunkSize_nat in Hup. nia. }
  split; [now rewrite length_map, length_seq|].
  split.
  { unfold numChunks, ceilDiv, chunkSize. Z.div_mod_to_equations. lia. }
  split; [exact Hcat|]. split.
  - intros j c Hc Hj. rewrite list_lookup_fmap, lookup_seq_lt in Hc by lia.
    injection Hc as <-. apply chunkOf_bounds; lia.
  - rewrite <- length_concat, Hcat. reflexivity.
Qed.

(** C4, at the input where the code fails: on an empty file [NewSearcher]
    counts [ceil(0 / 4096) = 0] chunks, reads none, and then asks [make] for
    [0*2 - 1 = -1] buffers, which panics; no searcher and no chunk sequence
    comes back. *)
Theorem NewSearcher_empty_file_panics :
  NewSearcher [] = Panic /\ numChunks [] = 0%nat.
Proof. split; reflexivity. Qed.

(** ** The end of the file (C6) *)

(** C6, at the input where the code fails: the word at the very end of the
    file.  The branch written for it tests [bufferNum == len(ts.fileBuffers)],
    which no buffer index satisfies, so the candidate goes through the general
    path, and reading [buffer[index+len(word)]] there is one byte past the
    end: [isExactWord] panics and [Search] with it. *)
Theorem word_at_end_of_file_panics :
  (let* ts := searcherOf endFile 0 in isExactWord ts 0 (str "foo") 2) = Panic /\
  searchFile endFile (str "foo") 0 = Panic.
Proof. split; vm_compute; reflexivity. Qed.

(** ** Duplicates (C1) *)

(** C1, at the input where the code fails: the one [foo] of [boundaryFile]
    stands at file offset 4089.  With [context = 1] the scan of the first
    chunk finds it at local offset 4089, the scan of the fencepost, which
    starts at file offset 4076, finds it again at local offset 13, and
    [Search] returns both renderings: nothing removes duplicates. *)
Theorem Search_reports_boundary_word_twice :
  (let* ts := NewSearcher boundaryFile in
   let* r := SearchTrace ts (str "foo") 1 in Ok (snd r))
  = Ok [[(4089, str "foo two")]; [(13, str "foo two")]; []] /\
  searchFile boundaryFile (str "foo") 1 = Ok [str "foo two"; str "foo two"] /\
  Index (ToLower boundaryFile) (str "foo") = Some 4089%nat /\
  Index (ToLower (drop 4090 boundaryFile)) (str "foo") = None.
Proof. repeat split; vm_compute; reflexivity. Qed.

(** ** The bounds error of the whole-word check (C2, C5) *)




(** C5 as stated fails on [edgeFile]: the [foo] at file offset 4096 starts
    the second chunk, is neither at the start nor at the end of the file, and
    has a space on either side; the check reads neither byte and answers with
    the bounds error, so the candidate is not accepted. *)
Lemma edge_candidate_not_examined :
  term edgeFile 4096 3 = str "foo" /\
  edgeFile !! 4095%nat = Some SP /\ edgeFile !! 4099%nat = Some SP /\
  length edgeFile = 4107%nat /\
  isWordCharacter SP = false /\
  (let* ts := searcherOf edgeFile 0 in Ok (elems <$> fileBuffers ts !! 2%nat))
  = Ok (Some (str "foo foo bar")) /\
  (let* ts := searcherOf edgeFile 0 in isExactWord ts 2 (str "foo") 0)
  = Fail ErrOutOfBounds.
Proof. repeat split; vm_compute; reflexivity. Qed.

(** C5, amended: for a candidate at a local offset between 1 and 4095 that
    has a byte before it and a byte after it in its buffer, the check reads
    both bytes and rejects the candidate exactly when one of them is in the
    word-character set [{a-z, A-Z, 0-9, ', -}]. *)
Theorem validation_examines_both_neighbours (ts : TextSearcher) (i : nat)
    (buf : slice) (word : list byte) (index : Z) (before after : byte) :
  fileBuffers ts !! i = Some buf ->
  1 <= index <= chunkSize - 1 ->
  elems buf !! Z.to_nat (index - 1) = Some before ->
  elems buf !! Z.to_nat (index + Z.of_nat (length word)) = Some after ->
  isExactWord ts (Z.of_nat i) word index
  = Ok (negb (inWordCharacterSet before || inWordCharacterSet after)).
Proof.
  intros Hbuf Hidx Hb Ha. rewrite <- !isWordCharacter_set.
  eapply isExactWord_inside; eauto.
Qed.

Lemma validation_examines_both_neighbours_witness :
  isExactWord (exampleSearcher casingFile 0) (Z.of_nat 0) (str "Foo") 2
  = Ok (negb (inWordCharacterSet SP || inWordCharacterSet SP)) /\
  isExactWord (exampleSearcher casingFile 0) (Z.of_nat 0) (str "foo") 15
  = Ok (negb (inWordCharacterSet SP || inWordCharacterSet (Byte.x64))).
Proof.
  split.
  - exact (validation_examines_both_neighbours (exampleSearcher casingFile 0) 0
             (mkSlice casingFile (replicate 4070 Byte.x00)) (str "Foo") 2 SP SP
             ltac:(vm_compute; reflexivity) ltac:(vm_compute; split; discriminate)
             ltac:(vm_compute; reflexivity) ltac:(vm_compute; reflexivity)).
  - exact (validation_examines_both_neighbours (exampleSearcher casingFile 0) 0
             (mkSlice casingFile (replicate 4070 Byte.x00)) (str "foo") 15 SP Byte.x64
             ltac:(vm_compute; reflexivity) ltac:(vm_compute; split; discriminate)
             ltac:(vm_compute; reflexivity) ltac:(vm_compute; reflexivity)).
Defined.

(** ** The fenceposts (C3, C8) *)

Lemma wrap64_small (z : Z) : - 2 ^ 63 <= z < 2 ^ 63 -> wrap64 z = z.
Proof. intros H. unfold wrap64. rewrite Z.mod_small by lia. lia. Qed.




(** C8 as stated fails on [boundaryFile]: the slot between the two chunks is
    empty in the searcher that [NewSearcher] returns and holds 40 bytes in
    the searcher that [Search] with [context = 1] leaves behind. *)
Lemma Search_overwrites_fence_slot :
  (let* ts := NewSearcher boundaryFile in Ok (elems <$> fileBuffers ts !! 1%nat))
  = Ok (Some []) /\
  (let* ts := NewSearcher boundaryFile in
   let* r := Search ts (str "foo") 1 in
   Ok (elems <$> fileBuffers (fst r) !! 1%nat))
  = Ok (Some (spaces 13 ++ str "foo two three four five six")).
Proof. split; vm_compute; reflexivity. Qed.

(** C8, amended: [Search] writes to the searcher, but only to its fencepost
    slots.  It leaves [maxWordSizeInBytes], the number of buffers and the
    bytes of every even slot (the chunks) as they were, and it overwrites
    every odd slot with the fence that this call's context width gives. *)
Theorem Search_keeps_chunks (ts ts' : TextSearcher) (word : list byte)
    (context : Z) (res : list (list byte)) :
  Search ts word context = Ok (ts', res) ->
  maxWordSizeInBytes ts' = maxWordSizeInBytes ts /\
  length (fileBuffers ts') = length (fileBuffers ts) /\
  (forall e, Nat.odd e = false ->
     elems <$> fileBuffers ts' !! e = elems <$> fileBuffers ts !! e) /\
  (forall o, Nat.odd o = true -> (o < length (fileBuffers ts))%nat ->
     exists l r,
       fileBuffers ts !! (o - 1)%nat = Some l /\
       fileBuffers ts !! (o + 1)%nat = Some r /\
       elems <$> fileBuffers ts' !! o
       = Some (fenceOf (wrap64 (context * maxWordSizeInBytes ts)) l r)).
Proof.
  intros H. apply Search_SearchTrace in H. destruct H as [mss [H _]].
  apply SearchTrace_Ok in H. destruct H as [Hfill _].
  now apply fillFenceposts_Ok.
Qed.

Lemma Search_keeps_chunks_witness :
  maxWordSizeInBytes (exampleSearcher boundaryFile 1)
  = maxWordSizeInBytes (valueOr (mkTextSearcher 20 []) (NewSearcher boundaryFile)) /\
  length (fileBuffers (exampleSearcher boundaryFile 1))
  = length (fileBuffers (valueOr (mkTextSearcher 20 []) (NewSearcher boundaryFile))) /\
  (forall e, Nat.odd e = false ->
     elems <$> fileBuffers (exampleSearcher boundaryFile 1) !! e
     = elems <$> fileBuffers (valueOr (mkTextSearcher 20 []) (NewSearcher boundaryFile)) !! e) /\
  (forall o, Nat.odd o = true ->
     (o < length (fileBuffers (valueOr (mkTextSearcher 20 []) (NewSearcher boundaryFile))))%nat ->
     exists l r,
       fileBuffers (valueOr (mkTextSearcher 20 []) (NewSearcher boundaryFile)) !! (o - 1)%nat
       = Some l /\
       fileBuffers (valueOr (mkTextSearcher 20 []) (NewSearcher boundaryFile)) !! (o + 1)%nat
       = Some r /\
       elems <$> fileBuffers (exampleSearcher boundaryFile 1) !! o
       = Some (fenceOf
                 (wrap64 (1 * maxWordSizeInBytes
                                (valueOr (mkTextSearcher 20 []) (NewSearcher boundaryFile))))
                 l r)).
Proof.
  exact (Search_keeps_chunks
           (valueOr (mkTextSearcher 20 []) (NewSearcher boundaryFile))
           (exampleSearcher boundaryFile 1) (str "foo") 1
           [str "foo two"; str "foo two"]
           ltac:(vm_compute; reflexivity)).
Defined.

(** ** Termination of the scan (C9) *)

(** C9 as stated fails for the empty search term.  On the file [a] the scan
    of the first buffer finds the empty word at offset 0, the check rejects
    it because [a] is a word character, the cursor moves on by 0 bytes, and
    the next turn starts from the same state: no number of turns ends the
    loop, and the budget [Search] gives it runs out. *)
Lemma empty_word_scan_runs_forever :
  runsForever (fun fuel => scanLoop fuel (exampleSearcher (str "a") 0) 0 [] 0
                                    (scanStart (exampleSearcher (str "a") 0) 0)) /\
  searchFile (str "a") [] 0 = OutOfFuel.
Proof.
  split; [|vm_compute; reflexivity].
  intros fuel. induction fuel as [|fuel IH]; [reflexivity|].
  cbn [scanLoop].
  replace (scanStep (exampleSearcher (str "a") 0) 0 [] 0
                    (scanStart (exampleSearcher (str "a") 0) 0))
    with (Ok (Continue (scanStart (exampleSearcher (str "a") 0) 0)))
    by (vm_compute; reflexivity).
  exact IH.
Qed.

(** C9, amended: for every search term that is not empty the scan loop of a
    buffer comes to an end within the budget of one turn per byte and one
    more.  Every turn that goes on has found an occurrence at some
    [wordIndex], accepted or not, and has moved the cursor past it by
    [wordIndex + len(word)] bytes, so that fewer bytes are left to scan. *)
Theorem scan_terminates_for_nonempty_word (ts : TextSearcher) (word : list byte)
    (context : Z) (i : nat) :
  word <> [] ->
  finishes (scanBuffer ts word context i) /\
  forall st st',
    scanStep ts (Z.of_nat i) word context st = Ok (Continue st') ->
    exists wi : nat,
      Index (ToLower (elems (buffer st))) (ToLower word) = Some wi /\
      skip st' = skip st + (Z.of_nat wi + Z.of_nat (length word)) /\
      elems (buffer st') = drop (wi + length word) (elems (buffer st)) /\
      (length (elems (buffer st')) < length (elems (buffer st)))%nat.
Proof.
  intros Hword. split.
  - apply scanBuffer_finishes. exact Hword.
  - intros st st' Hstep.
    destruct (scanStep_Continue_fits _ _ _ _ _ _ Hstep) as [wi' [HI' [Hlen _]]].
    apply scanStep_Continue in Hstep.
    destruct Hstep as [wi [HI [Hbuf Hskip]]]. exists wi.
    rewrite HI in HI'. injection HI' as <-.
    repeat (split; [assumption|]).
    rewrite Hbuf, length_drop.
    destruct word as [|c word]; [congruence|]. cbn [length] in *. lia.
Qed.

Lemma scan_terminates_for_nonempty_word_witness :
  finishes (scanBuffer (exampleSearcher casingFile 0) (str "foo") 0 0) /\
  forall st st',
    scanStep (exampleSearcher casingFile 0) (Z.of_nat 0) (str "foo") 0 st
    = Ok (Continue st') ->
    exists wi : nat,
      Index (ToLower (elems (buffer st))) (ToLower (str "foo")) = Some wi /\
      skip st' = skip st + (Z.of_nat wi + Z.of_nat (length (str "foo"))) /\
      elems (buffer st') = drop (wi + length (str "foo")) (elems (buffer st)) /\
      (length (elems (buffer st')) < length (elems (buffer st)))%nat.
Proof.
  exact (scan_terminates_for_nonempty_word (exampleSearcher casingFile 0)
           (str "foo") 0 0 ltac:(vm_compute; discriminate)).
Defined.

(** The whole of [Search] comes to an end for such a term: the first loop
    has one turn per slot, and every goroutine ends. *)
Lemma Search_finishes (ts : TextSearcher) (word : list byte) (context : Z) :
  word <> [] -> finishes (Search ts word context).
Proof.
  intros Hword. unfold Search, SearchTrace.
  apply finishes_bind; [|intros; exact I].
  apply finishes_bind.
  { unfold fillFenceposts. apply finishes_bind; [|intros; exact I].
    generalize (fileBuffers ts) at 2. generalize (seq 0 (length (fileBuffers ts))).
    intros idx. induction idx as [|k idx IH]; intros bufs; [exact I|].
    cbn [fenceLoop]. apply finishes_bind; [|intros; apply IH].
    unfold fenceStep. destruct (Nat.odd k); [|exact I].
    apply finishes_bind; [apply buffer_at_finishes|]. intros l _.
    apply finishes_bind; [apply buffer_at_finishes|]. intros r _.
    apply finishes_bind; [apply slice3_finishes|]. intros tail _.
    apply finishes_bind; [apply slice3_finishes|]. intros head _.
    destruct (append _ _). exact I. }
  intros ts1 _. apply finishes_bind; [|intros; exact I].
  generalize (seq 0 (length (fileBuffers ts1))).
  intros idx. induction idx as [|k idx IH]; [exact I|].
  cbn [scanAll]. apply finishes_bind.
  { apply scanBuffer_finishes; exact Hword. }
  intros m _. apply finishes_bind; [exact IH | intros; exact I].
Qed.

(** ** The matched text (C7) *)

(** C7, at an input where the code fails.  [brokenFile] starts with two
    bytes that are no UTF-8 and holds the word [foo] at offset 3.
    [bytes.ToLower] turns each of the two bytes into the three bytes of
    U+FFFD, so the word stands at offset 7 of the lower-case copy.  [Search]
    takes that offset for an offset of the buffer, finds the three bytes
    [.,;] there between two spaces, and returns them as the match of [foo]:
    the string returned is not the text that matched.  On [strokeFile],
    well-formed UTF-8 whose lower case is four bytes longer, the same
    happens. *)
Theorem Search_returns_bytes_beside_the_word :
  term brokenFile 3 3 = str "foo" /\
  Index (ToLower brokenFile) (ToLower (str "foo")) = Some 7%nat /\
  term brokenFile 7 3 = str ".,;" /\
  searchFile brokenFile (str "foo") 0 = Ok [str ".,;"] /\
  searchFile strokeFile (str "foo") 0 = Ok [str ".,;"].
Proof. vm_compute. repeat split; reflexivity. Qed.

(** ** Search without context (C10) *)

(** A recorded match of a search without context, in file coordinates. *)
Lemma noContext_hit_in_file (file word : list byte) (j : nat) (h : hit) :
  (j < numChunks file)%nat -> hitAt (chunkOf file j) word 0 h ->
  snd h = term file (absoluteOffset j (fst h)) (length word) /\
  ToLower (snd h) = ToLower word /\
  chunkSize * Z.of_nat j <= absoluteOffset j (fst h) /\
  absoluteOffset j (fst h) + Z.of_nat (length word)
    <= chunkSize * Z.of_nat j + Z.of_nat (length (chunkOf file j)) /\
  absoluteOffset j (fst h) + Z.of_nat (length word) <= Z.of_nat (length file).
Proof.
  intros Hj [Hoff [Hlen [Hlow Hsnd]]].
  specialize (Hsnd ltac:(lia)).
  rewrite Hsnd. rewrite <- (term_chunkOf file j (fst h)) by assumption.
  split; [reflexivity|]. split; [exact Hlow|].
  unfold absoluteOffset. split; [lia|]. split; [lia|].
  rewrite chunkOf_length in Hlen.
  destruct (numChunks_bounds file) as [Hlo| ->];
    [|change (numChunks []) with 0%nat in Hj; lia].
  change chunkLen with 4096%nat in Hlen. unfold chunkSize in *. lia.
Qed.

(** On ASCII input, every string that [Search(word, 0)] returns is the text
    of the file at some offset, in the casing of the file: it has the length
    of the query, nothing before or after it, and equals the query up to
    case. *)
Theorem Search_returns_file_text (file word : list byte) (ts ts' : TextSearcher)
    (res : list (list byte)) :
  asciiOnly file -> asciiOnly word ->
  NewSearcher file = Ok ts ->
  Search ts word 0 = Ok (ts', res) ->
  Forall (fun r => exists p : Z,
            0 <= p /\ p + Z.of_nat (length word) <= Z.of_nat (length file) /\
            r = term file p (length word) /\
            length r = length word /\
            ToLower r = ToLower word) res.
Proof.
  intros Hfa Hwa Hnew Hsearch.
  apply Search_SearchTrace in Hsearch. destruct Hsearch as [mss [Htrace ->]].
  apply Forall_forall. intros r Hr.
  apply list_elem_of_In, in_map_iff in Hr. destruct Hr as [h [<- Hh]].
  apply in_concat in Hh. destruct Hh as [ms [Hms Hh]].
  apply list_elem_of_In, list_elem_of_lookup in Hms. destruct Hms as [i Hi].
  destruct (noContext_hits file word ts ts' mss Hnew Htrace Hfa Hwa i ms h Hi Hh)
    as [j [-> [Hj Hhit]]].
  destruct (noContext_hit_in_file file word j h Hj Hhit)
    as [Hsnd [Hlow [Hlo [_ Hhi]]]].
  exists (absoluteOffset j (fst h)).
  split; [unfold chunkSize in Hlo; lia|]. split; [exact Hhi|].
  split; [exact Hsnd|]. split; [|exact Hlow].
  rewrite Hsnd. unfold term. rewrite length_take, length_drop.
  unfold chunkSize in Hlo. lia.
Qed.

Lemma Search_returns_file_text_witness :
  Forall (fun r => exists p : Z,
            0 <= p /\
            p + Z.of_nat (length (str "FOO")) <= Z.of_nat (length casingFile) /\
            r = term casingFile p (length (str "FOO")) /\
            length r = length (str "FOO") /\
            ToLower r = ToLower (str "FOO"))
         [str "Foo"; str "foo"; str "FOO"].
Proof.
  exact (Search_returns_file_text casingFile (str "FOO")
           (valueOr (mkTextSearcher 20 []) (NewSearcher casingFile))
           (exampleSearcher casingFile 0)
           [str "Foo"; str "foo"; str "FOO"]
           ltac:(vm_compute; reflexivity) ltac:(vm_compute; reflexivity)
           ltac:(vm_compute; reflexivity) ltac:(vm_compute; reflexivity)).
Defined.



(** * Further properties of the code *)

(** ** NewSearcher *)

Lemma NewSearcher_chunks_cover_witness :
  exists ts, NewSearcher boundaryFile = Ok ts /\
    length (chunksOf ts) = numChunks boundaryFile /\
    Z.of_nat (numChunks boundaryFile)
    = ceilDiv (Z.of_nat (length boundaryFile)) chunkSize /\
    concat (chunksOf ts) = boundaryFile /\
    (forall j c, chunksOf ts !! j = Some c -> (j + 1 < numChunks boundaryFile)%nat ->
                 Z.of_nat (length c) = chunkSize) /\
    list_sum (map length (chunksOf ts)) = length boundaryFile.
Proof.
  exact (NewSearcher_chunks_cover boundaryFile ltac:(vm_compute; discriminate)).
Defined.

(** The searcher that [NewSearcher] returns has [2n - 1] buffers for the [n]
    chunks of the file: chunk [j], with the zeros of its read buffer as spare
    bytes, at index [2j], a [nil] slot between any two chunks, and 20 as the
    estimate of a word's size. *)
Theorem NewSearcher_layout (file : list byte) (ts : TextSearcher) :
  NewSearcher file = Ok ts ->
  maxWordSizeInBytes ts = 20 /\
  length (fileBuffers ts) = (2 * numChunks file - 1)%nat /\
  (1 <= numChunks file)%nat /\
  (forall j, (j < numChunks file)%nat ->
     fileBuffers ts !! (2 * j)%nat = Some (chunkSlice (chunkOf file j))) /\
  (forall j, (j + 1 < numChunks file)%nat ->
     fileBuffers ts !! (2 * j + 1)%nat = Some nilSlice).
Proof. apply NewSearcher_buffers. Qed.

Lemma NewSearcher_layout_witness :
  maxWordSizeInBytes (valueOr (mkTextSearcher 0 []) (NewSearcher edgeFile)) = 20 /\
  length (fileBuffers (valueOr (mkTextSearcher 0 []) (NewSearcher edgeFile)))
  = (2 * numChunks edgeFile - 1)%nat /\
  (1 <= numChunks edgeFile)%nat /\
  (forall j, (j < numChunks edgeFile)%nat ->
     fileBuffers (valueOr (mkTextSearcher 0 []) (NewSearcher edgeFile)) !! (2 * j)%nat
     = Some (chunkSlice (chunkOf edgeFile j))) /\
  (forall j, (j + 1 < numChunks edgeFile)%nat ->
     fileBuffers (valueOr (mkTextSearcher 0 []) (NewSearcher edgeFile)) !! (2 * j + 1)%nat
     = Some nilSlice).
Proof.
  exact (NewSearcher_layout edgeFile
           (valueOr (mkTextSearcher 0 []) (NewSearcher edgeFile))
           ltac:(vm_compute; reflexivity)).
Defined.

(** ** isExactWord at the edges *)

Lemma isExactWord_start_witness :
  isExactWord (exampleSearcher casingFile 0) 0 (str "a") 0
  = Ok (negb (isWordCharacter SP)).
Proof.
  exact (isExactWord_start (exampleSearcher casingFile 0)
           (mkSlice casingFile (replicate 4070 Byte.x00)) (str "a") SP
           ltac:(vm_compute; reflexivity) ltac:(vm_compute; reflexivity)).
Defined.

Lemma isExactWord_at_end_witness :
  isExactWord (exampleSearcher endFile 0) (Z.of_nat 0) (str "foo") 2 = Panic.
Proof.
  exact (isExactWord_at_end (exampleSearcher endFile 0) 0
           (mkSlice endFile (replicate 4091 Byte.x00))
           ltac:(vm_compute; reflexivity) (str "foo") 2
           ltac:(vm_compute; split; discriminate) ltac:(vm_compute; reflexivity)).
Defined.

(** The check answers with its error exactly for the candidates that are not
    the very first bytes of the file and stand at local offset 0 or less, or
    at local offset 4096 or more: the error depends on the position alone,
    never on the bytes of the buffer. *)
Theorem bounds_error_iff (ts : TextSearcher) (i : nat) (word : list byte)
    (index : Z) :
  (i < length (fileBuffers ts))%nat ->
  isExactWord ts (Z.of_nat i) word index = Fail ErrOutOfBounds <->
  (i <> 0%nat \/ index <> 0) /\ (index <= 0 \/ chunkSize <= index).
Proof.
  intros Hi. split.
  - intros H. apply isExactWord_Fail in H. destruct H as [_ [Hedge Hnot]].
    split; [|exact Hedge]. destruct Hnot; [left; lia | right; assumption].
  - intros [Hnot Hedge].
    destruct (lookup_lt_is_Some_2 (fileBuffers ts) i Hi) as [buf Hbuf].
    eapply isExactWord_edge; eauto.
Qed.

Lemma bounds_error_iff_witness :
  isExactWord (exampleSearcher edgeFile 0) (Z.of_nat 2) (str "foo") 0
  = Fail ErrOutOfBounds <->
  (2%nat <> 0%nat \/ 0 <> 0) /\ (0 <= 0 \/ chunkSize <= 0).
Proof.
  exact (bounds_error_iff (exampleSearcher edgeFile 0) 2 (str "foo") 0
           ltac:(vm_compute; lia)).
Defined.

(** ** What Search reads of the query *)

Lemma isExactWord_word_length (ts : TextSearcher) (bufferNum : Z)
    (w w' : list byte) (index : Z) :
  length w = length w' ->
  isExactWord ts bufferNum w index = isExactWord ts bufferNum w' index.
Proof. intros H. unfold isExactWord. now rewrite H. Qed.

Lemma scanStep_casing (ts : TextSearcher) (i : Z) (w w' : list byte)
    (context : Z) (st : scanState) :
  ToLower w = ToLower w' -> length w = length w' ->
  scanStep ts i w context st = scanStep ts i w' context st.
Proof.
  intros H Hlen. unfold scanStep. rewrite H.
  destruct (Index _ _) as [wi|]; [|reflexivity].
  rewrite (isExactWord_word_length ts i w w' _ Hlen), Hlen. reflexivity.
Qed.

Lemma scanLoop_casing (fuel : nat) (ts : TextSearcher) (i : Z) (w w' : list byte)
    (context : Z) (st : scanState) :
  ToLower w = ToLower w' -> length w = length w' ->
  scanLoop fuel ts i w context st = scanLoop fuel ts i w' context st.
Proof.
  intros H Hlen. revert st. induction fuel as [|fuel IH]; intros st; [reflexivity|].
  cbn [scanLoop]. rewrite (scanStep_casing ts i w w' context st H Hlen).
  destruct (scanStep ts i w' context st) as [[st'|ms]| | |]; cbn [obind]; auto.
Qed.

(** [Search] reads its search word through [strings.ToLower(word)] and
    [len(word)] only: two words of the same number of bytes and the same
    lower-case form, such as two casings of an ASCII word, give the same
    matches and leave the same searcher.  The length is needed beside the
    lower-case form: the Kelvin sign U+212A, three bytes, is lowered to the
    one byte [k]. *)
Theorem Search_ignores_query_casing (ts : TextSearcher) (w w' : list byte)
    (context : Z) :
  ToLower w = ToLower w' -> length w = length w' ->
  Search ts w context = Search ts w' context.
Proof.
  intros H Hlen. unfold Search, SearchTrace.
  destruct (fillFenceposts ts context) as [ts'| | |]; cbn [obind]; try reflexivity.
  assert (Hall : forall idx, scanAll ts' w context idx = scanAll ts' w' context idx).
  { intros idx. induction idx as [|k idx IH]; [reflexivity|].
    cbn [scanAll]. rewrite IH. unfold scanBuffer.
    destruct (buffer_at _ _) as [b| | |]; cbn [obind]; try reflexivity.
    now rewrite (scanLoop_casing _ ts' _ w w' context _ H Hlen). }
  now rewrite Hall.
Qed.

(** The byte length cannot be left out.  The Kelvin sign has the lower-case
    form of [k] and three bytes: on the file [a k b] the query [k] is found,
    and the query U+212A makes the check read the buffer three bytes after
    the candidate, past its end. *)
Lemma query_length_matters :
  ToLower kelvinSign = ToLower (str "k") /\
  searchFile (str "a k b") (str "k") 0 = Ok [str "k"] /\
  searchFile (str "a k b") kelvinSign 0 = Panic.
Proof. vm_compute. repeat split; reflexivity. Qed.

Lemma Search_ignores_query_casing_witness :
  Search (valueOr (mkTextSearcher 0 []) (NewSearcher casingFile)) (str "foo") 2
  = Search (valueOr (mkTextSearcher 0 []) (NewSearcher casingFile)) (str "FoO") 2.
Proof.
  exact (Search_ignores_query_casing
           (valueOr (mkTextSearcher 0 []) (NewSearcher casingFile))
           (str "foo") (str "FoO") 2 ltac:(vm_compute; reflexivity)
           ltac:(reflexivity)).
Defined.

(** ** removeReturnCharacters *)

Lemma replaceCRLF_cons2 (c d : byte) (rest : list byte) :
  replaceCRLF (c :: d :: rest)
  = if Byte.eqb c CR && Byte.eqb d LF then SP :: replaceCRLF rest
    else c :: replaceCRLF (d :: rest).
Proof. reflexivity. Qed.

Lemma replaceCRLF_length_le (n : nat) (buf : list byte) :
  (length buf <= n)%nat -> (length (replaceCRLF buf) <= length buf)%nat.
Proof.
  revert buf. induction n as [|n IH]; intros buf Hn.
  - destruct buf; [reflexivity | cbn in Hn; lia].
  - destruct buf as [|c [|d rest]]; [reflexivity | reflexivity |].
    rewrite replaceCRLF_cons2. cbn [length] in Hn.
    destruct (Byte.eqb c CR && Byte.eqb d LF); cbn [length].
    + pose proof (IH rest ltac:(lia)). lia.
    + pose proof (IH (d :: rest) ltac:(cbn [length]; lia)) as H.
      cbn [length] in H. lia.
Qed.

Lemma replaceCRLF_no_LF (n : nat) (buf : list byte) :
  (length buf <= n)%nat -> Forall (fun b => b <> LF) buf -> replaceCRLF buf = buf.
Proof.
  revert buf. induction n as [|n IH]; intros buf Hn Hno.
  - destruct buf; [reflexivity | cbn in Hn; lia].
  - destruct buf as [|c [|d rest]]; [reflexivity | reflexivity |].
    rewrite replaceCRLF_cons2. cbn [length] in Hn.
    inversion Hno as [|? ? Hc Hrest]; subst.
    inversion Hrest as [|? ? Hd _]; subst.
    destruct (Byte.eqb d LF) eqn:E; [apply byte_eqb_eq in E; congruence|].
    rewrite andb_false_r. f_equal. apply IH; [cbn [length]; lia | exact Hrest].
Qed.

(** What [removeReturnCharacters] returns holds no line feed and is no
    longer than its input; input without a line feed comes back as it is, so
    a carriage return with no line feed after it stays. *)
Theorem removeReturnCharacters_spec (buf : list byte) :
  Forall (fun b => b <> LF) (removeReturnCharacters buf) /\
  (length (removeReturnCharacters buf) <= length buf)%nat /\
  (Forall (fun b => b <> LF) buf -> removeReturnCharacters buf = buf).
Proof.
  unfold removeReturnCharacters, replaceLF. split; [|split].
  - apply Forall_forall. intros b Hb.
    apply list_elem_of_fmap in Hb. destruct Hb as [c [-> _]].
    destruct (Byte.eqb c LF) eqn:E; [discriminate|].
    intros ->. now rewrite (proj2 (byte_eqb_eq LF LF) eq_refl) in E.
  - rewrite length_map. now apply (replaceCRLF_length_le (length buf)).
  - intros Hno. rewrite (replaceCRLF_no_LF (length buf)) by auto.
    induction Hno as [|c rest Hc _ IH]; [reflexivity|].
    cbn [map]. rewrite IH.
    destruct (Byte.eqb c LF) eqn:E; [apply byte_eqb_eq in E; congruence|].
    reflexivity.
Qed.

(** ** The white space of a context string *)

(** The bytes of the rune that [DecodeRune] reads: an ASCII byte is a rune
    of its own, and every byte of any other rune, well encoded or not, is
    0x80 or above. *)
Lemma DecodeRune_bytes (c : byte) (s : list byte) :
  (byte_val c < 128 /\ utf8.DecodeRune (c :: s) = (byte_val c, 1%nat)) \/
  (128 <= byte_val c /\
   Forall (fun b => 128 <= byte_val b)
          (take (snd (utf8.DecodeRune (c :: s))) (c :: s))).
Proof.
  unfold utf8.DecodeRune.
  destruct (Z.ltb_spec (byte_val c) 128) as [Hc|Hc]; [left; auto|].
  right. split; [exact Hc|].
  assert (H1 : Forall (fun b => 128 <= byte_val b) (take 1 (c :: s))).
  { cbn [take]. constructor; [exact Hc | constructor]. }
  destruct ((byte_val c <? 194) || (244 <? byte_val c)); [exact H1|].
  set (lo := if byte_val c =? 224 then 160 else if byte_val c =? 240 then 144 else 128).
  set (hi := if byte_val c =? 237 then 159 else if byte_val c =? 244 then 143 else 191).
  assert (Hlo : 128 <= lo).
  { subst lo. destruct (byte_val c =? 224); [lia|].
    destruct (byte_val c =? 240); lia. }
  assert (Hin : forall l h b, 128 <= l -> utf8.inRange l h b = true -> 128 <= byte_val b).
  { intros l h b Hl Hb. unfold utf8.inRange in Hb.
    apply andb_true_iff in Hb. destruct Hb as [Hb _]. apply Z.leb_le in Hb. lia. }
  destruct s as [|b1 s]; [exact H1|].
  destruct (utf8.inRange lo hi b1) eqn:E1; cbn [negb]; [|exact H1].
  pose proof (Hin _ _ _ Hlo E1) as Hb1.
  destruct (byte_val c <? 224).
  { cbn [snd take]. repeat constructor; assumption. }
  destruct s as [|b2 s]; [exact H1|].
  destruct (utf8.inRange 128 191 b2) eqn:E2; cbn [negb]; [|exact H1].
  pose proof (Hin 128 191 b2 ltac:(lia) E2) as Hb2.
  destruct (byte_val c <? 240).
  { cbn [snd take]. repeat constructor; assumption. }
  destruct s as [|b3 s]; [exact H1|].
  destruct (utf8.inRange 128 191 b3) eqn:E3; cbn [negb]; [|exact H1].
  pose proof (Hin 128 191 b3 ltac:(lia) E3) as Hb3.
  cbn [snd take]. repeat constructor; assumption.
Qed.

Lemma isSpace_ascii (b : byte) : isSpace b = true -> isASCII b = true.
Proof.
  unfold isSpace, isASCII. intros H. apply Z.ltb_lt.
  apply orb_true_iff in H. destruct H as [H|H].
  - apply andb_true_iff in H. destruct H as [_ H]. apply Z.leb_le in H. lia.
  - apply Z.eqb_eq in H. lia.
Qed.

Lemma isSpace_high (b : byte) : 128 <= byte_val b -> isSpace b = false.
Proof.
  intros H. destruct (isSpace b) eqn:E; [|reflexivity].
  apply isSpace_ascii in E. unfold isASCII in E. apply Z.ltb_lt in E. lia.
Qed.

(** On an ASCII byte [unicode.IsSpace] is the table [asciiSpace]. *)
Lemma IsSpace_ascii (b : byte) :
  byte_val b < 128 -> unicode.IsSpace (byte_val b) = isSpace b.
Proof.
  intros H. unfold unicode.IsSpace, isSpace.
  destruct (Z.leb_spec (byte_val b) 255); [|lia].
  destruct (Z.eqb_spec (byte_val b) 133); [lia|].
  destruct (Z.eqb_spec (byte_val b) 160); [lia|].
  now rewrite !orb_false_r.
Qed.

Lemma fieldsFrom_no_space (s cur : list byte) :
  Forall (fun b => isSpace b = false) cur ->
  Forall (Forall (fun b => isSpace b = false)) (fieldsFrom cur s).
Proof.
  revert cur. induction s as [|c s IH]; intros cur Hcur; cbn [fieldsFrom].
  - destruct cur; constructor; [now apply Forall_rev | constructor].
  - destruct (isSpace c) eqn:E.
    + destruct cur as [|x cur].
      * apply IH. constructor.
      * constructor; [now apply Forall_rev | apply IH; constructor].
    + apply IH. constructor; assumption.
Qed.

Lemma fieldsFuncFrom_no_space (s cur : list byte) (wid : nat) :
  Forall (fun b => isSpace b = false) cur ->
  Forall (Forall (fun b => isSpace b = false))
         (fieldsFuncFrom unicode.IsSpace cur wid s).
Proof.
  revert cur wid. induction s as [|c s IH]; intros cur wid Hcur; cbn [fieldsFuncFrom].
  - destruct cur; constructor; [now apply Forall_rev | constructor].
  - destruct wid as [|wid]; [|now apply IH].
    cbv zeta.
    assert (Hpush : Forall (fun b => isSpace b = false)
                           (take (snd (utf8.DecodeRune (c :: s))) (c :: s)) ->
            Forall (fun b => isSpace b = false)
                   (rev (take (snd (utf8.DecodeRune (c :: s))) (c :: s)) ++ cur)).
    { intros H. apply Forall_app. split; [now apply Forall_rev | exact Hcur]. }
    destruct (unicode.IsSpace (fst (utf8.DecodeRune (c :: s)))) eqn:E.
    + destruct cur as [|x cur].
      * apply IH. constructor.
      * constructor; [now apply Forall_rev | apply IH; constructor].
    + apply IH. apply Hpush.
      destruct (DecodeRune_bytes c s) as [[Hc Hd]|[Hc Hall]].
      * rewrite Hd in E |- *. cbn [fst snd take] in *.
        rewrite (IsSpace_ascii c Hc) in E. constructor; [exact E | constructor].
      * eapply Forall_impl; [exact Hall|]. intros b Hb. now apply isSpace_high.
Qed.

(** No field of [bytes.Fields] holds an ASCII white-space byte. *)
Lemma Fields_no_space (s : list byte) :
  Forall (Forall (fun b => isSpace b = false)) (Fields s).
Proof.
  unfold Fields, FieldsFunc. destruct (forallb isASCII s).
  - apply fieldsFrom_no_space. constructor.
  - apply fieldsFuncFrom_no_space. constructor.
Qed.

Lemma Join_plain (words : list (list byte)) :
  Forall (Forall (fun b => isSpace b = false)) words ->
  Forall plainByte (Join words [SP]).
Proof.
  assert (Hw : forall w, Forall (fun b => isSpace b = false) w -> Forall plainByte w).
  { intros w Hw0. eapply Forall_impl; [exact Hw0|]. intros b Hb Hs. congruence. }
  induction words as [|w ws IH]; intros H; [constructor|].
  inversion H as [|? ? Hhead Htail]; subst.
  destruct ws as [|w' ws]; [now apply Hw|].
  change (Join (w :: w' :: ws) [SP]) with (w ++ [SP] ++ Join (w' :: ws) [SP]).
  apply Forall_app. split; [now apply Hw|].
  apply Forall_app. split; [|now apply IH].
  constructor; [intros _; reflexivity | constructor].
Qed.

Lemma punctuation_plain (w0 : list byte) (b : byte) :
  find (isSingle w0) punctuationList = Some b -> plainByte b.
Proof.
  intros H. apply find_some in H. destruct H as [Hin _].
  cbv [punctuationList str list_byte_of_string String.list_ascii_of_string
       map Ascii.byte_of_ascii] in Hin.
  unfold plainByte.
  repeat (destruct Hin as [<-|Hin]; [discriminate|]). destruct Hin.
Qed.

(** Whatever [findContext] returns, all the white space in it is single
    spaces: the tokens it joins have none, and a line break or a tab of the
    buffer never gets into a context string. *)
Lemma findContext_plain (fuel : nat) (ts : TextSearcher)
    (aside : list byte) (prev : bool) (bufferNum bufferIndex numWords : Z)
    (r : list byte) :
  findContext fuel ts aside prev bufferNum bufferIndex numWords = Ok r ->
  Forall plainByte r.
Proof.
  revert aside bufferIndex numWords r.
  induction fuel as [|fuel IH]; intros aside bufferIndex numWords r H;
    [discriminate|].
  cbn [findContext] in H.
  destruct (minInt _ _ <? 0); [discriminate|].
  pose proof (Fields_no_space aside) as Hf.
  set (words := if prev then drop _ (Fields aside) else take _ (Fields aside)) in H.
  assert (Hwords : Forall (Forall (fun b => isSpace b = false)) words).
  { subst words. destruct prev; [now apply Forall_drop | now apply Forall_take]. }
  destruct words as [|w0 ws] eqn:Ew; [injection H as <-; constructor|].
  destruct (find _ _) as [b|] eqn:Efind.
  - pose proof (punctuation_plain _ _ Efind) as Hb.
    inv_bind H buf Hbuf. destruct prev.
    + inv_bind H aside' Haside. inv_bind H r' Hr'. injection H as <-.
      apply Forall_app. split; [eapply IH; eauto | constructor; [exact Hb | constructor]].
    + inv_bind H aside' Haside. inv_bind H r' Hr'. injection H as <-.
      constructor; [exact Hb | eapply IH; eauto].
  - destruct prev; injection H as <-.
    + apply Forall_app. split; [exact (Join_plain (w0 :: ws) Hwords)|].
      constructor; [intros _; reflexivity | constructor].
    + constructor; [intros _; reflexivity | exact (Join_plain (w0 :: ws) Hwords)].
Qed.

Lemma findPrevWords_plain (ts : TextSearcher) (bufferNum bufferIndex numWords : Z)
    (r : list byte) :
  findPrevWords ts bufferNum bufferIndex numWords = Ok r -> Forall plainByte r.
Proof.
  unfold findPrevWords. intros H. inv_bind H buf Hbuf. inv_bind H aside Haside.
  eapply findContext_plain; eauto.
Qed.

Lemma findNextWords_plain (ts : TextSearcher) (bufferNum bufferIndex numWords : Z)
    (r : list byte) :
  findNextWords ts bufferNum bufferIndex numWords = Ok r -> Forall plainByte r.
Proof.
  unfold findNextWords. intros H. inv_bind H buf Hbuf. inv_bind H aside Haside.
  eapply findContext_plain; eauto.
Qed.

(** The recursion of [findContext] always comes to an end: looking for the
    words before a match it steps towards offset 0, looking for the words
    after it towards the end of the buffer, and the slice expression of the
    next step panics beyond either. *)
Theorem context_recursion_ends (ts : TextSearcher)
    (bufferNum bufferIndex numWords : Z) :
  finishes (findPrevWords ts bufferNum bufferIndex numWords) /\
  finishes (findNextWords ts bufferNum bufferIndex numWords).
Proof.
  split; [apply findPrevWords_finishes | apply findNextWords_finishes].
Qed.

Lemma fieldsFrom_all_space (s : list byte) :
  Forall (fun b => isSpace b = true) s -> fieldsFrom [] s = [].
Proof.
  induction 1 as [|c s Hc _ IH]; [reflexivity|].
  cbn [fieldsFrom]. now rewrite Hc.
Qed.

Lemma Fields_all_space (s : list byte) :
  Forall (fun b => isSpace b = true) s -> Fields s = [].
Proof.
  intros H. unfold Fields.
  assert (Ha : forallb isASCII s = true).
  { apply forallb_forall. intros b Hb. apply isSpace_ascii.
    rewrite Forall_forall in H. apply H. now apply list_elem_of_In. }
  rewrite Ha. now apply fieldsFrom_all_space.
Qed.

(** When the text beside the match holds no token, because it is empty, at
    the start or the end of a buffer, or all white space, the context is the
    empty string, whatever number of words is asked for. *)
Theorem no_token_no_context (fuel : nat) (ts : TextSearcher) (aside : list byte)
    (prev : bool) (bufferNum bufferIndex numWords : Z) :
  Forall (fun b => isSpace b = true) aside -> 0 <= numWords ->
  findContext (S fuel) ts aside prev bufferNum bufferIndex numWords = Ok [].
Proof.
  intros Hs Hn. cbn [findContext].
  rewrite (Fields_all_space aside Hs). cbn [length].
  unfold minInt. destruct (Z.ltb_spec (Z.of_nat 0) numWords).
  - cbn. now destruct prev.
  - replace numWords with 0 by lia. cbn. now destruct prev.
Qed.

Lemma no_token_no_context_witness :
  findContext (S 0) (exampleSearcher casingFile 0) (spaces 3) true 0 3 2 = Ok [].
Proof.
  exact (no_token_no_context 0 (exampleSearcher casingFile 0) (spaces 3) true 0 3 2
           ltac:(vm_compute; repeat constructor) ltac:(lia)).
Defined.

(** ** What a scan records *)

(** What the check has seen when it accepts a candidate. *)
Lemma isExactWord_true (ts : TextSearcher) (i : nat) (word : list byte)
    (index : Z) :
  isExactWord ts (Z.of_nat i) word index = Ok true ->
  exists full, fileBuffers ts !! i = Some full /\
               wholeWordIn (elems full) i index (length word).
Proof.
  unfold isExactWord. intros H.
  destruct ((Z.of_nat i =? 0) && (index =? 0)) eqn:Hstart.
  { apply andb_true_iff in Hstart. destruct Hstart as [Hi Hidx].
    apply Z.eqb_eq in Hi, Hidx. subst index.
    inv_bind H buf Hbuf. inv_bind H b Hb.
    apply buffer_at_Ok in Hbuf. destruct Hbuf as [_ Hbuf].
    rewrite Nat2Z.id in Hbuf. apply byte_at_Ok in Hb. destruct Hb as [_ Hb].
    exists buf. split; [exact Hbuf|]. split.
    - exists b. split; [exact Hb|]. destruct (isWordCharacter b); [discriminate | reflexivity].
    - left. split; [lia | reflexivity]. }
  destruct ((Z.of_nat i =? _) && (_ =? chunkSize)) eqn:Hlast.
  { apply andb_true_iff in Hlast. destruct Hlast as [Hi _]. apply Z.eqb_eq in Hi.
    inv_bind H buf Hbuf. apply buffer_at_Ok in Hbuf. destruct Hbuf as [_ Hbuf].
    rewrite Nat2Z.id in Hbuf. apply lookup_lt_Some in Hbuf. lia. }
  destruct ((index - 1 <? 0) || (index + 1 >? chunkSize)) eqn:Hedge; [discriminate|].
  apply orb_false_iff in Hedge. destruct Hedge as [Hlo _].
  apply Z.ltb_ge in Hlo.
  inv_bind H buf Hbuf. inv_bind H b Hb. inv_bind H a Ha.
  apply buffer_at_Ok in Hbuf. destruct Hbuf as [_ Hbuf]. rewrite Nat2Z.id in Hbuf.
  apply byte_at_Ok in Hb, Ha. destruct Hb as [_ Hb], Ha as [_ Ha].
  destruct (isWordCharacter b) eqn:Eb; [discriminate|].
  destruct (isWordCharacter a) eqn:Ea; [discriminate|].
  exists buf. split; [exact Hbuf|]. split.
  - exists a. auto.
  - right. split; [lia|]. exists b. auto.
Qed.

Lemma ascendingFrom_snoc (n lo o : Z) (offs : list Z) :
  ascendingFrom n lo offs -> lastEnd n lo offs <= o ->
  ascendingFrom n lo (offs ++ [o]) /\ lastEnd n lo (offs ++ [o]) = o + n.
Proof.
  revert lo. induction offs as [|x offs IH]; intros lo Hasc Hlast; cbn in *.
  - auto.
  - destruct Hasc as [Hx Hrest]. destruct (IH _ Hrest Hlast). auto.
Qed.

Section Record.

Variable ts : TextSearcher.
Variable i : nat.
Variable full : slice.
Hypothesis Hfull : fileBuffers ts !! i = Some full.

Variable word : list byte.
Variable context : Z.

Lemma scanStep_record (st : scanState) (next : scanNext) :
  scanRecord ts i full word st ->
  scanStep ts (Z.of_nat i) word context st = Ok next ->
  match next with
  | Continue st' => scanRecord ts i full word st'
  | Break matches =>
      Forall (reported ts i (elems full) word) matches /\
      ascendingFrom (Z.of_nat (length word)) 0 (map fst matches)
  end.
Proof.
  intros [Hskip [Hbuf [Hfound [Hasc Hlast]]]] H. unfold scanStep in H.
  destruct (Index _ _) as [wi|] eqn:HI; [|injection H as <-; auto].
  unfold len in Hskip.
  destruct (isExactWord _ _ _ _) as [[|]| | |] eqn:HE; try discriminate.
  - (* an exact match *)
    apply obind_Ok in H. destruct H as [prevWords [Hprev H]].
    apply obind_Ok in H. destruct H as [nextWords [Hnxt H]].
    apply obind_Ok in H. destruct H as [full' [Hfull' H]].
    apply obind_Ok in H. destruct H as [term' [Hterm H]].
    apply obind_Ok in H. destruct H as [buffer' [Hbuffer' H]].
    injection H as <-.
    rewrite (buffer_at_nat _ _ _ Hfull) in Hfull'. injection Hfull' as <-.
    apply slice3_Ok in Hterm. destruct Hterm as [_ [_ ->]].
    apply sliceFrom_Ok in Hbuffer'. destruct Hbuffer' as [Hlen ->].
    unfold len in Hlen. rewrite Hbuf, length_drop in Hlen.
    destruct (ascendingFrom_snoc (Z.of_nat (length word)) 0
                (Z.of_nat wi + skip st) (map fst (found st)) Hasc ltac:(lia))
      as [Hasc' Hlast'].
    unfold scanRecord, len. cbn [buffer skip found elems].
    rewrite map_app. cbn [map fst].
    split; [lia|]. split; [rewrite Hbuf, drop_drop; f_equal; lia|].
    split; [|split; [exact Hasc' |
      etransitivity; [apply Z.eq_le_incl; exact Hlast' | lia]]].
    apply Forall_app. split; [exact Hfound|]. constructor; [|constructor].
    unfold reported, term. cbn [fst snd].
    split; [exact HE|]. split; [lia|]. split; [lia|]. split.
    + intros Hfa Hwa.
      apply Index_ToLower in HI;
        [|rewrite Hbuf; apply asciiOnly_drop; exact Hfa | exact Hwa].
      destruct HI as [_ Hlow]. rewrite Hbuf, drop_drop in Hlow.
      rewrite <- Hlow. do 3 f_equal. lia.
    + exists prevWords, nextWords. split; [|split].
      * do 2 f_equal.
        replace (Z.to_nat (Z.of_nat wi + skip st + Z.of_nat (length word)
                           - (Z.of_nat wi + skip st))) with (length word) by lia.
        apply take_drop_app_le. lia.
      * destruct (context >? 0); [|injection Hprev as <-; constructor].
        eapply findPrevWords_plain; eauto.
      * destruct (context >? 0); [|injection Hnxt as <-; constructor].
        eapply findNextWords_plain; eauto.
  - (* a substring of a longer word *)
    apply obind_Ok in H. destruct H as [buffer' [Hbuffer' H]].
    injection H as <-.
    apply sliceFrom_Ok in Hbuffer'. destruct Hbuffer' as [Hlen ->].
    unfold len in Hlen. rewrite Hbuf, length_drop in Hlen.
    unfold scanRecord, len. cbn [buffer skip found elems].
    split; [lia|]. split; [rewrite Hbuf, drop_drop; f_equal; lia|].
    split; [exact Hfound|]. split; [exact Hasc | lia].
  - (* the bounds error *)
    injection H as <-. auto.
Qed.

Lemma scanLoop_record (fuel : nat) (st : scanState) (matches : list hit) :
  scanRecord ts i full word st ->
  scanLoop fuel ts (Z.of_nat i) word context st = Ok matches ->
  Forall (reported ts i (elems full) word) matches /\
  ascendingFrom (Z.of_nat (length word)) 0 (map fst matches).
Proof.
  revert st. induction fuel as [|fuel IH]; intros st Hinv H; [discriminate|].
  cbn [scanLoop] in H. apply obind_Ok in H. destruct H as [next [Hstep H]].
  pose proof (scanStep_record _ _ Hinv Hstep) as Hnext.
  destruct next as [st'|ms].
  - eapply IH; eauto.
  - now injection H as <-.
Qed.

End Record.

Lemma scanBuffer_record (ts : TextSearcher) (word : list byte) (context : Z)
    (i : nat) (matches : list hit) :
  scanBuffer ts word context i = Ok matches ->
  exists full, fileBuffers ts !! i = Some full /\
    Forall (reported ts i (elems full) word) matches /\
    ascendingFrom (Z.of_nat (length word)) 0 (map fst matches).
Proof.
  unfold scanBuffer. intros H. inv_bind H full Hfull.
  apply buffer_at_Ok in Hfull. destruct Hfull as [_ Hfull].
  rewrite Nat2Z.id in Hfull. exists full. split; [exact Hfull|].
  eapply scanLoop_record; eauto.
  unfold scanRecord. cbn [skip buffer found map].
  split; [pose proof (len_nonneg full); lia|]. split; [now rewrite drop_0|].
  split; [constructor|]. cbn. split; [exact I | lia].
Qed.

(** Every match that [Search] records for a buffer stands in that buffer
    between two bytes that are no word characters: the byte after the
    [len(word)] bytes at its offset, and the byte before them unless the match
    starts the first buffer.  When the buffer and the word are ASCII, those
    bytes are the search word up to case; on other text the lower-case copy
    that is searched can be longer or shorter than the buffer, and its
    offsets are not offsets of the buffer. *)
Theorem Search_reports_whole_words (ts ts' : TextSearcher) (word : list byte)
    (context : Z) (mss : list (list hit)) (i : nat) (ms : list hit) (h : hit) :
  SearchTrace ts word context = Ok (ts', mss) ->
  mss !! i = Some ms -> In h ms ->
  exists full, fileBuffers ts' !! i = Some full /\
    0 <= fst h /\
    fst h + Z.of_nat (length word) <= len full /\
    wholeWordIn (elems full) i (fst h) (length word) /\
    (asciiOnly (elems full) -> asciiOnly word ->
     ToLower (term (elems full) (fst h) (length word)) = ToLower word).
Proof.
  intros Htrace Hi Hh.
  destruct (SearchTrace_Ok _ _ _ _ _ Htrace) as [_ [_ Hscan]].
  destruct (scanBuffer_record _ _ _ _ _ (Hscan _ _ Hi)) as [full [Hfull [Hall _]]].
  rewrite Forall_forall in Hall.
  destruct (Hall h ltac:(now apply list_elem_of_In)) as [Hex [H0 [Hlen [Hlow _]]]].
  destruct (isExactWord_true _ _ _ _ Hex) as [full' [Hfull' Hwhole]].
  rewrite Hfull in Hfull'. injection Hfull' as <-.
  exists full. unfold len. auto.
Qed.

Lemma Search_reports_whole_words_witness :
  exists full, fileBuffers (exampleSearcher casingFile 0) !! 0%nat = Some full /\
    0 <= fst (10, str "foo") /\
    fst (10, str "foo") + Z.of_nat (length (str "fOO")) <= len full /\
    wholeWordIn (elems full) 0 (fst (10, str "foo")) (length (str "fOO")) /\
    (asciiOnly (elems full) -> asciiOnly (str "fOO") ->
     ToLower (term (elems full) (fst (10, str "foo")) (length (str "fOO")))
     = ToLower (str "fOO")).
Proof.
  exact (Search_reports_whole_words
           (valueOr (mkTextSearcher 0 []) (NewSearcher casingFile))
           (exampleSearcher casingFile 0) (str "fOO") 0
           [[(2, str "Foo"); (10, str "foo"); (20, str "FOO")]] 0
           [(2, str "Foo"); (10, str "foo"); (20, str "FOO")] (10, str "foo")
           ltac:(vm_compute; reflexivity) ltac:(reflexivity)
           ltac:(right; left; reflexivity)).
Defined.

(** The matches of one buffer are recorded from left to right and do not
    overlap: every offset is at least the length of the word after the one
    before it. *)
Theorem matches_in_scan_order (ts ts' : TextSearcher) (word : list byte)
    (context : Z) (mss : list (list hit)) (i : nat) (ms : list hit) :
  SearchTrace ts word context = Ok (ts', mss) ->
  mss !! i = Some ms ->
  ascendingFrom (Z.of_nat (length word)) 0 (map fst ms).
Proof.
  intros Htrace Hi.
  destruct (SearchTrace_Ok _ _ _ _ _ Htrace) as [_ [_ Hscan]].
  destruct (scanBuffer_record _ _ _ _ _ (Hscan _ _ Hi)) as [full [_ [_ Hasc]]].
  exact Hasc.
Qed.

Lemma matches_in_scan_order_witness :
  ascendingFrom (Z.of_nat (length (str "foo"))) 0
                (map fst [(2, str "Foo"); (10, str "foo"); (20, str "FOO")]).
Proof.
  exact (matches_in_scan_order
           (valueOr (mkTextSearcher 0 []) (NewSearcher casingFile))
           (exampleSearcher casingFile 0) (str "foo") 0
           [[(2, str "Foo"); (10, str "foo"); (20, str "FOO")]] 0
           [(2, str "Foo"); (10, str "foo"); (20, str "FOO")]
           ltac:(vm_compute; reflexivity) ltac:(reflexivity)).
Defined.

(** ** Line breaks in the output *)

Lemma lowerByte_space (b : byte) : isSpace (lowerByte b) = isSpace b.
Proof. destruct b; reflexivity. Qed.

Lemma lowerByte_SP (b : byte) : lowerByte b = SP -> b = SP.
Proof. destruct b; cbv; intros H; try discriminate H; reflexivity. Qed.

(** ASCII text that is the word up to case has the white space of the
    word. *)
Lemma ToLower_plain (t w : list byte) :
  asciiOnly t -> asciiOnly w ->
  ToLower t = ToLower w -> Forall plainByte w -> Forall plainByte t.
Proof.
  intros Ht Hw. rewrite (ToLower_ascii t Ht), (ToLower_ascii w Hw). clear Ht Hw.
  revert w. induction t as [|c t IH]; intros [|d w] H Hw; try discriminate;
    [constructor|].
  cbn [map] in H. injection H as Hc Ht.
  inversion Hw as [|? ? Hd Hw']; subst. constructor; [|now apply (IH w)].
  intros Hs. apply lowerByte_SP.
  rewrite <- lowerByte_space, Hc, lowerByte_space in Hs.
  rewrite Hc, (Hd Hs). reflexivity.
Qed.

(** The buffers that a [Search] on an ASCII searcher scans are ASCII: the
    chunks are as they were, and every fence is made of bytes of its two
    neighbours and of the spare room of the right one. *)
Lemma fillFenceposts_ascii (ts ts' : TextSearcher) (context : Z) (i : nat)
    (full : slice) :
  asciiSearcher ts -> fillFenceposts ts context = Ok ts' ->
  fileBuffers ts' !! i = Some full -> asciiOnly (elems full).
Proof.
  intros Hts Hfill Hfull. unfold asciiSearcher in Hts.
  rewrite Forall_lookup in Hts.
  destruct (fillFenceposts_Ok _ _ _ Hfill) as [_ [Hlen [Heven Hodd]]].
  pose proof (lookup_lt_Some _ _ _ Hfull) as Hlt. rewrite Hlen in Hlt.
  destruct (Nat.odd i) eqn:Hpar.
  - destruct (Hodd i Hpar Hlt) as [l [r [Hl [Hr Hf]]]].
    rewrite Hfull in Hf. injection Hf as ->.
    apply Hts in Hl, Hr. apply asciiOnly_app in Hl. destruct Hl as [Hl _].
    unfold fenceOf. apply asciiOnly_app.
    split; [now apply asciiOnly_drop | now apply asciiOnly_take].
  - specialize (Heven i Hpar). rewrite Hfull in Heven.
    destruct (fileBuffers ts !! i) as [c|] eqn:Hc; [|discriminate].
    injection Heven as ->. apply Hts in Hc. now apply asciiOnly_app in Hc.
Qed.

(** On an ASCII searcher, when the search word is ASCII and holds no white
    space but spaces, neither does any string that [Search] returns: the line
    breaks and tabs of the file around a match come out as single spaces
    between the context words. *)
Theorem Search_output_has_no_line_breaks (ts ts' : TextSearcher)
    (word : list byte) (context : Z) (res : list (list byte)) :
  asciiSearcher ts -> asciiOnly word -> Forall plainByte word ->
  Search ts word context = Ok (ts', res) ->
  Forall (Forall plainByte) res.
Proof.
  intros Hts Hwa Hword Hsearch.
  apply Search_SearchTrace in Hsearch. destruct Hsearch as [mss [Htrace ->]].
  destruct (SearchTrace_Ok _ _ _ _ _ Htrace) as [Hfill [_ Hscan]].
  apply Forall_forall. intros r Hr.
  apply list_elem_of_In, in_map_iff in Hr. destruct Hr as [h [<- Hh]].
  apply in_concat in Hh. destruct Hh as [ms [Hms Hh]].
  apply list_elem_of_In, list_elem_of_lookup in Hms. destruct Hms as [i Hi].
  destruct (scanBuffer_record _ _ _ _ _ (Hscan _ _ Hi)) as [full [Hfull [Hall _]]].
  pose proof (fillFenceposts_ascii _ _ _ _ _ Hts Hfill Hfull) as Hfa.
  rewrite Forall_forall in Hall.
  destruct (Hall h ltac:(now apply list_elem_of_In))
    as [_ [_ [_ [Hlow [prevWords [nextWords [-> [Hp Hn]]]]]]]].
  apply Forall_app. split; [exact Hp|]. apply Forall_app. split; [|exact Hn].
  apply (ToLower_plain _ word); [|exact Hwa | exact (Hlow Hfa Hwa) | exact Hword].
  unfold term. now apply asciiOnly_take, asciiOnly_drop.
Qed.

Lemma Search_output_has_no_line_breaks_witness :
  Forall (Forall plainByte) [str "one two three foo four five six"].
Proof.
  exact (Search_output_has_no_line_breaks
           (valueOr (mkTextSearcher 0 []) (NewSearcher linesFile))
           (exampleSearcher linesFile 3) (str "foo") 3
           [str "one two three foo four five six"]
           ltac:(vm_compute; repeat constructor)
           ltac:(vm_compute; reflexivity)
           ltac:(repeat constructor; discriminate)
           ltac:(vm_compute; reflexivity)).
Defined.

(** ** A context width that does not fit *)




(** ** A word that is not in the file *)

Lemma Index_None_iff (s sep : list byte) :
  Index s sep = None <-> forall p, HasPrefix (drop p s) sep = false.
Proof.
  induction s as [|c s IH]; cbn [Index].
  - destruct (HasPrefix [] sep) eqn:E; split; intros H; try discriminate.
    + specialize (H 0%nat). cbn in H. congruence.
    + intros p. now rewrite drop_nil.
    + reflexivity.
  - destruct (HasPrefix (c :: s) sep) eqn:E.
    + split; [discriminate|]. intros H. specialize (H 0%nat). cbn in H. congruence.
    + destruct (Index s sep) as [m|] eqn:Em; cbn [option_map].
      * split; [discriminate|]. intros H.
        assert (Hs : forall p, HasPrefix (drop p s) sep = false)
          by (intros p; apply (H (S p))).
        apply IH in Hs. discriminate.
      * split; [|reflexivity]. intros _ [|p]; [exact E|].
        cbn [drop]. now apply IH.
Qed.

Lemma HasPrefix_take (m : nat) (y sep : list byte) :
  HasPrefix (take m y) sep = true -> HasPrefix y sep = true.
Proof.
  rewrite !HasPrefix_spec. intros H.
  assert (Hlen : (length sep <= m)%nat).
  { rewrite <- H at 1. rewrite !length_take. lia. }
  rewrite take_take in H. now rewrite Nat.min_l in H by exact Hlen.
Qed.

(** A piece of a text holds no word that the text does not hold. *)
Lemma Index_None_sub (s sep : list byte) (n k : nat) :
  Index s sep = None -> Index (take n (drop k s)) sep = None.
Proof.
  rewrite !Index_None_iff. intros H p.
  destruct (HasPrefix (drop p (take n (drop k s))) sep) eqn:E; [|reflexivity].
  rewrite skipn_firstn_comm in E. apply HasPrefix_take in E.
  rewrite drop_drop in E. now rewrite H in E.
Qed.

Lemma scanBuffer_absent (ts : TextSearcher) (word : list byte) (context : Z)
    (i : nat) (full : slice) :
  fileBuffers ts !! i = Some full ->
  Index (ToLower (elems full)) (ToLower word) = None ->
  scanBuffer ts word context i = Ok [].
Proof.
  intros Hfull HI. unfold scanBuffer. rewrite (buffer_at_nat _ _ _ Hfull).
  cbn [obind scanLoop]. unfold scanStep. cbn [buffer found]. now rewrite HI.
Qed.

Lemma scanAll_absent (ts : TextSearcher) (word : list byte) (context : Z)
    (idx : list nat) :
  (forall i, In i idx -> scanBuffer ts word context i = Ok []) ->
  scanAll ts word context idx = Ok (map (fun _ => []) idx).
Proof.
  induction idx as [|i idx IH]; intros H; [reflexivity|].
  cbn [scanAll map]. rewrite (H i) by now left. cbn [obind].
  rewrite IH by (intros k Hk; apply H; now right). reflexivity.
Qed.

Lemma concat_nils {A B : Type} (idx : list A) :
  concat (map (fun _ => @nil B) idx) = [].
Proof. induction idx as [|i idx IH]; [reflexivity | exact IH]. Qed.

(** The fence between two chunks, when its half-width fits both, is the
    text of the file around the boundary. *)
Lemma fence_is_file_text (file : list byte) (j : nat) (W : nat) :
  length (chunkOf file j) = chunkLen ->
  (W <= chunkLen)%nat -> (W <= length (chunkOf file (j + 1)))%nat ->
  drop (chunkLen - W) (chunkOf file j) ++ take W (chunkOf file (j + 1))
  = take (W + W) (drop ((j + 1) * chunkLen - W) file).
Proof.
  intros Hfull HW Hr. unfold chunkOf in *.
  assert (E1 : drop (chunkLen - W) (take chunkLen (drop (j * chunkLen) file))
               = take W (drop ((j + 1) * chunkLen - W) file)).
  { rewrite skipn_firstn_comm, drop_drop. f_equal; [lia | f_equal; nia]. }
  assert (E2 : take W (take chunkLen (drop ((j + 1) * chunkLen) file))
               = take W (drop W (drop ((j + 1) * chunkLen - W) file))).
  { rewrite take_take, Nat.min_l by lia. rewrite drop_drop. do 2 f_equal. nia. }
  rewrite E1, E2. apply take_take_drop.
Qed.

(** The buffers that the goroutines of a first [Search] scan, when the fence
    width fits every chunk: the chunks, and between them the text of the file
    around each boundary. *)
Lemma fresh_fill (file : list byte) (ts : TextSearcher) (k : Z) :
  NewSearcher file = Ok ts ->
  0 <= k * 20 ->
  (forall j, (j < numChunks file)%nat ->
             k * 20 <= Z.of_nat (length (chunkOf file j))) ->
  exists ts', fillFenceposts ts k = Ok ts' /\
    length (fileBuffers ts') = (2 * numChunks file - 1)%nat /\
    (forall j, (j < numChunks file)%nat ->
       elems <$> fileBuffers ts' !! (2 * j)%nat = Some (chunkOf file j)) /\
    (forall j, (j + 1 < numChunks file)%nat ->
       elems <$> fileBuffers ts' !! (2 * j + 1)%nat
       = Some (take (Z.to_nat (k * 20) + Z.to_nat (k * 20))
                    (drop ((j + 1) * chunkLen - Z.to_nat (k * 20)) file))).
Proof.
  intros Hnew Hk Hfit.
  destruct (NewSearcher_buffers _ _ Hnew) as [Hmax [Hlen [Hpos [Heven _]]]].
  assert (Hsmall : k * 20 <= chunkSize).
  { pose proof (Hfit 0%nat ltac:(lia)).
    destruct (chunkOf_bounds file 0 ltac:(lia)) as [Hb _]. lia. }
  assert (Hwrap : wrap64 (k * maxWordSizeInBytes ts) = k * 20).
  { rewrite Hmax. apply wrap64_small. unfold chunkSize in Hsmall. lia. }
  destruct (fillFenceposts_fits ts k) as [ts' Hfill].
  { rewrite Hlen. replace (2 * numChunks file - 1)%nat
      with (2 * (numChunks file - 1) + 1)%nat by lia. apply odd_double_1. }
  { intros e c He Hc. rewrite Hwrap.
    destruct (even_double _ He) as [j ->].
    pose proof (lookup_lt_Some _ _ _ Hc) as Hlt. rewrite Hlen in Hlt.
    rewrite (Heven j) in Hc by lia. injection Hc as <-.
    unfold len, chunkSlice. cbn [elems]. split; [lia | apply Hfit; lia]. }
  exists ts'. split; [exact Hfill|].
  destruct (fillFenceposts_Ok _ _ _ Hfill) as [_ [Hlen' [Hkeep Hodd]]].
  split; [congruence|]. split.
  - intros j Hj. rewrite (Hkeep _ (odd_double_0 j)), (Heven j Hj). reflexivity.
  - intros j Hj.
    destruct (Hodd (2 * j + 1)%nat (odd_double_1 j)) as [l [r [Hl [Hr Hf]]]]; [lia|].
    replace (2 * j + 1 - 1)%nat with (2 * j)%nat in Hl by lia.
    replace (2 * j + 1 + 1)%nat with (2 * (j + 1))%nat in Hr by lia.
    rewrite (Heven j) in Hl by lia. rewrite (Heven (j + 1)%nat) in Hr by lia.
    injection Hl as <-. injection Hr as <-.
    rewrite Hf, Hwrap. f_equal. unfold fenceOf, len, chunkSlice. cbn [elems spare].
    destruct (chunkOf_bounds file j ltac:(lia)) as [_ Hfull].
    specialize (Hfull Hj). rewrite <- chunkSize_nat in Hfull, Hsmall.
    pose proof (Hfit (j + 1)%nat ltac:(lia)) as Hr.
    rewrite take_app_le by lia.
    rewrite <- (fence_is_file_text file j (Z.to_nat (k * 20))) by lia.
    do 2 f_equal. lia.
Qed.

(** A word that the file does not hold, in any casing, is not found: when
    the fence width fits every chunk, [Search] returns the empty list, and
    does not panic. *)
Theorem Search_absent_word (file word : list byte) (ts : TextSearcher) (k : Z) :
  asciiOnly file -> asciiOnly word ->
  NewSearcher file = Ok ts ->
  0 <= k * 20 ->
  Forall (fun c => k * 20 <= Z.of_nat (length c)) (chunksOf ts) ->
  Index (ToLower file) (ToLower word) = None ->
  exists ts', Search ts word k = Ok (ts', []).
Proof.
  intros Hfa _ Hnew Hk Hall Habsent.
  rewrite (NewSearcher_chunksOf _ _ Hnew) in Hall. rewrite Forall_forall in Hall.
  destruct (fresh_fill file ts k Hnew Hk) as [ts' [Hfill [Hlen [Heven Hodd]]]].
  { intros j Hj. apply Hall. apply list_elem_of_fmap. exists j.
    split; [reflexivity|]. apply elem_of_seq. lia. }
  exists ts'. unfold Search, SearchTrace. rewrite Hfill. cbn [obind].
  rewrite scanAll_absent.
  - cbn [obind fst snd]. now rewrite concat_nils.
  - intros i Hi. apply in_seq in Hi. rewrite Hlen in Hi.
    destruct (lookup_lt_is_Some_2 (fileBuffers ts') i) as [full Hfull]; [lia|].
    apply (scanBuffer_absent _ _ _ _ full Hfull).
    destruct (Nat.odd i) eqn:Hpar.
    + destruct (odd_double _ Hpar) as [j ->].
      pose proof (Hodd j ltac:(lia)) as Hf. rewrite Hfull in Hf.
      injection Hf as ->.
      rewrite ToLower_take, ToLower_drop by (try apply asciiOnly_drop; exact Hfa).
      now apply Index_None_sub.
    + destruct (even_double _ Hpar) as [j ->].
      pose proof (Heven j ltac:(lia)) as Hc. rewrite Hfull in Hc.
      injection Hc as ->. unfold chunkOf.
      rewrite ToLower_take, ToLower_drop by (try apply asciiOnly_drop; exact Hfa).
      now apply Index_None_sub.
Qed.

Lemma Search_absent_word_witness :
  exists ts',
    Search (valueOr (mkTextSearcher 0 []) (NewSearcher boundaryFile)) (str "Nine") 1
    = Ok (ts', []).
Proof.
  exact (Search_absent_word boundaryFile (str "Nine")
           (valueOr (mkTextSearcher 0 []) (NewSearcher boundaryFile)) 1
           ltac:(vm_compute; reflexivity) ltac:(vm_compute; reflexivity)
           ltac:(vm_compute; reflexivity) ltac:(lia)
           ltac:(apply Forall_forall; intros c Hc; vm_compute in Hc;
                 repeat (apply elem_of_cons in Hc; destruct Hc as [->|Hc];
                         [vm_compute; discriminate|]);
                 apply elem_of_nil in Hc; destruct Hc)
           ltac:(vm_compute; reflexivity)).
Defined.

(** ** One query after another *)

Lemma append_no_spare (s : slice) (t : list byte) :
  spare s = [] -> snd (append s t) = false.
Proof.
  intros H. unfold append. destruct t as [|c t]; [reflexivity|].
  rewrite H. reflexivity.
Qed.

Lemma leftChunksFull_agree (b b' : list slice) :
  leftChunksFull b -> length b' = length b ->
  (forall e, Nat.odd e = false -> b' !! e = b !! e) ->
  leftChunksFull b'.
Proof.
  intros Hfull Hlen Hsame e c He Hlt Hc.
  rewrite Hlen in Hlt. rewrite (Hsame e He) in Hc. eapply Hfull; eauto.
Qed.

(** With no spare room on its left, a fence goes into a new array: the loop
    body changes slot [i] and nothing else. *)
Lemma fenceStep_full_left (size : Z) (bufs bufs' : list slice) (i e : nat) :
  leftChunksFull bufs -> fenceStep size bufs i = Ok bufs' ->
  Nat.odd e = false -> bufs' !! e = bufs !! e.
Proof.
  intros Hfull H He. destruct (Nat.odd i) eqn:Hodd.
  - apply fenceStep_odd in H; [|exact Hodd].
    destruct H as [l [r [tail [head [Hl [Hr [Ht [Hh ->]]]]]]]].
    destruct (odd_neighbours i Hodd) as [Hp [_ Hpos]].
    apply sliceFrom_Ok in Ht. destruct Ht as [_ ->].
    rewrite append_no_spare.
    + apply list_lookup_insert_ne. intros ->. congruence.
    + cbn [spare]. apply (Hfull (i - 1)%nat l Hp); [|exact Hl].
      apply lookup_lt_Some in Hr. lia.
  - rewrite fenceStep_even in H by exact Hodd. now injection H as <-.
Qed.

Lemma fenceLoop_full_left (size : Z) (idx : list nat) (bufs bufs' : list slice)
    (e : nat) :
  leftChunksFull bufs -> fenceLoop size idx bufs = Ok bufs' ->
  Nat.odd e = false -> bufs' !! e = bufs !! e.
Proof.
  revert bufs. induction idx as [|i idx IH]; intros bufs Hfull H He; cbn in H.
  - now injection H as <-.
  - inv_bind H bufs1 Hstep.
    rewrite (IH bufs1); [eapply fenceStep_full_left; eauto | | exact H | exact He].
    eapply leftChunksFull_agree; [exact Hfull | eapply fenceStep_length; eauto |].
    intros e' He'. eapply fenceStep_full_left; eauto.
Qed.

Lemma insert_agree (l1 l2 : list slice) (i k : nat) (x : slice) :
  length l1 = length l2 -> (k <> i -> l1 !! k = l2 !! k) ->
  <[ i := x ]> l1 !! k = <[ i := x ]> l2 !! k.
Proof.
  intros Hlen H. destruct (decide (k = i)) as [->|Hne].
  - destruct (Nat.lt_ge_cases i (length l1)) as [Hlt|Hge].
    + rewrite !list_lookup_insert_eq by lia. reflexivity.
    + rewrite !lookup_ge_None_2 by (rewrite length_insert; lia). reflexivity.
  - rewrite !list_lookup_insert_ne by congruence. auto.
Qed.

(** The first loop of [Search] reads the even slots only and writes every odd
    slot: what it leaves depends on the even slots alone. *)
Lemma fenceLoop_even_determined (size : Z) (m a : nat) (b1 b2 : list slice) :
  length b1 = length b2 ->
  (forall k, Nat.odd k = false \/ (k < a)%nat -> b1 !! k = b2 !! k) ->
  (a + m)%nat = length b1 ->
  fenceLoop size (seq a m) b1 = fenceLoop size (seq a m) b2.
Proof.
  revert a b1 b2. induction m as [|m IH]; intros a b1 b2 Hlen Hsame Ham.
  - cbn. f_equal. apply list_eq. intros k.
    destruct (Nat.lt_ge_cases k a) as [Hk|Hk]; [apply Hsame; now right|].
    rewrite !lookup_ge_None_2 by lia. reflexivity.
  - cbn [seq fenceLoop]. destruct (Nat.odd a) eqn:Hodd.
    + destruct (odd_neighbours a Hodd) as [Hp [Hs Hpos]].
      unfold fenceStep. rewrite Hodd.
      assert (E1 : buffer_at b1 (Z.of_nat a - 1) = buffer_at b2 (Z.of_nat a - 1)).
      { unfold buffer_at. replace (Z.to_nat (Z.of_nat a - 1)) with (a - 1)%nat by lia.
        now rewrite (Hsame (a - 1)%nat) by now left. }
      assert (E2 : buffer_at b1 (Z.of_nat a + 1) = buffer_at b2 (Z.of_nat a + 1)).
      { unfold buffer_at. replace (Z.to_nat (Z.of_nat a + 1)) with (a + 1)%nat by lia.
        now rewrite (Hsame (a + 1)%nat) by now left. }
      rewrite E1, E2.
      destruct (buffer_at b2 (Z.of_nat a - 1)) as [l| | |]; cbn [obind]; try reflexivity.
      destruct (buffer_at b2 (Z.of_nat a + 1)) as [r| | |]; cbn [obind]; try reflexivity.
      destruct (sliceFrom l _) as [tail| | |]; cbn [obind]; try reflexivity.
      destruct (sliceTo r _) as [head| | |]; cbn [obind]; try reflexivity.
      destruct (append tail (elems head)) as [fence inPlace].
      apply IH.
      * destruct inPlace; rewrite !length_insert; exact Hlen.
      * intros k Hk. apply insert_agree.
        { destruct inPlace; rewrite ?length_insert; exact Hlen. }
        intros Hne.
        assert (Hb : b1 !! k = b2 !! k) by (apply Hsame; destruct Hk; [now left | right; lia]).
        destruct inPlace; [|exact Hb]. apply insert_agree; auto.
      * destruct inPlace; rewrite !length_insert; lia.
    + rewrite !fenceStep_even by exact Hodd. cbn [obind]. apply IH; [exact Hlen | | lia].
      intros k [Hk|Hk]; [apply Hsame; now left|].
      destruct (decide (k = a)) as [->|Hne]; apply Hsame; [now left | right; lia].
Qed.

Lemma NewSearcher_leftChunksFull (file : list byte) (ts : TextSearcher) :
  NewSearcher file = Ok ts -> leftChunksFull (fileBuffers ts).
Proof.
  intros Hnew e c He Hlt Hc.
  destruct (NewSearcher_buffers _ _ Hnew) as [_ [Hlen [_ [Heven _]]]].
  rewrite Hlen in Hlt. destruct (even_double _ He) as [j ->].
  rewrite (Heven j) in Hc by lia. injection Hc as <-.
  destruct (chunkOf_bounds file j ltac:(lia)) as [_ Hfull].
  specialize (Hfull ltac:(lia)). rewrite <- chunkSize_nat in Hfull.
  unfold chunkSlice. cbn [spare].
  replace (chunkLen - length (chunkOf file j))%nat with 0%nat by lia. reflexivity.
Qed.

(** Queries do not get in each other's way: on the searcher that a [Search]
    has left behind, a further [Search] gives what it gives on the fresh
    searcher, the same matches and the same searcher afterwards.  The first
    loop builds every fence anew from the chunks, and on a searcher made by
    [NewSearcher] it writes to no chunk. *)
Theorem queries_do_not_interfere (file : list byte) (ts ts1 : TextSearcher)
    (w1 : list byte) (k1 : Z) (r1 : list (list byte)) (w2 : list byte) (k2 : Z) :
  NewSearcher file = Ok ts ->
  Search ts w1 k1 = Ok (ts1, r1) ->
  Search ts1 w2 k2 = Search ts w2 k2.
Proof.
  intros Hnew Hsearch.
  apply Search_SearchTrace in Hsearch. destruct Hsearch as [mss [Htrace _]].
  apply SearchTrace_Ok in Htrace. destruct Htrace as [Hfill _].
  assert (E : fillFenceposts ts1 k2 = fillFenceposts ts k2).
  { unfold fillFenceposts in *. inv_bind Hfill bufs1 Hloop. injection Hfill as <-.
    cbn [maxWordSizeInBytes fileBuffers].
    pose proof (fenceLoop_length _ _ _ _ Hloop) as Hlen. rewrite Hlen.
    rewrite (fenceLoop_even_determined _ (length (fileBuffers ts)) 0
               bufs1 (fileBuffers ts)); [reflexivity | exact Hlen | | lia].
    intros k [Hk|Hk]; [|lia].
    eapply fenceLoop_full_left; eauto. now apply (NewSearcher_leftChunksFull file). }
  unfold Search, SearchTrace. now rewrite E.
Qed.

Lemma queries_do_not_interfere_witness :
  Search (exampleSearcher boundaryFile 1) (str "three") 0
  = Search (valueOr (mkTextSearcher 0 []) (NewSearcher boundaryFile)) (str "three") 0.
Proof.
  exact (queries_do_not_interfere boundaryFile
           (valueOr (mkTextSearcher 0 []) (NewSearcher boundaryFile))
           (exampleSearcher boundaryFile 1) (str "foo") 1
           [str "foo two"; str "foo two"] (str "three") 0
           ltac:(vm_compute; reflexivity) ltac:(vm_compute; reflexivity)).
Defined.

Lemma Search_finishes_witness :
  finishes (Search (valueOr (mkTextSearcher 0 []) (NewSearcher linesFile))
                   (str "foo") 3).
Proof.
  exact (Search_finishes (valueOr (mkTextSearcher 0 []) (NewSearcher linesFile))
           (str "foo") 3 ltac:(vm_compute; discriminate)).
Defined.

(** ** What a scan finds *)

Lemma lowerByte_wordCharacter (b : byte) :
  isWordCharacter (lowerByte b) = isWordCharacter b.
Proof. destruct b; reflexivity. Qed.

(** [Index] returns the first occurrence: it is at or before any place
    where the separator stands. *)
Lemma Index_first (s sep : list byte) (q : nat) :
  take (length sep) (drop q s) = sep ->
  exists n, Index s sep = Some n /\ (n <= q)%nat.
Proof.
  revert q. induction s as [|c s IH]; intros q H.
  - rewrite drop_nil in H. apply HasPrefix_spec in H.
    exists 0%nat. cbn [Index]. rewrite H. split; [reflexivity | lia].
  - cbn [Index]. destruct (HasPrefix (c :: s) sep) eqn:E.
    + exists 0%nat. split; [reflexivity | lia].
    + destruct q as [|q].
      * rewrite drop_0 in H. apply HasPrefix_spec in H. congruence.
      * cbn [drop] in H. destruct (IH q H) as [n [Hn Hle]].
        exists (S n). rewrite Hn. split; [reflexivity | lia].
Qed.

(** What one turn of the scan does to [matches[i]]: nothing, or one match
    more at its end. *)
Lemma scanStep_found (ts : TextSearcher) (i : Z) (word : list byte) (context : Z)
    (st : scanState) (next : scanNext) :
  scanStep ts i word context st = Ok next ->
  match next with
  | Continue st' => exists l, found st' = found st ++ l
  | Break matches => matches = found st
  end.
Proof.
  unfold scanStep. intros H.
  destruct (Index _ _) as [wi|]; [|now injection H as <-].
  destruct (isExactWord _ _ _ _) as [[|]| | |]; try discriminate.
  - inv_bind H prevWords Hprev. inv_bind H nextWords Hnxt.
    inv_bind H full Hfull. inv_bind H term' Hterm. inv_bind H buffer' Hbuffer'.
    injection H as <-. cbn [found]. eauto.
  - inv_bind H buffer' Hbuffer'. injection H as <-. cbn [found].
    exists []. now rewrite app_nil_r.
  - now injection H as <-.
Qed.

(** A match once recorded stays in [matches[i]]. *)
Lemma scanLoop_found (fuel : nat) (ts : TextSearcher) (i : Z) (word : list byte)
    (context : Z) (st : scanState) (matches : list hit) (h : hit) :
  scanLoop fuel ts i word context st = Ok matches ->
  In h (found st) -> In h matches.
Proof.
  revert st. induction fuel as [|fuel IH]; intros st H Hh; [discriminate|].
  cbn [scanLoop] in H. inv_bind H next Hstep.
  apply scanStep_found in Hstep. destruct next as [st'|ms].
  - destruct Hstep as [l Hl]. apply (IH st' H). rewrite Hl.
    apply in_or_app. now left.
  - injection H as <-. now rewrite Hstep.
Qed.

Section Found.

Variable ts : TextSearcher.
Variable i : nat.
Variable full : slice.
Hypothesis Hfull : fileBuffers ts !! i = Some full.

Variable word : list byte.
Variable context : Z.

Hypothesis Hascii : asciiOnly (elems full).
Hypothesis Hword : asciiOnly word.

(** The word is made of word characters, and stands whole at offset [p] of
    the buffer, in some casing. *)
Hypothesis Hchars : Forall (fun b => isWordCharacter b = true) word.
Variable p : Z.
Hypothesis Hp : p + 1 <= chunkSize.
Hypothesis Hocc : ToLower (term (elems full) p (length word)) = ToLower word.
Hypothesis Hwhole : wholeWordIn (elems full) i p (length word).

(** A buffer other than the first does not start with the word: the check
    of a candidate at its offset 0 ends the scan. *)
Hypothesis Hstart :
  i <> 0%nat -> ToLower (take (length word) (elems full)) <> ToLower word.

Lemma occurrence_bounds :
  0 <= p /\ p + Z.of_nat (length word) < Z.of_nat (length (elems full)).
Proof.
  destruct Hwhole as [[after [Ha _]] Hb].
  apply lookup_lt_Some in Ha. split; [destruct Hb as [[_ ->]|[? _]]; lia|].
  destruct Hb as [[_ ->]|[? _]]; lia.
Qed.

Lemma occurrence_lowered :
  take (length (ToLower word)) (drop (Z.to_nat p) (ToLower (elems full)))
  = ToLower word.
Proof.
  rewrite (ToLower_length word Hword).
  rewrite <- (ToLower_drop _ _ Hascii).
  rewrite <- (ToLower_take _ _ (asciiOnly_drop _ _ Hascii)).
  exact Hocc.
Qed.

(** While the cursor has not passed [p], [bytes.Index] finds a candidate at
    [p] or before it. *)
Lemma scanBefore_candidate (st : scanState) :
  scanBefore full p st ->
  exists wi : nat,
    Index (ToLower (elems (buffer st))) (ToLower word) = Some wi /\
    Z.of_nat wi + skip st <= p.
Proof.
  intros [Hskip Hbuf]. rewrite Hbuf, (ToLower_drop _ _ Hascii).
  destruct (Index_first (drop (Z.to_nat (skip st)) (ToLower (elems full)))
              (ToLower word) (Z.to_nat p - Z.to_nat (skip st))) as [wi [HI Hle]].
  - rewrite drop_drop.
    replace (Z.to_nat (skip st) + (Z.to_nat p - Z.to_nat (skip st)))%nat
      with (Z.to_nat p) by lia.
    exact occurrence_lowered.
  - exists wi. split; [exact HI | lia].
Qed.

(** A candidate before [p] ends at [p] or before it: otherwise the byte
    before [p] would be a byte of the word up to case, a word character. *)
Lemma candidate_ends_before (st : scanState) (wi : nat) :
  scanBefore full p st ->
  Index (ToLower (elems (buffer st))) (ToLower word) = Some wi ->
  Z.of_nat wi + skip st < p ->
  Z.of_nat wi + skip st + Z.of_nat (length word) <= p.
Proof.
  intros [Hskip Hbuf] HI Hlt.
  destruct (Z.le_gt_cases (Z.of_nat wi + skip st + Z.of_nat (length word)) p)
    as [|Hover]; [assumption|exfalso].
  apply Index_Some in HI. destruct HI as [_ Hpre].
  rewrite Hbuf, (ToLower_drop _ _ Hascii), drop_drop in Hpre.
  rewrite (ToLower_ascii _ Hascii), (ToLower_ascii _ Hword), length_map in Hpre.
  destruct Hwhole as [_ [[_ Hp0]|[Hp1 [before [Hb Hnw]]]]]; [lia|].
  set (k := Z.to_nat (p - 1 - (Z.of_nat wi + skip st))).
  assert (Hk : (k < length word)%nat) by lia.
  destruct (lookup_lt_is_Some_2 word k Hk) as [w Hw].
  assert (Hlook : take (length word)
                    (drop (Z.to_nat (skip st) + wi) (map lowerByte (elems full))) !! k
                  = Some (lowerByte before)).
  { rewrite lookup_take_lt by exact Hk. rewrite lookup_drop.
    replace (Z.to_nat (skip st) + wi + k)%nat with (Z.to_nat (p - 1)) by lia.
    rewrite list_lookup_fmap, Hb. reflexivity. }
  rewrite Hpre, list_lookup_fmap, Hw in Hlook. injection Hlook as Hlow.
  rewrite Forall_forall in Hchars.
  pose proof (Hchars w ltac:(eapply list_elem_of_lookup_2; eauto)) as Hwc.
  rewrite <- lowerByte_wordCharacter, Hlow, lowerByte_wordCharacter in Hwc.
  congruence.
Qed.

(** The check accepts the candidate at [p]. *)
Lemma occurrence_accepted : isExactWord ts (Z.of_nat i) word p = Ok true.
Proof.
  destruct Hwhole as [[after [Ha Hna]] [[Hi0 Hp0]|[Hp1 [before [Hb Hnb]]]]].
  - subst. unfold isExactWord. cbn [Z.of_nat Z.eqb andb].
    change 0 with (Z.of_nat 0) at 1. rewrite (buffer_at_nat _ _ _ Hfull).
    cbn [obind]. rewrite Z.add_0_l in Ha.
    rewrite (proj2 (byte_at_Ok full _ after)).
    + cbn [obind]. now rewrite Hna.
    + split; [|exact Ha]. apply lookup_lt_Some in Ha. unfold len. lia.
  - rewrite (isExactWord_inside ts i full Hfull word p before after)
      by (assumption || lia).
    now rewrite Hnb, Hna.
Qed.

(** No candidate at [p] or before it makes the check answer with its
    error. *)
Lemma candidate_checked (st : scanState) (wi : nat) (e : error) :
  scanBefore full p st ->
  Index (ToLower (elems (buffer st))) (ToLower word) = Some wi ->
  Z.of_nat wi + skip st <= p ->
  isExactWord ts (Z.of_nat i) word (Z.of_nat wi + skip st) <> Fail e.
Proof.
  intros [Hskip Hbuf] HI Hle HE.
  apply isExactWord_Fail in HE. destruct HE as [_ [Hedge Hnot]].
  assert (Hwi : wi = 0%nat) by lia. assert (Hsk : skip st = 0) by lia.
  subst wi. rewrite Hsk in Hbuf. cbn [Z.to_nat] in Hbuf. rewrite drop_0 in Hbuf.
  apply Index_Some in HI. destruct HI as [_ Hpre].
  rewrite Hbuf, drop_0, (ToLower_length word Hword) in Hpre.
  rewrite <- (ToLower_take _ _ Hascii) in Hpre.
  apply Hstart; [lia | exact Hpre].
Qed.

Lemma scanLoop_finds (fuel : nat) (st : scanState) (matches : list hit) :
  scanBefore full p st ->
  scanLoop fuel ts (Z.of_nat i) word context st = Ok matches ->
  exists h, In h matches /\ fst h = p /\
            (context <= 0 -> snd h = term (elems full) p (length word)).
Proof.
  revert st. induction fuel as [|fuel IH]; intros st Hinv H; [discriminate|].
  cbn [scanLoop] in H. inv_bind H next Hstep.
  destruct (scanBefore_candidate st Hinv) as [wi [HI Hle]].
  pose proof (candidate_checked st wi) as Hchk.
  pose proof (candidate_ends_before st wi Hinv HI) as Hend.
  destruct Hinv as [Hskip Hbuf].
  assert (Hnext : forall buffer' hits,
    buffer' = mkSlice (drop (Z.to_nat (Z.of_nat wi + Z.of_nat (length word)))
                            (elems (buffer st))) (spare (buffer st)) ->
    Z.of_nat wi + skip st < p ->
    scanBefore full p (mkScan buffer' (skip st + (Z.of_nat wi + Z.of_nat (length word))) hits)).
  { intros buffer' hits -> Hlt.
    specialize (Hend Hlt). unfold scanBefore. cbn [buffer skip elems].
    split; [lia|]. rewrite Hbuf, drop_drop. f_equal. lia. }
  unfold scanStep in Hstep. rewrite HI in Hstep.
  destruct (isExactWord _ _ _ _) as [[|]|e| |] eqn:HE; try discriminate.
  - (* an exact match *)
    inv_bind Hstep prevWords Hprev. inv_bind Hstep nextWords Hnxt.
    inv_bind Hstep full' Hfull'. inv_bind Hstep term' Hterm.
    inv_bind Hstep buffer' Hbuffer'. injection Hstep as <-.
    destruct (Z.eq_dec (Z.of_nat wi + skip st) p) as [Heq|Hneq].
    + exists (p, prevWords ++ elems term' ++ nextWords).
      split; [|split; [reflexivity|]].
      * apply (scanLoop_found _ _ _ _ _ _ _ _ H). cbn [found].
        apply in_or_app. right. left. now rewrite Heq.
      * intros Hctx. cbn [snd]. destruct (Z.gtb_spec context 0); [lia|].
        injection Hprev as <-. injection Hnxt as <-.
        rewrite app_nil_r. cbn [app].
        rewrite (buffer_at_nat _ _ _ Hfull) in Hfull'. injection Hfull' as <-.
        apply slice3_Ok in Hterm. destruct Hterm as [_ [_ ->]]. cbn [elems].
        rewrite Heq. unfold term.
        replace (Z.to_nat (p + Z.of_nat (length word) - p)) with (length word) by lia.
        apply take_drop_app_le. pose proof occurrence_bounds. lia.
    + apply sliceFrom_Ok in Hbuffer'. destruct Hbuffer' as [_ Hb'].
      apply (IH _ (Hnext _ _ Hb' ltac:(lia)) H).
  - (* a substring of a longer word *)
    inv_bind Hstep buffer' Hbuffer'. injection Hstep as <-.
    destruct (Z.eq_dec (Z.of_nat wi + skip st) p) as [Heq|Hneq].
    + rewrite Heq, occurrence_accepted in HE. discriminate.
    + apply sliceFrom_Ok in Hbuffer'. destruct Hbuffer' as [_ Hb'].
      apply (IH _ (Hnext _ _ Hb' ltac:(lia)) H).
  - (* the bounds error *)
    exfalso. apply (Hchk e); [split; assumption | exact HI | exact Hle | reflexivity].
Qed.

(** When the goroutine of the buffer returns, the occurrence at [p] is among
    its matches. *)
Lemma scanBuffer_finds (matches : list hit) :
  scanBuffer ts word context i = Ok matches ->
  exists h, In h matches /\ fst h = p /\
            (context <= 0 -> snd h = term (elems full) p (length word)).
Proof.
  unfold scanBuffer. rewrite (buffer_at_nat _ _ _ Hfull). cbn [obind].
  apply scanLoop_finds. unfold scanBefore. cbn [skip buffer Z.to_nat].
  split; [pose proof occurrence_bounds; lia | now rewrite drop_0].
Qed.

End Found.

(** On ASCII text [Search] finds the word where it stands whole.  Take a
    buffer as the call scans it, a word made of word characters, and an
    offset [p] below 4096 at which the buffer holds the word, in any casing,
    between two bytes that are no word characters (or at the very start of
    the first buffer).  When the call returns, the goroutine of that buffer
    has recorded a match at [p], and without context its string is the bytes
    of the buffer at [p], in their own casing.  A buffer other than the
    first must not start with the word: the check of a candidate at its
    offset 0 answers with the error that ends the scan of the buffer. *)
Theorem Search_finds_whole_words (ts ts' : TextSearcher) (word : list byte)
    (context : Z) (mss : list (list hit)) (i : nat) (full : slice) (p : Z) :
  SearchTrace ts word context = Ok (ts', mss) ->
  fileBuffers ts' !! i = Some full ->
  asciiOnly (elems full) -> asciiOnly word ->
  Forall (fun b => isWordCharacter b = true) word ->
  p + 1 <= chunkSize ->
  ToLower (term (elems full) p (length word)) = ToLower word ->
  wholeWordIn (elems full) i p (length word) ->
  (i <> 0%nat -> ToLower (take (length word) (elems full)) <> ToLower word) ->
  exists ms h, mss !! i = Some ms /\ In h ms /\ fst h = p /\
               (context <= 0 -> snd h = term (elems full) p (length word)).
Proof.
  intros Htrace Hfull Hfa Hwa Hchars Hp Hocc Hwhole Hstart.
  destruct (SearchTrace_Ok _ _ _ _ _ Htrace) as [_ [Hlen Hscan]].
  destruct (lookup_lt_is_Some_2 mss i) as [ms Hms].
  { rewrite Hlen. eapply lookup_lt_Some; eauto. }
  destruct (scanBuffer_finds ts' i full Hfull word context Hfa Hwa Hchars p Hp
              Hocc Hwhole Hstart ms (Hscan _ _ Hms)) as [h Hh].
  exists ms, h. split; [exact Hms | exact Hh].
Qed.

Lemma Search_finds_whole_words_witness :
  exists ms h, [[]; []; [(6, str "Foo")]] !! 2%nat = Some ms /\ In h ms /\
    fst h = 6 /\
    (0 <= 0 ->
     snd h = term (elems (chunkSlice (chunkOf straddleFile 1))) 6
                  (length (str "foo"))).
Proof.
  exact (Search_finds_whole_words
           (valueOr (mkTextSearcher 0 []) (NewSearcher straddleFile))
           (exampleSearcher straddleFile 0) (str "foo") 0
           [[]; []; [(6, str "Foo")]] 2 (chunkSlice (chunkOf straddleFile 1)) 6
           ltac:(vm_compute; reflexivity) ltac:(vm_compute; reflexivity)
           ltac:(vm_compute; reflexivity) ltac:(vm_compute; reflexivity)
           ltac:(repeat constructor) ltac:(vm_compute; discriminate)
           ltac:(vm_compute; reflexivity)
           ltac:(split;
                 [exists SP; split; reflexivity
                 |right; split; [lia | exists SP; split; reflexivity]])
           ltac:(intros _; vm_compute; discriminate)).
Defined.

(** The same in terms of the file, for a search without context: when the
    file holds the word whole at offset [p] of chunk [j], in any casing, and
    the chunk, if it is not the first, does not start with the word, the
    list that [Search(word, 0)] returns has the bytes of the file at that
    place, in the casing of the file. *)
Theorem Search_returns_every_whole_word (file word : list byte)
    (ts ts' : TextSearcher) (res : list (list byte)) (j : nat) (p : Z) :
  asciiOnly file -> asciiOnly word ->
  Forall (fun b => isWordCharacter b = true) word ->
  NewSearcher file = Ok ts ->
  Search ts word 0 = Ok (ts', res) ->
  (j < numChunks file)%nat ->
  ToLower (term (chunkOf file j) p (length word)) = ToLower word ->
  wholeWordIn (chunkOf file j) (2 * j) p (length word) ->
  (j <> 0%nat -> ToLower (take (length word) (chunkOf file j)) <> ToLower word) ->
  In (term file (absoluteOffset j p) (length word)) res.
Proof.
  intros Hfa Hwa Hchars Hnew Hsearch Hj Hocc Hwhole Hstart.
  apply Search_SearchTrace in Hsearch. destruct Hsearch as [mss [Htrace ->]].
  destruct (SearchTrace_Ok _ _ _ _ _ Htrace) as [_ [Hlen Hscan]].
  pose proof (noContext_chunks file word ts ts' mss Hnew Htrace j Hj) as Hc.
  destruct (fileBuffers ts' !! (2 * j)%nat) as [full|] eqn:Hfull; [|discriminate].
  injection Hc as Hc.
  destruct (lookup_lt_is_Some_2 mss (2 * j)) as [ms Hms].
  { rewrite Hlen. eapply lookup_lt_Some; eauto. }
  assert (Hbounds : 0 <= p /\
                    p + Z.of_nat (length word) < Z.of_nat (length (chunkOf file j))).
  { destruct Hwhole as [[after [Ha _]] Hb]. apply lookup_lt_Some in Ha.
    destruct Hb as [[_ ->]|[? _]]; lia. }
  destruct (chunkOf_bounds file j Hj) as [Hchunk _].
  rewrite <- Hc in Hocc, Hwhole, Hstart.
  destruct (scanBuffer_finds ts' (2 * j) full Hfull word 0
              ltac:(rewrite Hc; unfold chunkOf; now apply asciiOnly_take, asciiOnly_drop)
              Hwa Hchars p ltac:(lia) Hocc Hwhole ltac:(intros; apply Hstart; lia)
              ms (Hscan _ _ Hms)) as [h [Hh [Hfst Hsnd]]].
  specialize (Hsnd ltac:(lia)). rewrite Hc in Hsnd.
  rewrite (term_chunkOf file j p) in Hsnd by lia.
  rewrite <- Hsnd. apply in_map. apply in_concat. exists ms.
  split; [|exact Hh]. apply list_elem_of_In. eapply list_elem_of_lookup_2; eauto.
Qed.

Lemma Search_returns_every_whole_word_witness :
  In (term straddleFile (absoluteOffset 1 6) (length (str "foo"))) [str "Foo"].
Proof.
  exact (Search_returns_every_whole_word straddleFile (str "foo")
           (valueOr (mkTextSearcher 20 []) (NewSearcher straddleFile))
           (exampleSearcher straddleFile 0) [str "Foo"] 1 6
           ltac:(vm_compute; reflexivity) ltac:(vm_compute; reflexivity)
           ltac:(repeat constructor)
           ltac:(vm_compute; reflexivity) ltac:(vm_compute; reflexivity)
           ltac:(vm_compute; lia)
           ltac:(vm_compute; reflexivity)
           ltac:(split;
                 [exists SP; split; reflexivity
                 |right; split; [lia | exists SP; split; reflexivity]])
           ltac:(intros _; vm_compute; discriminate)).
Defined.
